(** * StepwiseEstimator: a shallow embedding of [sparselm/model/_stepwise.py]

    The composite estimator owns an ordered list of named sub-estimators and a
    parallel list of feature-index scopes.  The sub-estimators and the numpy
    arrays are external collaborators: they are kept abstract behind two
    interfaces ([Externals], [SubEstimator]).

    - Sub-estimators are Python objects that the composite mutates in place
      and does not copy, so they live in a store indexed by object identity,
      and a step holds a reference into it; two steps may hold the same one.
    - A method runs in a state-and-exception monad: what was mutated before
      an exception stays mutated.
    - Every call on a sub-estimator is logged with its arguments and its
      outcome, so that the order and the arguments of the calls can be
      stated.
    - Floats and arrays are abstract; only [coef_] is a list, because the
      composite writes it position by position.
    - A dict is an association list in insertion order. *)

From Stdlib Require Import Ascii Floats.
From stdpp Require Import base functions list list_numbers strings gmap sorting.

(** ** Exceptions and the state-and-exception monad *)

(** The [ValueError]s of the module, told apart by their message. *)
Inductive value_error :=
  | MustSpecifyIndicesForEachStep   (* "Must specify a list of feature indices for each step!" *)
  | CanNotOverlapAndMustBeContinuous (* "Estimator feature indices: ... can not overlap and must be continuous!" *)
  | CannotAddStepwiseEstimator      (* "Cannot add a StepwiseEstimator into a CompositeEstimator!" *)
  | NotEnoughValuesToUnpack         (* a, b = tuple(zip( *[] )) *)
  | NotInTuple                      (* tuple.index(x): x not in tuple *)
  | DoesNotCoverAllFeatures         (* "All estimator indices: ... does not cover all ... features!" *)
  | CouldNotBroadcast               (* numpy: shape mismatch in an indexed assignment *)
  | OperandsCouldNotBeBroadcast.    (* numpy: shape mismatch of the operands of a - b *)

Inductive exn :=
  | ValueError (why : value_error)
  | IndexError
  | AttributeError (attr : string)
  | Foreign (msg : string).         (* whatever a sub-estimator's own method raised *)

Inductive result (A : Type) :=
  | Ok (a : A)
  | Raise (e : exn).
Arguments Ok {A} a.
Arguments Raise {A} e.

(** A Python call either returns or raises; in both cases the mutations done
    so far stay. *)
Definition M (S A : Type) : Type := S → result A * S.

Definition ret {S A} (a : A) : M S A := λ s, (Ok a, s).
Definition raise {S A} (e : exn) : M S A := λ s, (Raise e, s).
Definition bind {S A B} (m : M S A) (k : A → M S B) : M S B :=
  λ s, match m s with
       | (Ok a, s') => k a s'
       | (Raise e, s') => (Raise e, s')
       end.
Definition get {S} : M S S := λ s, (Ok s, s).
Definition modify {S} (f : S → S) : M S unit := λ s, (Ok tt, f s).

Declare Scope py_scope.
Delimit Scope py_scope with py.
Notation "'do' x <- m ; k" := (bind m (λ x, k))
  (at level 10, x name, m at level 100, k at level 200) : py_scope.
Notation "'do' ' p <- m ; k" := (bind m (λ x, match x with p => k end))
  (at level 10, p pattern, m at level 100, k at level 200) : py_scope.
Notation "m ;; k" := (bind m (λ _, k))
  (at level 100, k at level 200, right associativity) : py_scope.
Open Scope py_scope.

(** [for x in l: body x] *)
Fixpoint for_ {S A} (l : list A) (body : A → M S unit) : M S unit :=
  match l with
  | [] => ret tt
  | x :: l' => body x ;; for_ l' body
  end.

(** [for x in l: acc = body acc x], for a local variable rebound in the loop. *)
Fixpoint for_acc {S A B} (l : list A) (acc : B) (body : B → A → M S B) : M S B :=
  match l with
  | [] => ret acc
  | x :: l' => do acc' <- body acc x; for_acc l' acc' body
  end.

(** The same loop for a body that only computes. *)
Fixpoint fold_result {A B} (f : B → A → result B) (l : list A) (acc : B) : result B :=
  match l with
  | [] => Ok acc
  | x :: l' =>
      match f acc x with
      | Ok acc' => fold_result f l' acc'
      | Raise e => Raise e
      end
  end.

Definition lift_result {S A} (r : result A) : M S A := λ s, (r, s).

(** ** Python dicts: insertion-ordered, keyed by strings *)

Definition dict (V : Type) : Type := list (string * V).

(** [d[k] = v]: an existing key keeps its position, a new key goes last. *)
Fixpoint dict_set {V} (k : string) (v : V) (d : dict V) : dict V :=
  match d with
  | [] => [(k, v)]
  | (k', v') :: d' =>
      if decide (k' = k) then (k', v) :: d' else (k', v') :: dict_set k v d'
  end.

Fixpoint dict_lookup {V} (k : string) (d : dict V) : option V :=
  match d with
  | [] => None
  | (k', v') :: d' => if decide (k' = k) then Some v' else dict_lookup k d'
  end.

(** [d.get(k)], with Python's [None] as the default. *)
Definition dict_get {V} (none : V) (k : string) (d : dict V) : V :=
  default none (dict_lookup k d).

Definition keys {V} (d : dict V) : list string := d.*1.

(** ** [str.split("__")] and ["__".join] *)

Definition dunder : string := "__".

Definition cons_head (c : ascii) (parts : list string) : list string :=
  match parts with
  | [] => [String c EmptyString]
  | p :: ps => String c p :: ps
  end.

(** Python scans from the left and cuts at every non-overlapping ["__"]. *)
Fixpoint split_dunder (s : string) : list string :=
  match s with
  | EmptyString => [EmptyString]
  | String c s' =>
      match s' with
      | String c' s'' =>
          if decide (c = "_"%char ∧ c' = "_"%char)
          then EmptyString :: split_dunder s''
          else cons_head c (split_dunder s')
      | EmptyString => [String c EmptyString]
      end
  end.

Fixpoint join_dunder (parts : list string) : string :=
  match parts with
  | [] => EmptyString
  | [p] => p
  | p :: ps => p +:+ dunder +:+ join_dunder ps
  end.

(** ** The external collaborators *)

(** numpy arrays and plain Python values, as far as the composite touches
    them. *)
Class Externals := {
  num : Type;                        (* a float *)
  nan : num;                         (* np.nan *)
  zero : num;                        (* 0.0 *)
  arr : Type;                        (* targets, residuals, predictions *)
  arr_sub : arr → arr → option arr;  (* a - b; nothing when the shapes do not fit *)
  mat : Type;                        (* feature matrices *)
  n_features : mat → nat;            (* X.shape[1] *)
  take_cols : mat → list Z → mat;    (* X[:, scope] *)
  value : Type;                      (* a hyper-parameter value *)
  pyNone : value;                    (* None *)
  extra : Type;                      (* the forwarded *args, **kwargs *)
  hyper : Type;                      (* the rest of a sub-estimator's state *)
}.

(** Object identities. *)
Abbreviation loc := nat (only parsing).

Section Model.
Context `{Ext : Externals}.

(** A sub-estimator object: the attributes the composite reads or writes,
    and the rest. *)
Record estimator := Estimator {
  is_StepwiseEstimator : bool;       (* isinstance(estimator, StepwiseEstimator) *)
  fit_intercept : bool;
  est_coef_ : option (list num);     (* unset before the first fit *)
  est_intercept_ : option num;
  est_hyper : hyper;
}.

Definition set_fit_intercept (b : bool) (e : estimator) : estimator :=
  Estimator (is_StepwiseEstimator e) b (est_coef_ e) (est_intercept_ e) (est_hyper e).

(** The capability set required from every sub-estimator.  A method returns
    the mutated object, or the message of what it raised; an object whose
    method raised is taken to be left as it was. *)
Class SubEstimator := {
  est_get_param_names : estimator → list string;
  est_get_params : bool → estimator → dict value;
  est_set_params : dict value → estimator → string + estimator;
  est_fit : mat → arr → option arr → extra → estimator → string + estimator;
  est_predict : mat → estimator → string + arr;
}.
Context `{Sub : SubEstimator}.

(** The calls made on sub-estimators, in the order they happen, each with
    its arguments and with what it returned or raised. *)
Inductive call :=
  | Call_set_params (l : loc) (kw : dict value) (out : string + estimator)
  | Call_fit (l : loc) (Xs : mat) (target : arr) (sw : option arr) (ex : extra)
      (out : string + estimator)
  | Call_predict (l : loc) (Xs : mat) (out : string + arr).

(** The store of sub-estimator objects, and the log of calls on them. *)
Record world := World {
  objs : loc → estimator;
  calls : list call;
}.

Definition deref (l : loc) : M world estimator := λ w, (Ok (objs w l), w).
Definition assign (l : loc) (e : estimator) : M world unit :=
  modify (λ w, World (<[l := e]> (objs w)) (calls w)).
Definition log (c : call) : M world unit :=
  modify (λ w, World (objs w) (calls w ++ [c])).

(** ** The composite *)

(** A step whose estimator is itself a composite. *)
Definition nested (w : world) (step : string * loc) : Prop :=
  is_StepwiseEstimator (objs w step.2) = true.
#[export] Instance nested_dec (w : world) (step : string * loc) :
  Decision (nested w step) :=
  decide (is_StepwiseEstimator (objs w step.2) = true).

Record StepwiseEstimator := Stepwise {
  _step_names : list string;
  _estimators : list loc;
  _estimator_feature_indices : list (list Z);
  _full_scope : list Z;
  coef_ : option (list num);         (* unset before the first fit *)
  intercept_ : option num;
}.

Definition chain (scopes : list (list Z)) : list Z := concat scopes.
Definition sorted (l : list Z) : list Z := merge_sort Z.le l.
(** [sorted(set(l))] *)
Definition sorted_set (l : list Z) : list Z :=
  sorted (elements (list_to_set l : gset Z)).
(** [list(range(n))] *)
Definition range (n : nat) : list Z := seqZ 0 (Z.of_nat n).

(** The condition of the second [if] of [__init__]. *)
Definition overlap_or_not_continuous (estimator_feature_indices : list (list Z)) : bool :=
  let full_scope := sorted_set (chain estimator_feature_indices) in
  bool_decide (full_scope ≠ sorted (chain estimator_feature_indices))
  || bool_decide (full_scope ≠ range (length full_scope)).

Definition __init__ (steps : list (string * loc))
    (estimator_feature_indices : list (list Z)) : M world StepwiseEstimator :=
  if decide (length steps ≠ length estimator_feature_indices)
  then raise (ValueError MustSpecifyIndicesForEachStep)
  else
    let full_scope := sorted_set (chain estimator_feature_indices) in
    if overlap_or_not_continuous estimator_feature_indices
    then raise (ValueError CanNotOverlapAndMustBeContinuous)
    else
      for_ steps (λ '(_, estimator),
        do e <- deref estimator;
        if is_StepwiseEstimator e
        then raise (ValueError CannotAddStepwiseEstimator)
        else ret tt) ;;
      (* self._step_names, self._estimators = tuple(zip( *steps)) *)
      do '(step_names, estimators) <-
        match steps with
        | [] => raise (ValueError NotEnoughValuesToUnpack)
        | _ => ret (steps.*1, steps.*2)
        end;
      (* np.array(scope, dtype=int).tolist() is the identity on lists of ints *)
      let self := Stepwise step_names estimators estimator_feature_indices
                    full_scope None None in
      (* Only the first estimator is allowed to fit intercept. *)
      (if decide (1 < length estimators)
       then for_ (drop 1 estimators) (λ estimator,
              do e <- deref estimator;
              assign estimator (set_fit_intercept false e))
       else ret tt) ;;
      ret self.

(** *** The parameter namespace *)

Definition _get_param_names (self : StepwiseEstimator) (w : world) : list string :=
  let all_params := (λ estimator, est_get_param_names (objs w estimator))
                      <$> _estimators self in
  concat ((λ step : string * list string,
             (λ name, step.1 +:+ dunder +:+ name) <$> step.2)
          <$> zip (_step_names self) all_params).

(** [self._step_names.index(step_name)] *)
Definition index_of (step_name : string) (step_names : list string) : result nat :=
  match list_find (λ n, n = step_name) step_names with
  | Some (i, _) => Ok i
  | None => Raise (ValueError NotInTuple)
  end.

Definition _get_step_param_name (self : StepwiseEstimator) (name : string)
    : result (nat * string) :=
  let splitted := split_dunder name in
  let step_name := hd EmptyString splitted in
  match index_of step_name (_step_names self) with
  | Ok step_ind => Ok (step_ind, join_dunder (tail splitted))
  | Raise e => Raise e
  end.

(** [l[i]] *)
Definition getitem {S A} (l : list A) (i : nat) : M S A :=
  match l !! i with
  | Some x => ret x
  | None => raise IndexError
  end.

(** One round of the loop of [get_params]. *)
Definition get_params_step (self : StepwiseEstimator) (est_params : list (dict value))
    (out : dict value) (name : string) : result (dict value) :=
  match _get_step_param_name self name with
  | Ok (step_ind, param_name) =>
      match est_params !! step_ind with
      | Some d => Ok (dict_set name (dict_get pyNone param_name d) out)
      | None => Raise IndexError
      end
  | Raise e => Raise e
  end.

Definition get_params (self : StepwiseEstimator) (deep : bool) : M world (dict value) :=
  do w <- get;
  let est_params := (λ estimator, est_get_params deep (objs w estimator))
                      <$> _estimators self in
  for_acc (_get_param_names self w) []
    (λ out name, lift_result (get_params_step self est_params out name)).

Definition call_set_params (l : loc) (kw : dict value) : M world unit :=
  do e <- deref l;
  let out := est_set_params kw e in
  log (Call_set_params l kw out) ;;
  match out with
  | inl msg => raise (Foreign msg)
  | inr e' => assign l e'
  end.

(** One round of the first loop of [set_params]. *)
Definition set_params_step (self : StepwiseEstimator)
    (params_for_estimators : list (dict value)) (item : string * value)
    : result (list (dict value)) :=
  let '(name, v) := item in
  match _get_step_param_name self name with
  | Ok (step_ind, real_name) =>
      match params_for_estimators !! step_ind with
      | Some d => Ok (<[step_ind := dict_set real_name v d]> params_for_estimators)
      | None => Raise IndexError
      end
  | Raise e => Raise e
  end.

Definition set_params (self : StepwiseEstimator) (params : dict value)
    : M world StepwiseEstimator :=
  match params with
  | [] => ret self
  | _ =>
      do params_for_estimators <-
        for_acc params (replicate (length (_estimators self)) [])
          (λ params_for_estimators item,
             lift_result (set_params_step self params_for_estimators item));
      for_ (zip params_for_estimators (_estimators self))
        (λ '(estimator_params, estimator),
           call_set_params estimator estimator_params) ;;
      ret self
  end.

(** *** Fitting *)

Definition call_fit (l : loc) (Xs : mat) (target : arr) (sw : option arr) (ex : extra)
    : M world unit :=
  do e <- deref l;
  let out := est_fit Xs target sw ex e in
  log (Call_fit l Xs target sw ex out) ;;
  match out with
  | inl msg => raise (Foreign msg)
  | inr e' => assign l e'
  end.

Definition call_predict (l : loc) (Xs : mat) : M world arr :=
  do e <- deref l;
  let out := est_predict Xs e in
  log (Call_predict l Xs out) ;;
  match out with
  | inl msg => raise (Foreign msg)
  | inr p => ret p
  end.

(** numpy's [a[index] = values] for a one-dimensional [a] and a list of
    integer positions: a negative position counts from the end, a position
    out of range raises, [values] of length one is broadcast, and of the
    writes to one position the last one stays. *)
Definition normalize_index (n : nat) (i : Z) : option nat :=
  if bool_decide (0 ≤ i < Z.of_nat n)%Z then Some (Z.to_nat i)
  else if bool_decide (- Z.of_nat n ≤ i < 0)%Z then Some (Z.to_nat (Z.of_nat n + i))
  else None.

Definition broadcast_to (m : nat) (values : list num) : option (list num) :=
  if decide (length values = m) then Some values
  else match values with
       | [v] => Some (replicate m v)
       | _ => None
       end.

Definition write (a : list num) (iv : nat * num) : list num := <[iv.1 := iv.2]> a.

Definition setitem (a : list num) (index : list Z) (values : list num)
    : result (list num) :=
  match mapM (normalize_index (length a)) index with
  | None => Raise IndexError
  | Some positions =>
      match broadcast_to (length positions) values with
      | None => Raise (ValueError CouldNotBroadcast)
      | Some values' => Ok (foldl write a (zip positions values'))
      end
  end.

(** A method of the composite runs on the composite's own fields and on the
    store. *)
Definition state : Type := StepwiseEstimator * world.

Definition in_world {A} (m : M world A) : M state A :=
  λ s, let r := m s.2 in (r.1, (s.1, r.2)).
Definition get_self : M state StepwiseEstimator := λ s, (Ok s.1, s).
Definition with_coef_ (c : list num) (self : StepwiseEstimator) : StepwiseEstimator :=
  Stepwise (_step_names self) (_estimators self) (_estimator_feature_indices self)
    (_full_scope self) (Some c) (intercept_ self).
Definition with_intercept_ (b : num) (self : StepwiseEstimator) : StepwiseEstimator :=
  Stepwise (_step_names self) (_estimators self) (_estimator_feature_indices self)
    (_full_scope self) (coef_ self) (Some b).
(** [self.coef_ = c] and [self.intercept_ = b] *)
Definition set_coef_ (c : list num) : M state unit :=
  modify (λ s, (with_coef_ c s.1, s.2)).
Definition set_intercept_ (b : num) : M state unit :=
  modify (λ s, (with_intercept_ b s.1, s.2)).
Definition getattr {S A} (attr : string) (field : option A) : M S A :=
  match field with
  | Some x => ret x
  | None => raise (AttributeError attr)
  end.

(** [a - b] on arrays *)
Definition subtract {S} (a b : arr) : M S arr :=
  match arr_sub a b with
  | Some c => ret c
  | None => raise (ValueError OperandsCouldNotBeBroadcast)
  end.

(** One round of the loop of [fit]. *)
Definition fit_step (X : mat) (sample_weight : option arr) (ex : extra)
    (residuals : arr) (step : loc * list Z) : M state arr :=
  let '(estimator, scope) := step in
  in_world (call_fit estimator (take_cols X scope) residuals sample_weight ex) ;;
  do e <- in_world (deref estimator);
  do c <- getattr "coef_" (est_coef_ e);
  do self <- get_self;
  do a <- getattr "coef_" (coef_ self);
  do a' <- lift_result (setitem a scope c);
  set_coef_ a' ;;
  do p <- in_world (call_predict estimator (take_cols X scope));
  subtract residuals p.

(** What [fit] does once the coverage check has passed. *)
Definition fit_body (X : mat) (y : arr) (sample_weight : option arr) (ex : extra)
    : M state StepwiseEstimator :=
  let residuals := y (* y.copy() *) in
  do self <- get_self;
  set_coef_ (replicate (n_features X) nan) ;;
  for_acc (zip (_estimators self) (_estimator_feature_indices self)) residuals
    (fit_step X sample_weight ex) ;;
  (* Only the first estimator is allowed to fit intercept. *)
  do first <- getitem (_estimators self) 0;
  do e <- in_world (deref first);
  (if fit_intercept e
   then do b <- getattr "intercept_" (est_intercept_ e); set_intercept_ b
   else set_intercept_ zero) ;;
  (* return self for chaining fit and predict calls *)
  get_self.

Definition fit (X : mat) (y : arr) (sample_weight : option arr) (ex : extra)
    : M state StepwiseEstimator :=
  (* np.asarray leaves an array as it is *)
  do self <- get_self;
  if decide (_full_scope self ≠ range (n_features X))
  then raise (ValueError DoesNotCoverAllFeatures)
  else fit_body X y sample_weight ex.

(** ** Reading the log and the fitted state *)

Definition fit_calls (evs : list call)
    : list (loc * mat * arr * option arr * extra) :=
  omap (λ c, match c with
             | Call_fit l Xs target sw ex _ => Some (l, Xs, target, sw, ex)
             | _ => None
             end) evs.

(** What the calls of [fit] left behind, call by call. *)
Definition fitted (evs : list call) : list (string + estimator) :=
  omap (λ c, match c with
             | Call_fit _ _ _ _ _ out => Some out
             | _ => None
             end) evs.

Definition predict_calls (evs : list call) : list (loc * mat) :=
  omap (λ c, match c with
             | Call_predict l Xs _ => Some (l, Xs)
             | _ => None
             end) evs.

(** The predictions that were returned. *)
Definition predictions (evs : list call) : list arr :=
  omap (λ c, match c with
             | Call_predict _ _ (inr p) => Some p
             | _ => None
             end) evs.

Definition set_params_calls (evs : list call) : list (loc * dict value) :=
  omap (λ c, match c with
             | Call_set_params l kw _ => Some (l, kw)
             | _ => None
             end) evs.

(** The fields set by the constructor and never assigned again. *)
Definition config (self : StepwiseEstimator)
    : list string * list loc * list (list Z) * list Z :=
  (_step_names self, _estimators self, _estimator_feature_indices self,
   _full_scope self).

(** numpy's [a[index]] for a one-dimensional [a] and a list of positions. *)
Definition getitems (a : list num) (index : list Z) : option (list num) :=
  mapM (λ i, normalize_index (length a) i ≫= λ k, a !! k) index.

(** [target - p1 - p2 - ...], subtracted one after the other. *)
Definition residual_after (target : arr) (ps : list arr) : option arr :=
  foldl (λ r p, r ≫= λ r, arr_sub r p) (Some target) ps.

(** The calls that fitting against a running residual consists of, as the
    description has it, to be compared with the log of [fit]: step after
    step, the step's [fit] on the columns of its scope with the residual as
    target, then its [predict] on the same columns in the state the [fit]
    left, the residual for the next step being this one minus the
    prediction.  The calls end with the first one that raises, or when the
    subtraction is not possible. *)
Fixpoint running_residual_calls (X : mat) (sw : option arr) (ex : extra)
    (steps : list (loc * list Z)) (residual : arr) (o : loc → estimator)
    : list call :=
  match steps with
  | [] => []
  | (l, scope) :: steps' =>
      let Xs := take_cols X scope in
      let out := est_fit Xs residual sw ex (o l) in
      Call_fit l Xs residual sw ex out ::
      match out with
      | inl _ => []
      | inr e =>
          let pout := est_predict Xs e in
          Call_predict l Xs pout ::
          match pout with
          | inl _ => []
          | inr p =>
              match arr_sub residual p with
              | None => []
              | Some residual' =>
                  running_residual_calls X sw ex steps' residual' (<[l:=e]> o)
              end
          end
      end
  end.

(** The entries of [params] addressed to step [i], under their native
    names, in the order they come; and the dict made of them. *)
Definition addressed_to (self : StepwiseEstimator) (i : nat) (params : dict value)
    : list (string * value) :=
  omap (λ kv : string * value,
          match _get_step_param_name self kv.1 with
          | Ok (step_ind, real_name) =>
              if decide (step_ind = i) then Some (real_name, kv.2) else None
          | Raise _ => None
          end) params.

Definition dict_of {V} (kvs : list (string * V)) : dict V :=
  foldl (λ d kv, dict_set kv.1 kv.2 d) [] kvs.

(** A sub-estimator's native parameters with the values [get_params]
    reports for them. *)
Definition current_params (deep : bool) (e : estimator) : dict value :=
  (λ name, (name, dict_get pyNone name (est_get_params deep e)))
    <$> est_get_param_names e.

(** A step name after which the first ["__"] of a qualified name is the
    separator: it contains no ["__"] and does not end in ["_"]. *)
Definition clean (step_name : string) : Prop :=
  split_dunder (step_name +:+ "_") = [step_name +:+ "_"].

(** A qualified name whose step component is a registered step name. *)
Definition resolves (self : StepwiseEstimator) (item : string * value) : Prop :=
  ∃ step_ind real_name, _get_step_param_name self item.1 = Ok (step_ind, real_name).

(** What [get_params] is to return: step by step, every native parameter
    under its qualified name, with its current value. *)
Definition qualified_params (self : StepwiseEstimator) (deep : bool) (w : world)
    : dict value :=
  concat ((λ step : string * loc,
             (λ kv : string * value, (step.1 +:+ dunder +:+ kv.1, kv.2))
               <$> current_params deep (objs w step.2))
          <$> zip (_step_names self) (_estimators self)).

(** A name whose step component is a registered step name. *)
Definition name_resolves (self : StepwiseEstimator) (name : string) : Prop :=
  ∃ step_ind param_name, _get_step_param_name self name = Ok (step_ind, param_name).

(** What a logged call raised, if it did. *)
Definition raised (c : call) : option string :=
  match c with
  | Call_set_params _ _ (inl msg) | Call_fit _ _ _ _ _ (inl msg)
  | Call_predict _ _ (inl msg) => Some msg
  | _ => None
  end.

(** Two states of a sub-estimator that show the same parameters. *)
Definition same_params (e1 e2 : estimator) : Prop :=
  (∀ deep, est_get_params deep e1 = est_get_params deep e2)
  ∧ est_get_param_names e1 = est_get_param_names e2.

End Model.

(** ** A small concrete instance

    Integer arithmetic for the arrays and a sub-estimator that is easy to
    run: its hyper-parameters are a dict of integers, [fit] takes one
    coefficient per column (the dot product of the column with the target)
    and the sum of the target as intercept, [predict] sums the columns
    scaled by their coefficients. *)
Module Toy.

Definition dot (u v : list Z) : Z := foldr Z.add 0%Z (zip_with Z.mul u v).
(** One-dimensional arrays can be subtracted when they are as long as each
    other, or one of them has a single entry. *)
Definition vsub (u v : list Z) : option (list Z) :=
  if decide (length u = length v) then Some (zip_with Z.sub u v)
  else match u, v with
       | _, [b] => Some ((λ a, a - b)%Z <$> u)
       | [a], _ => Some ((λ b, a - b)%Z <$> v)
       | _, _ => None
       end.
Definition vadd (u v : list Z) : list Z := zip_with Z.add u v.
Definition scale (k : Z) (u : list Z) : list Z := Z.mul k <$> u.

(** A matrix is the list of its columns. *)
Definition column (X : list (list Z)) (i : Z) : list Z :=
  default [] (X !! Z.to_nat i).

#[export] Instance ext : Externals := {|
  num := Z;
  nan := (-1)%Z;
  zero := 0%Z;
  arr := list Z;
  arr_sub := vsub;
  mat := list (list Z);
  n_features := length;
  take_cols := λ X scope, column X <$> scope;
  value := Z;
  pyNone := 0%Z;
  extra := unit;
  hyper := dict Z;
|}.

Definition new (fit_intercept : bool) (params : dict Z) : estimator :=
  Estimator false fit_intercept None None params.

Definition set_param (e : string + estimator) (kv : string * Z) : string + estimator :=
  match e with
  | inl msg => inl msg
  | inr e =>
      match dict_lookup kv.1 (est_hyper e) with
      | None => inl "Invalid parameter"
      | Some _ =>
          inr (Estimator (is_StepwiseEstimator e) (fit_intercept e) (est_coef_ e)
                 (est_intercept_ e) (dict_set kv.1 kv.2 (est_hyper e)))
      end
  end.

Definition toy_fit (Xs : list (list Z)) (target : list Z) (e : estimator) : estimator :=
  Estimator (is_StepwiseEstimator e) (fit_intercept e)
    (Some ((λ col, dot col target) <$> Xs))
    (Some (if fit_intercept e then foldr Z.add 0%Z target else 0%Z))
    (est_hyper e).

Definition toy_predict (Xs : list (list Z)) (e : estimator) : string + list Z :=
  match est_coef_ e with
  | None => inl "not fitted"
  | Some c =>
      inr (foldr vadd (replicate (length (default [] (head Xs))) 0%Z)
             (zip_with scale c Xs))
  end.

#[export] Instance sub : SubEstimator := {|
  est_get_param_names := λ e, keys (est_hyper e);
  est_get_params := λ _ e, est_hyper e;
  est_set_params := λ kw e, foldl set_param (inr e) kw;
  est_fit := λ Xs target _ _ e, inr (toy_fit Xs target e);
  est_predict := toy_predict;
|}.

(** A store with plain estimators and, at 2, a composite. *)
Definition objs0 : nat → estimator :=
  λ l, match l with
       | 0 => new true [("alpha", 1%Z)]
       | 1 => new true [("alpha", 2%Z); ("beta", 3%Z)]
       | 2 => Estimator true true None None []
       | 3 => new true [("_b", 1%Z)]
       | 4 => new true [("b", 2%Z)]
       | _ => new true []
       end.
Definition w0 : world := World objs0 [].

Definition y2 : list Z := [3; 5]%Z.

(** Two steps on two objects, over four columns. *)
Definition steps_ab : list (string * nat) := [("a", 0); ("b", 1)].
Definition scopes_ab : list (list Z) := [[0; 1]; [2; 3]]%Z.
Definition self_ab : StepwiseEstimator :=
  Stepwise ["a"; "b"] [0; 1] scopes_ab [0; 1; 2; 3]%Z None None.
Definition w_ab : world := (__init__ steps_ab scopes_ab w0).2.
Definition X4 : list (list Z) := [[1; 0]; [0; 1]; [1; 1]; [2; 0]]%Z.
Definition X3 : list (list Z) := [[1; 0]; [0; 1]; [1; 1]]%Z.
Definition fitted_ab : StepwiseEstimator :=
  Stepwise ["a"; "b"] [0; 1] scopes_ab [0; 1; 2; 3]%Z
    (Some [3; 5; 0; 0]%Z) (Some 8%Z).
Definition w_fitted_ab : world := (fit X4 y2 None tt (self_ab, w_ab)).2.2.

(** Two steps on one and the same object, over two columns. *)
Definition steps_aa : list (string * nat) := [("a", 0); ("b", 0)].
Definition scopes_aa : list (list Z) := [[0]; [1]]%Z.
Definition self_aa : StepwiseEstimator :=
  Stepwise ["a"; "b"] [0; 0] scopes_aa [0; 1]%Z None None.
Definition w_aa : world := (__init__ steps_aa scopes_aa w0).2.
Definition X2 : list (list Z) := [[1; 0]; [0; 1]]%Z.
Definition fitted_aa : StepwiseEstimator :=
  Stepwise ["a"; "b"] [0; 0] scopes_aa [0; 1]%Z (Some [3; 5]%Z) (Some 0%Z).
Definition w_fitted_aa : world := (fit X2 y2 None tt (self_aa, w_aa)).2.2.

(** A composite among the steps, and scopes with a gap. *)
Definition steps_nested : list (string * nat) := [("a", 0); ("b", 2)].
Definition scopes_gap : list (list Z) := [[0]; [2]]%Z.

(** Two unique step names that collide once qualified. *)
Definition steps_collide : list (string * nat) := [("a", 3); ("a_", 4)].
Definition self_collide : StepwiseEstimator :=
  Stepwise ["a"; "a_"] [3; 4] scopes_aa [0; 1]%Z None None.
Definition w_collide : world := (__init__ steps_collide scopes_aa w0).2.

End Toy.

(** The same sub-estimator, except that its [fit] refuses a target that is
    zero throughout (an empty one included). *)
Module Flaky.
Import Toy.

Definition flaky_fit (Xs : list (list Z)) (target : list Z) (e : estimator)
    : string + estimator :=
  if forallb (Z.eqb 0) target then inl "nothing left to fit"
  else inr (toy_fit Xs target e).

Definition sub : SubEstimator := {|
  est_get_param_names := λ e, keys (est_hyper e);
  est_get_params := λ _ e, est_hyper e;
  est_set_params := λ kw e, foldl set_param (inr e) kw;
  est_fit := λ Xs target _ _ e, flaky_fit Xs target e;
  est_predict := toy_predict;
|}.

End Flaky.

(** ** An instance with floating-point arrays

    Arrays of IEEE 754 binary64 numbers, as numpy's [float64], and a
    sub-estimator with a fixed slope: its [fit] takes the slope it was made
    with as the coefficient of every column, [predict] sums the columns
    scaled by their coefficients. *)
Module FloatRun.

Definition fsub (u v : list float) : option (list float) :=
  if decide (length u = length v) then Some (zip_with PrimFloat.sub u v)
  else match u, v with
       | _, [b] => Some ((λ a, PrimFloat.sub a b) <$> u)
       | [a], _ => Some ((λ b, PrimFloat.sub a b) <$> v)
       | _, _ => None
       end.
Definition fadd (u v : list float) : list float := zip_with PrimFloat.add u v.
Definition fscale (k : float) (u : list float) : list float :=
  PrimFloat.mul k <$> u.

(** A matrix is the list of its columns. *)
Definition column (X : list (list float)) (i : Z) : list float :=
  default [] (X !! Z.to_nat i).

Definition ext : Externals := {|
  num := float;
  nan := PrimFloat.nan;
  zero := 0%float;
  arr := list float;
  arr_sub := fsub;
  mat := list (list float);
  n_features := length;
  take_cols := λ X scope, column X <$> scope;
  value := float;
  pyNone := 0%float;
  extra := unit;
  hyper := float;
|}.
#[local] Existing Instance ext.

Definition new (slope : float) : estimator :=
  Estimator false true None None slope.

Definition set_slope (e : string + estimator) (kv : string * float)
    : string + estimator :=
  match e with
  | inl msg => inl msg
  | inr e =>
      if decide (kv.1 = "slope")
      then inr (Estimator (is_StepwiseEstimator e) (fit_intercept e) (est_coef_ e)
                  (est_intercept_ e) kv.2)
      else inl "Invalid parameter"
  end.

Definition slope_fit (Xs : list (list float)) (e : estimator) : estimator :=
  Estimator (is_StepwiseEstimator e) (fit_intercept e)
    (Some (replicate (length Xs) (est_hyper e))) (Some 0%float) (est_hyper e).

Definition slope_predict (Xs : list (list float)) (e : estimator)
    : string + list float :=
  match est_coef_ e with
  | None => inl "not fitted"
  | Some c =>
      inr (foldr fadd (replicate (length (default [] (head Xs))) 0%float)
             (zip_with fscale c Xs))
  end.

Definition sub : SubEstimator := {|
  est_get_param_names := λ _, ["slope"];
  est_get_params := λ _ e, [("slope", est_hyper e)];
  est_set_params := λ kw e, foldl set_slope (inr e) kw;
  est_fit := λ Xs _ _ _ e, inr (slope_fit Xs e);
  est_predict := slope_predict;
|}.
#[local] Existing Instance sub.

(** Three sub-estimators with the slopes 1e16, -1e16 and 0, one column
    each, and one sample. *)
Definition objs0 : nat → estimator :=
  λ l, match l with
       | 0 => new 1e16%float
       | 1 => new (-1e16)%float
       | _ => new 0%float
       end.
Definition w0 : world := World objs0 [].
Definition steps : list (string * nat) := [("a", 0); ("b", 1); ("c", 2)].
Definition scopes : list (list Z) := [[0]; [1]; [2]]%Z.
Definition self0 : StepwiseEstimator :=
  Stepwise ["a"; "b"; "c"] [0; 1; 2] scopes [0; 1; 2]%Z None None.
Definition w1 : world := (__init__ steps scopes w0).2.
Definition X : list (list float) := [[1%float]; [1%float]; [1%float]].
Definition y : list float := [1%float].

End FloatRun.

(** * Properties *)

(** ** Sorting and ranges *)

Lemma Sorted_seqZ (m n : Z) : Sorted Z.le (seqZ m n).
Proof.
  destruct (decide (n ≤ 0)%Z) as [Hn|Hn].
  { rewrite seqZ_nil by done. constructor. }
  rewrite <- (Z2Nat.id n) by lia. generalize (Z.to_nat n) as k. clear.
  intros k. revert m. induction k as [|k IH]; intros m.
  { rewrite seqZ_nil by lia. constructor. }
  rewrite seqZ_cons by lia.
  replace (Z.pred (Z.of_nat (S k))) with (Z.of_nat k) by lia.
  constructor; [apply IH|].
  destruct k as [|k]; [rewrite seqZ_nil by lia; constructor|].
  rewrite seqZ_cons by lia. constructor. lia.
Qed.

Section Sorting.

Lemma sorted_Sorted (l : list Z) : Sorted Z.le (sorted l).
Proof. apply (Sorted_merge_sort Z.le). Qed.

Lemma sorted_Permutation (l : list Z) : sorted l ≡ₚ l.
Proof. apply merge_sort_Permutation. Qed.

Lemma sorted_unique (l1 l2 : list Z) : l1 ≡ₚ l2 → sorted l1 = sorted l2.
Proof.
  intros Hp. apply (Sorted_unique Z.le); try apply sorted_Sorted.
  by rewrite !sorted_Permutation.
Qed.

Lemma sorted_range (n : nat) : sorted (range n) = range n.
Proof.
  apply (Sorted_unique Z.le); [apply sorted_Sorted|apply Sorted_seqZ|].
  apply sorted_Permutation.
Qed.

Lemma length_range (n : nat) : length (range n) = n.
Proof. unfold range. rewrite length_seqZ. lia. Qed.

Lemma elem_of_range (n : nat) (i : Z) : i ∈ range n ↔ (0 ≤ i < Z.of_nat n)%Z.
Proof. unfold range. rewrite elem_of_seqZ. lia. Qed.

Lemma sorted_set_NoDup (l : list Z) : NoDup l → sorted_set l = sorted l.
Proof.
  intros Hl. apply sorted_unique. by apply elements_list_to_set.
Qed.

(** The test of [__init__] passes exactly on the rearrangements of a range. *)
Lemma scope_check_spec (scopes : list (list Z)) :
  overlap_or_not_continuous scopes = false ↔
  ∃ n : nat, sorted (chain scopes) = range n.
Proof.
  unfold overlap_or_not_continuous. rewrite orb_false_iff.
  rewrite !bool_decide_eq_false. split.
  - intros [H1 H2]. apply dec_stable in H1. apply dec_stable in H2.
    exists (length (sorted_set (chain scopes))). congruence.
  - intros [n Hn].
    assert (NoDup (chain scopes)) as Hnd.
    { rewrite <- (sorted_Permutation (chain scopes)), Hn. apply NoDup_seqZ. }
    rewrite (sorted_set_NoDup _ Hnd), Hn, length_range. split; auto.
Qed.

Lemma range_iff_partition (l : list Z) :
  (∃ n : nat, sorted l = range n) ↔
  NoDup l ∧ ∀ i, i ∈ l ↔ (0 ≤ i < Z.of_nat (length l))%Z.
Proof.
  split.
  - intros [n Hn].
    assert (l ≡ₚ range n) as Hp by (by rewrite <- Hn, sorted_Permutation).
    split; [rewrite Hp; apply NoDup_seqZ|].
    intros i. rewrite Hp, length_range. apply elem_of_range.
  - intros [Hnd Hel]. exists (length l).
    rewrite <- sorted_range. apply sorted_unique.
    apply NoDup_Permutation; [done|apply NoDup_seqZ|].
    intros i. by rewrite Hel, elem_of_range.
Qed.

End Sorting.

(** ** Running the monad *)

Lemma bind_inv {S A B} (m : M S A) (k : A → M S B) s r s2 :
  bind m k s = (r, s2) →
  (∃ e, m s = (Raise e, s2) ∧ r = Raise e) ∨
  (∃ a s1, m s = (Ok a, s1) ∧ k a s1 = (r, s2)).
Proof.
  unfold bind. destruct (m s) as [[a|e] s1].
  - intros H. right. by exists a, s1.
  - intros [= <- <-]. left. by exists e.
Qed.

(** ** Construction *)

Section Construction.
Context `{Ext : Externals}.

Lemma nested_loop (steps : list (string * nat)) (w : world) :
  for_ steps (λ '(_, estimator),
    do e <- deref estimator;
    if is_StepwiseEstimator e
    then raise (ValueError CannotAddStepwiseEstimator)
    else ret tt) w
  = (if decide (Exists (nested w) steps)
     then Raise (ValueError CannotAddStepwiseEstimator) else Ok tt, w).
Proof.
  induction steps as [|[name l] steps IH]; cbn [for_].
  { rewrite decide_False; [done|]. by inversion 1. }
  unfold bind at 1, deref at 1. unfold bind at 1.
  destruct (is_StepwiseEstimator (objs w l)) eqn:Hl.
  - rewrite decide_True; [done|]. by left.
  - unfold ret at 1. rewrite IH.
    destruct (decide (Exists (nested w) steps)) as [H|H].
    + rewrite decide_True; [done|]. by right.
    + rewrite decide_False; [done|]. rewrite Exists_cons. unfold nested at 1.
      simpl. intros [?|?]; [congruence|done].
Qed.

Lemma force_loop (ls : list nat) (w : world) :
  ∃ o', for_ ls (λ estimator,
          do e <- deref estimator;
          assign estimator (set_fit_intercept false e)) w
        = (Ok tt, World o' (calls w))
      ∧ (∀ l, l ∈ ls → o' l = set_fit_intercept false (objs w l))
      ∧ (∀ l, l ∉ ls → o' l = objs w l).
Proof.
  revert w. induction ls as [|x ls IH]; intros w; simpl.
  { exists (objs w). split; [by destruct w|]. split; [|done].
    intros l Hl. by apply elem_of_nil in Hl. }
  unfold bind at 1. unfold bind at 1, deref at 1, assign, modify. simpl.
  destruct (IH (World (<[x:=set_fit_intercept false (objs w x)]> (objs w)) (calls w)))
    as (o' & Hrun & Hin & Hout).
  simpl in *. exists o'. split; [done|]. split.
  - intros l Hl. destruct (decide (l ∈ ls)) as [Hls|Hls].
    + rewrite (Hin l Hls). destruct (decide (l = x)) as [->|Hne].
      * by rewrite fn_lookup_insert.
      * by rewrite fn_lookup_insert_ne.
    + apply elem_of_cons in Hl as [->|?]; [|done].
      by rewrite (Hout x Hls), fn_lookup_insert.
  - intros l Hl. apply not_elem_of_cons in Hl as [Hne Hls].
    by rewrite (Hout l Hls), fn_lookup_insert_ne.
Qed.

Lemma init_length_error steps scopes (w : world) :
  length steps ≠ length scopes →
  __init__ steps scopes w = (Raise (ValueError MustSpecifyIndicesForEachStep), w).
Proof. intros H. unfold __init__. by rewrite decide_True. Qed.

Lemma init_scope_error steps scopes (w : world) :
  length steps = length scopes →
  overlap_or_not_continuous scopes = true →
  __init__ steps scopes w = (Raise (ValueError CanNotOverlapAndMustBeContinuous), w).
Proof.
  intros H1 H2. unfold __init__. rewrite decide_False by (by intros ?).
  by rewrite H2.
Qed.

Lemma init_nested_error steps scopes (w : world) :
  length steps = length scopes →
  overlap_or_not_continuous scopes = false →
  Exists (nested w) steps →
  __init__ steps scopes w = (Raise (ValueError CannotAddStepwiseEstimator), w).
Proof.
  intros H1 H2 H3. unfold __init__. rewrite decide_False by (by intros ?).
  rewrite H2. unfold bind at 1. rewrite nested_loop. by rewrite decide_True.
Qed.

Lemma init_inv steps scopes (w : world) r w' :
  __init__ steps scopes w = (r, w') →
  match r with
  | Raise e =>
      w' = w ∧
      ((e = ValueError MustSpecifyIndicesForEachStep ∧ length steps ≠ length scopes)
       ∨ (e = ValueError CanNotOverlapAndMustBeContinuous
          ∧ length steps = length scopes ∧ overlap_or_not_continuous scopes = true)
       ∨ (e = ValueError CannotAddStepwiseEstimator
          ∧ length steps = length scopes ∧ overlap_or_not_continuous scopes = false
          ∧ Exists (nested w) steps)
       ∨ (e = ValueError NotEnoughValuesToUnpack ∧ steps = [] ∧ scopes = []))
  | Ok self =>
      length steps = length scopes
      ∧ overlap_or_not_continuous scopes = false
      ∧ ¬ Exists (nested w) steps
      ∧ steps ≠ []
      ∧ self = Stepwise steps.*1 steps.*2 scopes (sorted_set (chain scopes)) None None
      ∧ calls w' = calls w
      ∧ (∀ l, l ∈ drop 1 steps.*2 → objs w' l = set_fit_intercept false (objs w l))
      ∧ (∀ l, l ∉ drop 1 steps.*2 → objs w' l = objs w l)
  end.
Proof.
  destruct (decide (length steps = length scopes)) as [Hlen|Hlen].
  2:{ rewrite init_length_error by done. intros [= <- <-]. split; [done|]. by left. }
  destruct (overlap_or_not_continuous scopes) eqn:Hov.
  { rewrite init_scope_error by done. intros [= <- <-]. split; [done|].
    right. by left. }
  destruct (decide (Exists (nested w) steps)) as [Hn|Hn].
  { rewrite init_nested_error by done. intros [= <- <-]. split; [done|].
    right. right. by left. }
  unfold __init__. rewrite decide_False by (by intros ?). rewrite Hov.
  unfold bind at 1. rewrite nested_loop. rewrite decide_False by done.
  destruct steps as [|step steps].
  { simpl. intros [= <- <-]. split; [done|]. do 3 right.
    destruct scopes; [done|discriminate]. }
  unfold bind at 1. unfold ret at 1.
  set (ests := (step :: steps).*2).
  destruct (force_loop (drop 1 ests) w) as (o' & Hrun & Hin & Hout).
  case_decide as Hlt.
  - unfold bind at 1. rewrite Hrun. unfold ret. intros [= <- <-]. simpl.
    repeat split; auto.
  - unfold bind at 1. unfold ret. intros [= <- <-].
    assert (drop 1 ests = []) as Hnil.
    { subst ests. destruct steps; [done|]. simpl in Hlt. lia. }
    repeat split; auto.
    intros l Hl. rewrite Hnil in Hl. by apply elem_of_nil in Hl.
Qed.

Lemma init_Ok steps scopes (w : world) :
  length steps = length scopes →
  overlap_or_not_continuous scopes = false →
  ¬ Exists (nested w) steps →
  steps ≠ [] →
  ∃ w', __init__ steps scopes w
        = (Ok (Stepwise steps.*1 steps.*2 scopes (sorted_set (chain scopes)) None None), w').
Proof.
  intros Hlen Hov Hn Hne.
  destruct (__init__ steps scopes w) as [[self|e] w'] eqn:H; apply init_inv in H.
  - destruct H as (_ & _ & _ & _ & -> & _). by exists w'.
  - exfalso.
    destruct H as (_ & [[_ ?]|[(_ & _ & ?)|[(_ & _ & _ & ?)|(_ & ? & _)]]]);
      congruence.
Qed.

Lemma constructed_lengths steps scopes (w : world) self w' :
  __init__ steps scopes w = (Ok self, w') →
  length (_step_names self) = length (_estimators self)
  ∧ length (_estimators self) = length (_estimator_feature_indices self).
Proof.
  intros H. apply init_inv in H as (Hlen & _ & _ & _ & -> & _). simpl.
  by rewrite !length_fmap.
Qed.

(** C3. The scope check of the constructor passes exactly when the sorted
    concatenation of the scopes is the range [0, n) for some n, that is,
    when no index is repeated within or across scopes and the indices are
    exactly 0 .. n-1.  Scopes with a gap, a duplicate, or not starting at 0
    make construction fail with a [ValueError], the one about overlapping
    or non-continuous indices when the lengths match; a construction that
    succeeds has such scopes and stores the range as its full scope, and
    with such scopes a non-empty list of non-composite steps is accepted. *)
Theorem C3_scope_check_accepts_exactly_partitions steps scopes (w : world) :
  (overlap_or_not_continuous scopes = false ↔
     ∃ n : nat, sorted (chain scopes) = range n)
  ∧ ((∃ n : nat, sorted (chain scopes) = range n) ↔
       NoDup (chain scopes)
       ∧ ∀ i, i ∈ chain scopes ↔ (0 ≤ i < Z.of_nat (length (chain scopes)))%Z)
  ∧ (¬ (∃ n : nat, sorted (chain scopes) = range n) →
       ∃ why, __init__ steps scopes w = (Raise (ValueError why), w))
  ∧ (length steps = length scopes →
     ¬ (∃ n : nat, sorted (chain scopes) = range n) →
       __init__ steps scopes w
       = (Raise (ValueError CanNotOverlapAndMustBeContinuous), w))
  ∧ (∀ self w', __init__ steps scopes w = (Ok self, w') →
       ∃ n : nat, sorted (chain scopes) = range n ∧ _full_scope self = range n)
  ∧ (length steps = length scopes → steps ≠ [] → ¬ Exists (nested w) steps →
     (∃ n : nat, sorted (chain scopes) = range n) →
       ∃ self w', __init__ steps scopes w = (Ok self, w')).
Proof.
  assert (¬ (∃ n : nat, sorted (chain scopes) = range n) →
          overlap_or_not_continuous scopes = true) as Hbad.
  { rewrite <- scope_check_spec. by destruct (overlap_or_not_continuous scopes). }
  split; [apply scope_check_spec|]. split; [apply range_iff_partition|].
  split; [|split; [|split]].
  - intros Hn. destruct (decide (length steps = length scopes)).
    + eexists. apply init_scope_error; auto.
    + eexists. by apply init_length_error.
  - intros Hlen Hn. apply init_scope_error; auto.
  - intros self w' H. apply init_inv in H as (_ & Hov & _ & _ & -> & _).
    apply scope_check_spec in Hov as Hn. destruct Hn as [n Hn]. exists n.
    split; [done|]. simpl.
    unfold overlap_or_not_continuous in Hov. apply orb_false_iff in Hov as [H1 _].
    apply bool_decide_eq_false, dec_stable in H1. congruence.
  - intros Hlen Hne Hnest Hn. apply scope_check_spec in Hn.
    destruct (init_Ok steps scopes w) as [w' H]; eauto.
Qed.

(** C7 (as amended). The constructor validates in the order: length check,
    then scope-partition check, then nested-composite check.  So when the
    lengths match and the scopes violate the partition condition,
    construction fails with the scope error whether or not a step is itself
    a composite; the nested-composite error is raised only when the lengths
    match and the scopes pass. *)
Theorem C7_scope_check_precedes_nested_check steps scopes (w : world) :
  (length steps ≠ length scopes →
     __init__ steps scopes w = (Raise (ValueError MustSpecifyIndicesForEachStep), w))
  ∧ (length steps = length scopes → overlap_or_not_continuous scopes = true →
     __init__ steps scopes w
     = (Raise (ValueError CanNotOverlapAndMustBeContinuous), w))
  ∧ (length steps = length scopes → overlap_or_not_continuous scopes = false →
     Exists (nested w) steps →
     __init__ steps scopes w = (Raise (ValueError CannotAddStepwiseEstimator), w))
  ∧ (∀ w', __init__ steps scopes w
           = (Raise (ValueError CannotAddStepwiseEstimator), w') →
     length steps = length scopes ∧ overlap_or_not_continuous scopes = false
     ∧ Exists (nested w) steps).
Proof.
  split; [apply init_length_error|]. split; [apply init_scope_error|].
  split; [apply init_nested_error|].
  intros w' H. apply init_inv in H as (_ & H).
  destruct H as [[? _]|[(? & _)|[(_ & ? & ? & ?)|(? & _)]]]; by simplify_eq.
Qed.

End Construction.

(** ** Indexed reads and writes *)

Section Arrays.
Context `{Ext : Externals}.

Lemma normalize_index_in_range (n : nat) (i : Z) :
  (0 ≤ i < Z.of_nat n)%Z → normalize_index n i = Some (Z.to_nat i).
Proof. intros H. unfold normalize_index. by rewrite bool_decide_eq_true_2. Qed.

Lemma mapM_normalize_index (n : nat) (index : list Z) :
  Forall (λ i, 0 ≤ i < Z.of_nat n)%Z index →
  mapM (normalize_index n) index = Some (Z.to_nat <$> index).
Proof.
  intros H. apply mapM_Some. apply Forall2_fmap_r, Forall_Forall2_diag.
  eapply Forall_impl; [done|]. intros i Hi. by apply normalize_index_in_range.
Qed.

Lemma length_foldl_write (a : list num) (ivs : list (nat * num)) :
  length (foldl write a ivs) = length a.
Proof.
  revert a. induction ivs as [|iv ivs IH]; intros a; simpl; [done|].
  rewrite IH. unfold write. by rewrite length_insert.
Qed.

Lemma lookup_foldl_write_notin (a : list num) (ivs : list (nat * num)) (k : nat) :
  k ∉ ivs.*1 → foldl write a ivs !! k = a !! k.
Proof.
  revert a. induction ivs as [|[i v] ivs IH]; intros a; simpl; [done|].
  intros [Hne Hk]%not_elem_of_cons. rewrite IH by done.
  unfold write. simpl. by rewrite list_lookup_insert_ne.
Qed.

Lemma lookup_foldl_write (a : list num) (pos : list nat) (vs : list num) j k v :
  NoDup pos → Forall (λ p, p < length a) pos →
  pos !! j = Some k → vs !! j = Some v →
  foldl write a (zip pos vs) !! k = Some v.
Proof.
  revert a vs j. induction pos as [|p pos IH]; intros a vs j Hnd Hlt; [done|].
  apply NoDup_cons in Hnd as [Hp Hnd]. apply Forall_cons in Hlt as [Hpl Hlt].
  destruct vs as [|v0 vs]; [done|]. destruct j as [|j]; simpl.
  - intros [= ->] [= ->]. rewrite lookup_foldl_write_notin.
    + unfold write. simpl. by apply list_lookup_insert_eq.
    + intros Hin. apply Hp. apply list_elem_of_fmap in Hin as ([k' v'] & -> & Hin).
      apply elem_of_zip_l in Hin. done.
  - intros Hk Hv. eapply IH; eauto. unfold write. simpl.
    by rewrite length_insert.
Qed.

Lemma setitem_in_range (a : list num) (index : list Z) (values : list num) :
  Forall (λ i, 0 ≤ i < Z.of_nat (length a))%Z index →
  length values = length index →
  setitem a index values = Ok (foldl write a (zip (Z.to_nat <$> index) values)).
Proof.
  intros Hin Hlen. unfold setitem. rewrite mapM_normalize_index by done.
  unfold broadcast_to. rewrite length_fmap. by rewrite decide_True.
Qed.

Lemma getitems_Some (a : list num) (index : list Z) (c : list num) :
  Forall (λ i, 0 ≤ i < Z.of_nat (length a))%Z index →
  length index = length c →
  (∀ j z, index !! j = Some z → a !! Z.to_nat z = c !! j) →
  getitems a index = Some c.
Proof.
  intros Hin Hlen Hl. apply mapM_Some. apply Forall2_same_length_lookup.
  split; [done|]. intros j z v Hz Hv.
  rewrite normalize_index_in_range by (eapply Forall_lookup_1 in Hin; eauto).
  simpl. rewrite (Hl j z Hz). done.
Qed.

Lemma getitems_lookup (a : list num) (index : list Z) (c : list num) j z :
  getitems a index = Some c → index !! j = Some z →
  (0 ≤ z < Z.of_nat (length a))%Z →
  ∃ v, c !! j = Some v ∧ a !! Z.to_nat z = Some v.
Proof.
  intros Hg Hz Hr. apply mapM_Some in Hg.
  destruct (Forall2_lookup_l _ _ _ _ _ Hg Hz) as (v & Hv & Hzv).
  rewrite normalize_index_in_range in Hzv by done. eauto.
Qed.

End Arrays.

(** ** Fitting *)

(** With exact arithmetic, subtracting the predictions one after the other
    is subtracting their sum. *)
Section ExactArithmetic.
Context `{Ext : Externals}.
Variable arr_add : arr → arr → arr.
Variable arr_zero : arr.
Hypothesis sub_zero : ∀ a, arr_sub a arr_zero = Some a.
Hypothesis sub_sub :
  ∀ a b c ab, arr_sub a b = Some ab → arr_sub ab c = arr_sub a (arr_add b c).

Lemma residual_after_cons (y p : arr) (ps : list arr) :
  residual_after y (p :: ps) = arr_sub y p ≫= λ r, residual_after r ps.
Proof.
  unfold residual_after. simpl. destruct (arr_sub y p) as [r|]; [done|]. simpl.
  by induction ps.
Qed.

Lemma residual_after_snoc (y p : arr) (ps : list arr) :
  residual_after y (ps ++ [p]) = residual_after y ps ≫= λ r, arr_sub r p.
Proof. unfold residual_after. by rewrite foldl_app. Qed.

Lemma residual_after_sum (y : arr) (ps : list arr) (t : arr) :
  residual_after y ps = Some t →
  arr_sub y (foldr arr_add arr_zero ps) = Some t.
Proof.
  revert y. induction ps as [|p ps IH]; intros y.
  - intros [= <-]. apply sub_zero.
  - rewrite residual_after_cons. destruct (arr_sub y p) as [r|] eqn:Hr; [|done].
    simpl. intros Ht. rewrite <- (sub_sub _ _ _ _ Hr). by apply IH.
Qed.

End ExactArithmetic.

Section Fitting.
Context `{Ext : Externals} {Sub : SubEstimator}.

(** One round of the loop, case by case. *)
Lemma fit_step_inv X sw ex r l scope self w res self' w' :
  fit_step X sw ex r (l, scope) (self, w) = (res, (self', w')) →
  let Xs := take_cols X scope in
  let out := est_fit Xs r sw ex (objs w l) in
  let evf := Call_fit l Xs r sw ex out in
  match out with
  | inl msg =>
      res = Raise (Foreign msg) ∧ self' = self
      ∧ w' = World (objs w) (calls w ++ [evf])
  | inr e1 =>
      let o1 := <[l:=e1]> (objs w) in
      match est_coef_ e1, coef_ self with
      | Some c, Some a =>
          match setitem a scope c with
          | Ok a' =>
              let pout := est_predict Xs e1 in
              self' = with_coef_ a' self
              ∧ w' = World o1 (calls w ++ [evf; Call_predict l Xs pout])
              ∧ res = match pout with
                      | inl msg => Raise (Foreign msg)
                      | inr p =>
                          match arr_sub r p with
                          | Some r' => Ok r'
                          | None => Raise (ValueError OperandsCouldNotBeBroadcast)
                          end
                      end
          | Raise e =>
              res = Raise e ∧ self' = self ∧ w' = World o1 (calls w ++ [evf])
              ∧ (e = IndexError ∨ e = ValueError CouldNotBroadcast)
          end
      | _, _ =>
          res = Raise (AttributeError "coef_") ∧ self' = self
          ∧ w' = World o1 (calls w ++ [evf])
      end
  end.
Proof.
  unfold fit_step, call_fit, call_predict, in_world, bind, deref, log, assign,
    modify, get_self, set_coef_, getattr, lift_result, subtract, ret, raise.
  simpl.
  destruct (est_fit _ _ _ _ _) as [msg|e1]; simpl.
  { by intros [= <- <- <-]. }
  rewrite fn_lookup_insert.
  destruct (est_coef_ e1) as [c|]; simpl; [|by intros [= <- <- <-]].
  destruct (coef_ self) as [a|]; simpl; [|by intros [= <- <- <-]].
  destruct (setitem a scope c) as [a'|e] eqn:Hset; simpl.
  - rewrite fn_lookup_insert, <- app_assoc. simpl.
    destruct (est_predict _ e1) as [msg|p]; simpl; [by intros [= <- <- <-]|].
    destruct (arr_sub r p); by intros [= <- <- <-].
  - intros [= <- <- <-]. repeat split; auto.
    unfold setitem in Hset. repeat case_match; naive_solver.
Qed.

(** What does not change in a round. *)
Lemma fit_step_frame X sw ex r step self w res self' w' :
  fit_step X sw ex r step (self, w) = (res, (self', w')) →
  _step_names self' = _step_names self
  ∧ _estimators self' = _estimators self
  ∧ _estimator_feature_indices self' = _estimator_feature_indices self
  ∧ _full_scope self' = _full_scope self
  ∧ intercept_ self' = intercept_ self
  ∧ (is_Some (coef_ self) → is_Some (coef_ self'))
  ∧ res ≠ Raise (ValueError DoesNotCoverAllFeatures).
Proof.
  destruct step as [l scope]. intros H. apply fit_step_inv in H. simpl in H.
  destruct (est_fit _ _ _ _ _) as [msg|e1]; [by destruct H as (-> & -> & _)|].
  destruct (est_coef_ e1) as [c|]; [|by destruct H as (-> & -> & _)].
  destruct (coef_ self) as [a|] eqn:Ha; [|by destruct H as (-> & -> & _)].
  destruct (setitem a scope c) as [a'|e].
  - cbv zeta in H. destruct H as (-> & _ & ->). simpl. repeat split; eauto.
    by repeat case_match.
  - destruct H as (-> & -> & _ & [->| ->]); repeat split; eauto; done.
Qed.

Lemma fit_loop_frame X sw ex steps r self w res self' w' :
  for_acc steps r (fit_step X sw ex) (self, w) = (res, (self', w')) →
  _step_names self' = _step_names self
  ∧ _estimators self' = _estimators self
  ∧ _estimator_feature_indices self' = _estimator_feature_indices self
  ∧ _full_scope self' = _full_scope self
  ∧ intercept_ self' = intercept_ self
  ∧ (is_Some (coef_ self) → is_Some (coef_ self'))
  ∧ res ≠ Raise (ValueError DoesNotCoverAllFeatures).
Proof.
  revert r self w. induction steps as [|step steps IH]; intros r self w; cbn [for_acc].
  { intros [= <- <- <-]. repeat split; auto. }
  intros H. apply bind_inv in H as [(e & H & ->)|(r1 & [self1 w1] & H & Hrest)].
  - by apply fit_step_frame in H.
  - apply fit_step_frame in H. apply IH in Hrest.
    destruct_and?. repeat split; try congruence; auto.
Qed.

(** The part of [fit] after the loop. *)
Lemma fit_body_inv X y sw ex self w res self' w' :
  fit_body X y sw ex (self, w) = (res, (self', w')) →
  ∃ lres self1,
    for_acc (zip (_estimators self) (_estimator_feature_indices self)) y
      (fit_step X sw ex) (with_coef_ (replicate (n_features X) nan) self, w)
    = (lres, (self1, w'))
    ∧ match lres with
      | Raise e => res = Raise e ∧ self' = self1
      | Ok _ =>
          match _estimators self !! 0 with
          | None => res = Raise IndexError ∧ self' = self1
          | Some first =>
              if fit_intercept (objs w' first)
              then match est_intercept_ (objs w' first) with
                   | Some b => self' = with_intercept_ b self1 ∧ res = Ok self'
                   | None => res = Raise (AttributeError "intercept_") ∧ self' = self1
                   end
              else self' = with_intercept_ zero self1 ∧ res = Ok self'
          end
      end.
Proof.
  unfold fit_body. unfold bind at 1, get_self at 1. cbn [fst snd].
  unfold bind at 1, set_coef_ at 1, modify at 1. cbn [fst snd].
  intros H.
  apply bind_inv in H as [(e & H & ->)|(r1 & [self1 w1] & H & Hrest)].
  - eexists _, _. split; [apply H|]. done.
  - exists (Ok r1), self1.
    unfold getitem in Hrest. destruct (_estimators self !! 0) as [first|].
    2:{ unfold bind, raise in Hrest. simplify_eq. split; [done|]. by simpl. }
    unfold bind at 1, ret at 1 in Hrest.
    unfold bind at 1, in_world, deref in Hrest. cbn [fst snd] in Hrest.
    destruct (fit_intercept (objs w1 first)) eqn:Hfi.
    + unfold getattr in Hrest. destruct (est_intercept_ (objs w1 first)) as [b|] eqn:Hb.
      * unfold bind, ret, set_intercept_, modify, get_self in Hrest.
        cbn [fst snd] in Hrest. simplify_eq. split; [done|].
        by rewrite Hfi, Hb.
      * unfold bind, raise in Hrest. simplify_eq. split; [done|].
        by rewrite Hfi, Hb.
    + unfold bind, ret, set_intercept_, modify, get_self in Hrest.
      cbn [fst snd] in Hrest. simplify_eq. split; [done|]. by rewrite Hfi.
Qed.

Lemma fit_body_not_coverage_error X y sw ex s :
  (fit_body X y sw ex s).1 ≠ Raise (ValueError DoesNotCoverAllFeatures).
Proof.
  destruct s as [self w].
  destruct (fit_body X y sw ex (self, w)) as [res [self' w']] eqn:H.
  apply fit_body_inv in H as (lres & self1 & Hloop & H).
  apply fit_loop_frame in Hloop as (_ & _ & _ & _ & _ & _ & Hne). simpl.
  destruct lres as [r1|e].
  2:{ destruct H as [-> _]. intros [= ->]. by apply Hne. }
  repeat case_match; destruct_and?; by simplify_eq.
Qed.

Lemma fit_unfold X y sw ex self w :
  fit X y sw ex (self, w)
  = if decide (_full_scope self ≠ range (n_features X))
    then (Raise (ValueError DoesNotCoverAllFeatures), (self, w))
    else fit_body X y sw ex (self, w).
Proof. unfold fit, bind, get_self. cbn [fst snd]. by case_decide. Qed.

(** The composite's [fit] assigns no [fit_intercept]: whatever a
    sub-estimator's own [fit] leaves in it is what is there afterwards. *)
Lemma fit_loop_fit_intercept X sw ex steps r self w res self' w' :
  (∀ Xs t sw' ex' e e',
     est_fit Xs t sw' ex' e = inr e' → fit_intercept e' = fit_intercept e) →
  for_acc steps r (fit_step X sw ex) (self, w) = (res, (self', w')) →
  ∀ l, fit_intercept (objs w' l) = fit_intercept (objs w l).
Proof.
  intros Hfit. revert r self w.
  assert (∀ r step self w res self' w',
    fit_step X sw ex r step (self, w) = (res, (self', w')) →
    ∀ l, fit_intercept (objs w' l) = fit_intercept (objs w l)) as Hstep.
  { intros r [l0 scope] self w res1 self1 w1 H l.
    apply fit_step_inv in H. cbv zeta in H.
    destruct (est_fit _ _ _ _ _) as [msg|e1] eqn:He1.
    { by destruct H as (_ & _ & ->). }
    assert (fit_intercept ((<[l0:=e1]> (objs w)) l) = fit_intercept (objs w l)) as Hl.
    { destruct (decide (l = l0)) as [->|Hne].
      - rewrite fn_lookup_insert. eauto.
      - by rewrite fn_lookup_insert_ne. }
    repeat case_match; destruct_and?; by simplify_eq. }
  induction steps as [|step steps IH]; intros r self w; cbn [for_acc].
  { by intros [= <- <- <-]. }
  intros H l. apply bind_inv in H as [(e & H & ->)|(r1 & [self1 w1] & H & Hrest)].
  - eapply Hstep, H.
  - rewrite (IH _ _ _ Hrest l). eapply Hstep, H.
Qed.

Lemma fit_fit_intercept X y sw ex self w res self' w' :
  (∀ Xs t sw' ex' e e',
     est_fit Xs t sw' ex' e = inr e' → fit_intercept e' = fit_intercept e) →
  fit X y sw ex (self, w) = (res, (self', w')) →
  ∀ l, fit_intercept (objs w' l) = fit_intercept (objs w l).
Proof.
  intros Hfit. rewrite fit_unfold. case_decide; [by intros [= <- <- <-]|].
  intros Hb. apply fit_body_inv in Hb as (lres & self1 & Hloop & _).
  eapply fit_loop_fit_intercept; eauto.
Qed.

(** C6. [fit] re-validates the partition against the column count of the
    [X] it is given: when the composite's full scope is not
    [0, X.shape[1]) it raises the coverage [ValueError] (and does nothing
    else), when it is that range [fit] goes on with the fitting proper, and
    the coverage error is raised in no other case. *)
Theorem C6_fit_revalidates_coverage X y sw ex self (w : world) :
  (_full_scope self ≠ range (n_features X) →
     fit X y sw ex (self, w)
     = (Raise (ValueError DoesNotCoverAllFeatures), (self, w)))
  ∧ (_full_scope self = range (n_features X) →
     fit X y sw ex (self, w) = fit_body X y sw ex (self, w))
  ∧ ((fit X y sw ex (self, w)).1 = Raise (ValueError DoesNotCoverAllFeatures)
     ↔ _full_scope self ≠ range (n_features X)).
Proof.
  rewrite fit_unfold. case_decide as Hc.
  - split; [done|]. split; [done|]. done.
  - split; [done|]. split; [done|]. split; [|done].
    intros H. by apply fit_body_not_coverage_error in H.
Qed.

(** C10. When [fit] raises the coverage error, nothing has happened: the
    composite keeps the [coef_] and [intercept_] it had (set by an earlier
    fit, or unset), no sub-estimator was called and none was changed. *)
Theorem C10_coverage_error_leaves_state_untouched X y sw ex self (w : world) self' w' :
  fit X y sw ex (self, w)
  = (Raise (ValueError DoesNotCoverAllFeatures), (self', w')) →
  coef_ self' = coef_ self ∧ intercept_ self' = intercept_ self
  ∧ self' = self ∧ calls w' = calls w ∧ w' = w.
Proof.
  rewrite fit_unfold. case_decide as Hc.
  - by intros [= <- <-].
  - intros H. by apply (f_equal fst), fit_body_not_coverage_error in H.
Qed.

(** C5. A [fit] that returns has set the composite's [intercept_] after the
    loop to the first step's [intercept_] if that step's [fit_intercept] is
    true and to 0.0 otherwise, and it returns the composite itself. *)
Theorem C5_intercept_is_first_steps X y sw ex self (w : world) r self' w' :
  fit X y sw ex (self, w) = (Ok r, (self', w')) →
  r = self'
  ∧ ∃ first, _estimators self' !! 0 = Some first
    ∧ is_Some (intercept_ self')
    ∧ intercept_ self' = if fit_intercept (objs w' first)
                         then est_intercept_ (objs w' first)
                         else Some zero.
Proof.
  rewrite fit_unfold. case_decide as Hc; [done|].
  intros H. apply fit_body_inv in H as (lres & self1 & Hloop & H).
  apply fit_loop_frame in Hloop as (_ & Hests & _).
  destruct lres as [r1|e]; [|by destruct H].
  destruct (_estimators self !! 0) as [first|] eqn:Hfirst; [|by destruct H].
  destruct (fit_intercept (objs w' first)) eqn:Hfi.
  - destruct (est_intercept_ (objs w' first)) as [b|] eqn:Hb; [|by destruct H].
    destruct H as [-> [= ->]]. split; [done|]. exists first. simpl.
    rewrite Hests. simpl. rewrite Hfirst, Hfi, Hb. eauto.
  - destruct H as [-> [= ->]]. split; [done|]. exists first. simpl.
    rewrite Hests. simpl. rewrite Hfirst, Hfi. eauto.
Qed.

(** The calls of the loop, in order, started on the residual [r]. *)
Lemma fit_loop_trace X sw ex steps r self w res self' w' :
  for_acc steps r (fit_step X sw ex) (self, w) = (res, (self', w')) →
  ∃ evs, calls w' = calls w ++ evs
    ∧ evs `prefix_of` running_residual_calls X sw ex steps r (objs w)
    ∧ ((∃ r', res = Ok r') ∨ (∃ msg, res = Raise (Foreign msg))
       ∨ res = Raise (ValueError OperandsCouldNotBeBroadcast) →
       evs = running_residual_calls X sw ex steps r (objs w))
    ∧ (∀ i c, fit_calls evs !! i = Some c →
         ∃ l scope t, steps !! i = Some (l, scope)
           ∧ residual_after r (take i (predictions evs)) = Some t
           ∧ c = (l, take_cols X scope, t, sw, ex))
    ∧ (∀ i c, predict_calls evs !! i = Some c →
         ∃ l scope, steps !! i = Some (l, scope) ∧ c = (l, take_cols X scope))
    ∧ (∀ r', res = Ok r' →
         length (fit_calls evs) = length steps
         ∧ length (predictions evs) = length steps
         ∧ residual_after r (predictions evs) = Some r').
Proof.
  revert r self w. induction steps as [|[l scope] steps IH]; intros r self w;
    cbn [for_acc running_residual_calls].
  { intros [= <- <- <-]. exists []. rewrite app_nil_r.
    split; [done|]. split; [done|]. split; [done|].
    split; [by intros [|?] ??|]. split; [by intros [|?] ??|].
    by intros r' [= <-]. }
  unfold bind at 1.
  destruct (fit_step X sw ex r (l, scope) (self, w)) as [res1 [self1 w1]] eqn:Hstep.
  apply fit_step_inv in Hstep. cbv zeta in *.
  set (Xs := take_cols X scope) in *.
  (* the log of a round that ends the loop *)
  assert (∀ evs : list call,
    fit_calls evs = [(l, Xs, r, sw, ex)] →
    (predict_calls evs = [] ∨ predict_calls evs = [(l, Xs)]) →
    (∀ i c, fit_calls evs !! i = Some c →
       ∃ l' scope' t, ((l, scope) :: steps) !! i = Some (l', scope')
         ∧ residual_after r (take i (predictions evs)) = Some t
         ∧ c = (l', take_cols X scope', t, sw, ex))
    ∧ (∀ i c, predict_calls evs !! i = Some c →
         ∃ l' scope', ((l, scope) :: steps) !! i = Some (l', scope')
           ∧ c = (l', take_cols X scope'))) as Hlast.
  { intros evs -> Hpc. split.
    - intros [|i] c; [|done]. intros [= <-]. by exists l, scope, r.
    - destruct Hpc as [-> | ->]; [done|].
      intros [|i] c; [|done]. intros [= <-]. by exists l, scope. }
  destruct (est_fit Xs r sw ex (objs w l)) as [msg|e1] eqn:Hfit.
  { destruct Hstep as (-> & -> & ->). intros [= <- <- <-].
    eexists [_]. split; [done|]. split; [done|]. split; [done|].
    split; [|split; [|done]]; by apply Hlast; auto. }
  destruct (est_coef_ e1) as [c|].
  2:{ destruct Hstep as (-> & -> & ->). intros [= <- <- <-].
      eexists [_]. split; [done|]. split; [by eexists|].
      split; [by intros [[? ?]|[[? ?]|?]]|].
      split; [|split; [|done]]; by apply Hlast; auto. }
  destruct (coef_ self) as [a|].
  2:{ destruct Hstep as (-> & -> & ->). intros [= <- <- <-].
      eexists [_]. split; [done|]. split; [by eexists|].
      split; [by intros [[? ?]|[[? ?]|?]]|].
      split; [|split; [|done]]; by apply Hlast; auto. }
  destruct (setitem a scope c) as [a'|e'].
  2:{ destruct Hstep as (-> & -> & -> & Hor). intros [= <- <- <-].
      eexists [_]. split; [done|]. split; [by eexists|].
      split; [intros [[? ?]|[[? ?]|?]]; destruct Hor; congruence|].
      split; [|split; [|done]]; by apply Hlast; auto. }
  destruct Hstep as (-> & -> & ->).
  destruct (est_predict Xs e1) as [msg|p] eqn:Hpred.
  { intros [= <- <- <-]. eexists [_; _]. split; [done|]. split; [done|].
    split; [done|]. split; [|split; [|done]]; by apply Hlast; auto. }
  destruct (arr_sub r p) as [r1|] eqn:Hsub.
  2:{ intros [= <- <- <-]. eexists [_; _]. split; [done|]. split; [done|].
      split; [done|]. split; [|split; [|done]]; by apply Hlast; auto. }
  intros Hrest.
  apply IH in Hrest as (evs & Hcalls & Hpre & Heq & Hfits & Hpreds & Hok).
  simpl in Hcalls, Hpre, Heq.
  exists (Call_fit l Xs r sw ex (inr e1) :: Call_predict l Xs (inr p) :: evs).
  split; [by rewrite Hcalls, <- app_assoc|].
  split; [by do 2 apply prefix_cons|].
  split; [intros Hres; by rewrite <- Heq|].
  assert (fit_calls (Call_fit l Xs r sw ex (inr e1)
                       :: Call_predict l Xs (inr p) :: evs)
          = (l, Xs, r, sw, ex) :: fit_calls evs) as -> by done.
  assert (predictions (Call_fit l Xs r sw ex (inr e1)
                         :: Call_predict l Xs (inr p) :: evs)
          = p :: predictions evs) as -> by done.
  assert (predict_calls (Call_fit l Xs r sw ex (inr e1)
                           :: Call_predict l Xs (inr p) :: evs)
          = (l, Xs) :: predict_calls evs) as -> by done.
  split; [|split].
  - intros [|i] c'; simpl.
    + intros [= <-]. by exists l, scope, r.
    + intros Hc. apply Hfits in Hc as (l' & scope' & t & ? & Ht & ->).
      exists l', scope', t. split; [done|]. split; [|done].
      by rewrite residual_after_cons, Hsub.
  - intros [|i] c'; simpl.
    + intros [= <-]. by exists l, scope.
    + intros Hc. by apply Hpreds in Hc.
  - intros r' ->. destruct (Hok r' eq_refl) as (Hlf & Hlp & Hr). simpl.
    rewrite Hlf, Hlp. split; [done|]. split; [done|].
    by rewrite residual_after_cons, Hsub.
Qed.

(** C1 (as amended). During [fit] the sub-estimators are fit in declared
    step order against a running residual that starts as [y].  The log of
    the call is the calls of fitting against a running residual, or a
    beginning of them: for step after step, the step's [fit] on the
    columns of its own scope, with the sample weights and the extra
    arguments forwarded, and then its [predict] on the same columns in the
    state that [fit] left; it is all of them when [fit] returns (every
    step has then been fit and has predicted) or raises what a
    sub-estimator raised.  The target of the fit of step i is [y] with the
    predictions returned by the steps before it subtracted one after the
    other, in step order; that is [y] minus the sum of those predictions
    when the array arithmetic is exact.  In particular the first step is
    fit against [y] itself. *)
Theorem C1_steps_fit_in_order_against_running_residual X y sw ex self (w : world)
    res self' w' :
  fit X y sw ex (self, w) = (res, (self', w')) →
  let steps := zip (_estimators self) (_estimator_feature_indices self) in
  ∃ evs, calls w' = calls w ++ evs
    ∧ evs `prefix_of` running_residual_calls X sw ex steps y (objs w)
    ∧ ((∃ r, res = Ok r) ∨ (∃ msg, res = Raise (Foreign msg)) →
       evs = running_residual_calls X sw ex steps y (objs w))
    ∧ (∀ i c, fit_calls evs !! i = Some c →
         ∃ l scope t, steps !! i = Some (l, scope)
           ∧ residual_after y (take i (predictions evs)) = Some t
           ∧ c = (l, take_cols X scope, t, sw, ex))
    ∧ (∀ i c, predict_calls evs !! i = Some c →
         ∃ l scope, steps !! i = Some (l, scope) ∧ c = (l, take_cols X scope))
    ∧ (∀ c, fit_calls evs !! 0 = Some c → c.1.1.2 = y)
    ∧ (∀ (arr_add : arr → arr → arr) (arr_zero : arr),
         (∀ a, arr_sub a arr_zero = Some a) →
         (∀ a b c ab, arr_sub a b = Some ab →
            arr_sub ab c = arr_sub a (arr_add b c)) →
         ∀ i c, fit_calls evs !! i = Some c →
           arr_sub y (foldr arr_add arr_zero (take i (predictions evs)))
           = Some c.1.1.2)
    ∧ (∀ r, res = Ok r →
         length (fit_calls evs) = length steps
         ∧ length (predictions evs) = length steps).
Proof.
  rewrite fit_unfold. case_decide as Hc.
  { intros [= <- <- <-] steps. exists []. rewrite app_nil_r.
    split; [done|]. split; [apply prefix_nil|].
    split; [by intros [[? ?]|[? ?]]|].
    split; [by intros [|?] ??|]. split; [by intros [|?] ??|].
    split; [by intros ??|]. split; [by intros ???? [|?] ??|]. by intros r ?. }
  intros H steps. apply fit_body_inv in H as (lres & self1 & Hloop & H).
  apply fit_loop_trace in Hloop as (evs & Hcalls & Hpre & Heq & Hfits & Hpreds & Hok).
  exists evs. split; [done|]. split; [done|].
  split; [|split; [done|]; split; [done|]; split; [|split]].
  - intros Hres. apply Heq. destruct lres as [r1|e]; [by eauto|].
    destruct H as [-> _]. destruct Hres as [[? ?]|[msg [= ->]]]; [done|eauto].
  - intros c Hc0. apply Hfits in Hc0 as (l & scope & t & _ & [= <-] & ->). done.
  - intros arr_add arr_zero Hzero Hsub i c Hi.
    apply Hfits in Hi as (l & scope & t & _ & Ht & ->). simpl.
    by apply residual_after_sum.
  - intros r ->. destruct lres as [r1|e]; [|by destruct H].
    by destruct (Hok r1 eq_refl) as (? & ? & _).
Qed.

(** What the loop leaves in [coef_], when the scopes still to come are
    disjoint, duplicate-free and within the array. *)
Lemma fit_loop_coef X sw ex steps r self w r' self' w' a0 :
  (∀ Xs t sw' ex' e e', est_fit Xs t sw' ex' e = inr e' →
     ∃ c, est_coef_ e' = Some c ∧ length c = n_features Xs) →
  (∀ scope, n_features (take_cols X scope) = length scope) →
  coef_ self = Some a0 →
  Forall (λ i, 0 ≤ i < Z.of_nat (length a0))%Z (chain steps.*2) →
  NoDup (chain steps.*2) →
  for_acc steps r (fit_step X sw ex) (self, w) = (Ok r', (self', w')) →
  ∃ evs a', calls w' = calls w ++ evs
    ∧ coef_ self' = Some a' ∧ length a' = length a0
    ∧ (∀ k, Z.of_nat k ∉ chain steps.*2 → a' !! k = a0 !! k)
    ∧ (∀ i l scope, steps !! i = Some (l, scope) →
         ∃ e c, fitted evs !! i = Some (inr e) ∧ est_coef_ e = Some c
           ∧ getitems a' scope = Some c
           ∧ (l ∉ (drop (S i) steps).*1 → objs w' l = e))
    ∧ (∀ l, l ∉ steps.*1 → objs w' l = objs w l).
Proof.
  intros Hshape Hcols. revert r self w a0.
  induction steps as [|[l scope] steps IH]; intros r self w a0 Ha0 Hin Hnd;
    cbn [for_acc].
  { intros [= <- <- <-]. exists [], a0. rewrite app_nil_r.
    repeat split; auto. by intros [|?] ???. }
  intros H. apply bind_inv in H as [(e & H & ?)|(r1 & [self1 w1] & H & Hrest)];
    [done|].
  apply fit_step_inv in H. cbv zeta in H.
  set (Xs := take_cols X scope) in *.
  destruct (est_fit Xs r sw ex (objs w l)) as [msg|e1] eqn:He1; [by destruct H|].
  destruct (Hshape _ _ _ _ _ _ He1) as (c & Hc & Hlenc).
  subst Xs. rewrite Hcols in Hlenc. rewrite Hc, Ha0 in H.
  change (chain ((l, scope) :: steps).*2) with (scope ++ chain steps.*2) in *.
  apply Forall_app in Hin as [Hin_scope Hin_rest].
  apply NoDup_app in Hnd as (Hnd_scope & Hdisj & Hnd_rest).
  rewrite setitem_in_range in H by done.
  destruct H as (-> & -> & H).
  destruct (est_predict _ e1) as [msg|p]; [done|].
  destruct (arr_sub r p) as [r1'|]; [|done]. injection H as ->.
  set (a1 := foldl write a0 (zip (Z.to_nat <$> scope) c)) in *.
  assert (length a1 = length a0) as Hlen1 by apply length_foldl_write.
  apply (IH _ _ _ a1) in Hrest as (evs & a' & Hcalls & Ha' & Hlen' & Hkeep & Hsteps & Hframe);
    [|done|by rewrite Hlen1|done].
  simpl in Hcalls, Hframe.
  eexists (_ :: _ :: evs), a'.
  split; [by rewrite Hcalls, <- app_assoc|].
  split; [done|]. split; [congruence|]. split; [|split].
  - intros k [Hk1 Hk2]%not_elem_of_app. rewrite Hkeep by done.
    subst a1. apply lookup_foldl_write_notin.
    intros Hk. apply Hk1. apply list_elem_of_fmap in Hk as ([k' v'] & -> & Hk).
    apply elem_of_zip_l, list_elem_of_fmap in Hk as (z & -> & Hz). simpl.
    eapply Forall_forall in Hin_scope; [|done]. by rewrite Z2Nat.id by lia.
  - intros [|i] l' scope' Hi; simpl in Hi.
    + injection Hi as <- <-. exists e1, c. split; [done|]. split; [done|]. split.
      * apply getitems_Some; [by rewrite Hlen', Hlen1|done|].
        intros j z Hz. rewrite Hkeep.
        2:{ rewrite Z2Nat.id. { apply Hdisj. eapply list_elem_of_lookup_2, Hz. }
            eapply Forall_lookup_1 in Hin_scope; [|done]. lia. }
        destruct (c !! j) as [v|] eqn:Hv.
        -- subst a1. eapply lookup_foldl_write; eauto.
           ++ apply NoDup_fmap_2_strong; [|done]. intros z1 z2 H1 H2 Heq.
              eapply Forall_forall in H1; [|apply Hin_scope].
              eapply Forall_forall in H2; [|apply Hin_scope]. simpl in *. lia.
           ++ apply Forall_fmap. eapply Forall_impl; [apply Hin_scope|].
              simpl. intros; lia.
           ++ by rewrite list_lookup_fmap, Hz.
        -- apply lookup_ge_None in Hv. apply lookup_lt_Some in Hz. lia.
      * intros Hl. simpl in Hl. rewrite Hframe by done. simpl.
        apply fn_lookup_insert.
    + apply Hsteps in Hi as (e & c' & ? & ? & ? & ?). by exists e, c'.
  - intros l' [Hne Hl']%not_elem_of_cons. rewrite Hframe by done. simpl.
    by rewrite fn_lookup_insert_ne.
Qed.

End Fitting.

(** ** The composite after construction *)

Section Constructed.
Context `{Ext : Externals} {Sub : SubEstimator}.

Lemma elem_of_chain (x : Z) (scopes : list (list Z)) :
  x ∈ chain scopes ↔ ∃ i scope j, scopes !! i = Some scope ∧ scope !! j = Some x.
Proof.
  unfold chain. induction scopes as [|s scopes IH]; simpl.
  { split; [by intros ?%elem_of_nil|]. by intros (i & ? & ? & ? & _). }
  rewrite elem_of_app, IH. split.
  - intros [(j & Hj)%list_elem_of_lookup_1|(i & scope & j & Hi & Hj)].
    + by exists 0, s, j.
    + by exists (S i), scope, j.
  - intros ([|i] & scope & j & Hi & Hj); simplify_eq/=.
    + left. by eapply list_elem_of_lookup_2.
    + right. eauto.
Qed.

(** A constructed composite whose full scope is [0, n): its scopes
    together are a rearrangement of that range. *)
Lemma constructed_partition steps scopes (w0 : world) self w1 (n : nat) :
  __init__ steps scopes w0 = (Ok self, w1) →
  _full_scope self = range n →
  chain scopes ≡ₚ range n.
Proof.
  intros H Hn. apply init_inv in H as (_ & Hov & _ & _ & -> & _). simpl in Hn.
  unfold overlap_or_not_continuous in Hov. apply orb_false_iff in Hov as [H1 _].
  apply bool_decide_eq_false, dec_stable in H1.
  rewrite <- Hn, H1. symmetry. apply sorted_Permutation.
Qed.

(** C2 (as amended). Take a composite built by the constructor and
    sub-estimators whose fitted [coef_] has one entry per column they were
    fit on.  After a [fit] on [X] that returns, [coef_] has [n_features]
    entries; for every step, [coef_] read at the step's scope is the [coef_]
    its sub-estimator held when its fit in this call returned, and that is
    the sub-estimator's [coef_] after the call when the same object is not
    also the sub-estimator of a later step; the positions written, scope
    after scope, are a rearrangement of 0 .. n_features-1, so each position
    is written exactly once and every entry of [coef_] is a coefficient
    fitted in this call, none is left from the initialization with NaN. *)
Theorem C2_coef_assembled_from_fitted_steps steps scopes (w0 : world) self w1
    X y sw ex self0 w r self' w' :
  (∀ Xs t sw' ex' e e', est_fit Xs t sw' ex' e = inr e' →
     ∃ c, est_coef_ e' = Some c ∧ length c = n_features Xs) →
  (∀ scope, n_features (take_cols X scope) = length scope) →
  __init__ steps scopes w0 = (Ok self, w1) →
  config self0 = config self →
  fit X y sw ex (self0, w) = (Ok r, (self', w')) →
  ∃ evs a, calls w' = calls w ++ evs
    ∧ coef_ self' = Some a ∧ length a = n_features X
    ∧ chain scopes ≡ₚ range (n_features X)
    ∧ (∀ i l scope, _estimators self !! i = Some l → scopes !! i = Some scope →
         ∃ e c, fitted evs !! i = Some (inr e) ∧ est_coef_ e = Some c
           ∧ getitems a scope = Some c
           ∧ (l ∉ drop (S i) (_estimators self) →
              objs w' l = e ∧ est_coef_ (objs w' l) = getitems a scope))
    ∧ (∀ v, v ∈ a →
         ∃ i e c, fitted evs !! i = Some (inr e) ∧ est_coef_ e = Some c ∧ v ∈ c).
Proof.
  intros Hshape Hcols Hinit Hcfg Hfit.
  rewrite fit_unfold in Hfit. case_decide as Hfull; [done|].
  injection Hcfg as Hnames Hests Hscopes Hfs.
  pose proof (constructed_partition _ _ _ _ _ (n_features X) Hinit) as Hperm.
  rewrite <- Hfs in Hperm. specialize (Hperm Hfull).
  apply init_inv in Hinit as (Hlen & _ & _ & _ & -> & _). simpl in *.
  apply fit_body_inv in Hfit as (lres & self1 & Hloop & Hpost).
  rewrite Hests, Hscopes in Hloop.
  destruct lres as [r1|e]; [|by destruct Hpost].
  assert (coef_ self' = coef_ self1) as Hcoef.
  { rewrite Hests in Hpost. repeat case_match; destruct_and?; by simplify_eq. }
  assert ((zip steps.*2 scopes).*2 = scopes) as Hsnd.
  { apply snd_zip. rewrite length_fmap. lia. }
  assert ((zip steps.*2 scopes).*1 = steps.*2) as Hfst.
  { apply fst_zip. rewrite length_fmap. lia. }
  apply (fit_loop_coef _ _ _ _ _ _ _ _ _ _ (replicate (n_features X) nan))
    in Hloop as (evs & a & Hcalls & Ha & Hlena & _ & Hsteps & _);
    [|done|done|done|..].
  2:{ rewrite Hsnd, Hperm, length_replicate. apply Forall_forall.
      intros i Hi. by apply elem_of_range in Hi. }
  2:{ rewrite Hsnd, Hperm. apply NoDup_seqZ. }
  rewrite length_replicate in Hlena.
  assert (∀ i l scope, steps.*2 !! i = Some l → scopes !! i = Some scope →
            ∃ e c, fitted evs !! i = Some (inr e) ∧ est_coef_ e = Some c
              ∧ getitems a scope = Some c
              ∧ (l ∉ drop (S i) steps.*2 → objs w' l = e)) as Hall.
  { intros i l scope Hl Hs.
    destruct (Hsteps i l scope) as (e & c & He & Hc & Hg & Hobj).
    { by apply lookup_zip_Some. }
    exists e, c. repeat split; auto.
    intros Hnot. apply Hobj. by rewrite fmap_drop, Hfst. }
  exists evs, a. split; [done|]. split; [congruence|]. split; [done|].
  split; [done|]. split.
  - intros i l scope Hl Hs.
    destruct (Hall i l scope Hl Hs) as (e & c & ? & ? & ? & Hobj).
    exists e, c. split; [done|]. split; [done|]. split; [done|].
    intros Hnot. rewrite (Hobj Hnot). split; [done|congruence].
  - intros v (k & Hk)%list_elem_of_lookup_1.
    assert (Z.of_nat k ∈ chain scopes) as Hin.
    { rewrite Hperm. apply elem_of_range. apply lookup_lt_Some in Hk. lia. }
    apply elem_of_chain in Hin as (i & scope & j & Hs & Hj).
    destruct (lookup_lt_is_Some_2 steps.*2 i) as [l Hl].
    { rewrite length_fmap, Hlen. by eapply lookup_lt_Some. }
    destruct (Hall i l scope Hl Hs) as (e & c & He & Hc & Hg & _).
    exists i, e, c. split; [done|]. split; [done|].
    destruct (getitems_lookup _ _ _ _ _ Hg Hj) as (v' & Hv' & Hav').
    { apply lookup_lt_Some in Hk. lia. }
    rewrite Nat2Z.id in Hav'. simplify_eq. by eapply list_elem_of_lookup_2.
Qed.

(** C4 (as amended). After construction every step except the first has
    [fit_intercept] false, whatever it was before; the first step's
    sub-estimator is left as it was provided the same object is not also
    the sub-estimator of a later step; no other object is touched.  The
    forcing is done by the constructor only: [fit] assigns no
    [fit_intercept], so with sub-estimators whose own [fit] leaves theirs
    alone, every [fit_intercept] is after a [fit] what it was before. *)
Theorem C4_later_steps_lose_fit_intercept steps scopes (w0 : world) self w1 :
  __init__ steps scopes w0 = (Ok self, w1) →
  (∀ i l, 1 ≤ i → _estimators self !! i = Some l →
     fit_intercept (objs w1 l) = false)
  ∧ (∀ first, _estimators self !! 0 = Some first →
     first ∉ drop 1 (_estimators self) →
     objs w1 first = objs w0 first
     ∧ fit_intercept (objs w1 first) = fit_intercept (objs w0 first))
  ∧ (∀ l, l ∉ _estimators self → objs w1 l = objs w0 l)
  ∧ ((∀ Xs t sw ex e e', est_fit Xs t sw ex e = inr e' →
        fit_intercept e' = fit_intercept e) →
     ∀ X y sw ex self0 w res self' w',
       fit X y sw ex (self0, w) = (res, (self', w')) →
       ∀ l, fit_intercept (objs w' l) = fit_intercept (objs w l)).
Proof.
  intros H. apply init_inv in H as (_ & _ & _ & _ & -> & _ & Hin & Hout). simpl.
  split; [|split; [|split]].
  - intros i l Hi Hl. rewrite Hin; [done|].
    apply list_elem_of_lookup. exists (i - 1). rewrite lookup_drop.
    by replace (1 + (i - 1)) with i by lia.
  - intros first _ Hnot. by rewrite Hout.
  - intros l Hl. apply Hout. intros Hd. apply Hl. by eapply subseteq_drop.
  - intros Hpres X y sw ex self0 w res self' w' Hfit.
    by eapply fit_fit_intercept.
Qed.

End Constructed.

(** ** The parameter namespace *)

(** *** Splitting and joining *)

Lemma cons_head_nonempty (c : ascii) (parts : list string) : cons_head c parts ≠ [].
Proof. by destruct parts. Qed.

Lemma split_dunder_nonempty (s : string) : split_dunder s ≠ [].
Proof.
  destruct s as [|c [|c' s]]; cbn [split_dunder]; try done.
  case_decide; [done|]. apply cons_head_nonempty.
Qed.

Lemma split_dunder_cons (c c' : ascii) (s : string) :
  split_dunder (String c (String c' s))
  = if decide (c = "_"%char ∧ c' = "_"%char)
    then EmptyString :: split_dunder s
    else cons_head c (split_dunder (String c' s)).
Proof. done. Qed.

Lemma join_cons_head (c : ascii) (parts : list string) :
  parts ≠ [] → join_dunder (cons_head c parts) = String c (join_dunder parts).
Proof. destruct parts as [|p [|p' ps]]; by simpl. Qed.

Lemma join_split_dunder (s : string) : join_dunder (split_dunder s) = s.
Proof.
  cut (join_dunder (split_dunder s) = s
       ∧ ∀ c, join_dunder (split_dunder (String c s)) = String c s).
  { by intros [? _]. }
  induction s as [|c' s [IH1 IH2]]; [done|]. split; [apply IH2|].
  intros c. rewrite split_dunder_cons. case_decide as Hcc.
  - destruct Hcc as [-> ->]. pose proof (split_dunder_nonempty s) as Hne.
    destruct (split_dunder s) as [|p ps]; [done|].
    cbn [join_dunder] in *. by rewrite IH1.
  - rewrite join_cons_head by apply split_dunder_nonempty. by rewrite IH2.
Qed.

(** After a clean step name the first cut falls on the separator. *)
Lemma split_qualified (step_name name : string) :
  clean step_name →
  split_dunder (step_name +:+ dunder +:+ name) = step_name :: split_dunder name.
Proof.
  unfold clean. induction step_name as [|c s IH]; [done|].
  destruct s as [|c' s].
  - intros Hc.
    change (String c "" +:+ dunder +:+ name)
      with (String c (String "_" (String "_" name))).
    change (String c "" +:+ "_") with (String c (String "_" "")) in Hc.
    rewrite split_dunder_cons in Hc |- *. case_decide; [done|].
    by rewrite split_dunder_cons, decide_True.
  - intros Hc. change (String c (String c' s) +:+ dunder +:+ name)
      with (String c (String c' (s +:+ dunder +:+ name))).
    change (String c (String c' s) +:+ "_")
      with (String c (String c' (s +:+ "_"))) in Hc.
    rewrite split_dunder_cons in Hc |- *. case_decide; [done|].
    change (String c' (s +:+ dunder +:+ name))
      with (String c' s +:+ dunder +:+ name).
    rewrite IH; [done|].
    change (String c' (s +:+ "_")) with (String c' s +:+ "_") in Hc.
    pose proof (split_dunder_nonempty (String c' s +:+ "_")).
    destruct (split_dunder (String c' s +:+ "_")) as [|p [|p' ps]]; [done| |done].
    simpl in Hc. by simplify_eq.
Qed.

Lemma split_dunder_examples :
  split_dunder "a__b__c" = ["a"; "b"; "c"]
  ∧ split_dunder "a___b" = ["a"; "_b"]
  ∧ split_dunder "abc" = ["abc"]
  ∧ clean "step1" ∧ clean "a_b" ∧ ¬ clean "a_" ∧ ¬ clean "a__b".
Proof. by repeat split. Qed.

Lemma append_inj_r (s t1 t2 : string) : s +:+ t1 = s +:+ t2 → t1 = t2.
Proof. induction s as [|c s IH]; simpl; [done|]. intros [= ?]. auto. Qed.

(** *** Resolving qualified names *)

Section Namespace.
Context `{Ext : Externals} {Sub : SubEstimator}.

Lemma for_acc_pure {S A B} (f : B → A → result B) (l : list A) (acc : B) (s : S) :
  for_acc l acc (λ acc x, lift_result (f acc x)) s = (fold_result f l acc, s).
Proof.
  revert acc. induction l as [|x l IH]; intros acc; simpl; [done|].
  unfold bind, lift_result at 1. destruct (f acc x); [apply IH|done].
Qed.

Lemma index_of_lookup (step_names : list string) (i : nat) (step_name : string) :
  NoDup step_names → step_names !! i = Some step_name →
  index_of step_name step_names = Ok i.
Proof.
  intros Hnd Hi. unfold index_of.
  destruct (list_find _ step_names) as [[j x]|] eqn:Hfind.
  - apply list_find_Some in Hfind as (Hj & -> & _).
    by rewrite (NoDup_lookup _ _ _ _ Hnd Hj Hi).
  - apply list_find_None in Hfind.
    eapply Forall_lookup_1 in Hfind; [|done]. done.
Qed.

Lemma index_of_inv (step_names : list string) (step_name : string) r :
  index_of step_name step_names = r →
  match r with
  | Ok i => step_names !! i = Some step_name
  | Raise e => e = ValueError NotInTuple
  end.
Proof.
  unfold index_of. destruct (list_find _ step_names) as [[j x]|] eqn:Hfind.
  - intros <-. by apply list_find_Some in Hfind as (Hj & -> & _).
  - by intros <-.
Qed.

Lemma get_step_param_name_inv self name r :
  _get_step_param_name self name = r →
  match r with
  | Ok (i, _) => i < length (_step_names self)
  | Raise e => e = ValueError NotInTuple
  end.
Proof.
  unfold _get_step_param_name.
  destruct (index_of _ _) as [i|e] eqn:Hi; apply index_of_inv in Hi; intros <-.
  - by eapply lookup_lt_Some.
  - done.
Qed.

Lemma get_step_param_name_qualified self (i : nat) (step_name name : string) :
  NoDup (_step_names self) → _step_names self !! i = Some step_name →
  clean step_name →
  _get_step_param_name self (step_name +:+ dunder +:+ name) = Ok (i, name).
Proof.
  intros Hnd Hi Hc. unfold _get_step_param_name.
  rewrite split_qualified by done. cbn [hd tail].
  rewrite (index_of_lookup _ i) by done. by rewrite join_split_dunder.
Qed.

(** *** No two flattened names are the same *)

Lemma elem_of_flattened (q : string) (names : list string) (pss : list (list string)) :
  q ∈ concat ((λ step : string * list string,
                 (λ name, step.1 +:+ dunder +:+ name) <$> step.2)
              <$> zip names pss) →
  ∃ i s ps p, names !! i = Some s ∧ pss !! i = Some ps ∧ p ∈ ps
    ∧ q = s +:+ dunder +:+ p.
Proof.
  revert pss. induction names as [|s names IH]; intros [|ps pss]; simpl;
    try by intros ?%elem_of_nil.
  intros [Hq|Hq]%elem_of_app.
  - apply list_elem_of_fmap in Hq as (p & -> & Hp). by exists 0, s, ps, p.
  - apply IH in Hq as (i & s' & ps' & p & ? & ? & ? & ->). by exists (S i), s', ps', p.
Qed.

Lemma flattened_NoDup (names : list string) (pss : list (list string)) :
  NoDup names → Forall clean names → Forall NoDup pss →
  NoDup (concat ((λ step : string * list string,
                    (λ name, step.1 +:+ dunder +:+ name) <$> step.2)
                 <$> zip names pss)).
Proof.
  revert pss. induction names as [|s names IH]; intros [|ps pss] Hnd Hc Hps; simpl;
    try apply NoDup_nil_2.
  apply NoDup_cons in Hnd as [Hs Hnd]. apply Forall_cons in Hc as [Hcs Hc].
  apply Forall_cons in Hps as [Hp Hps].
  apply NoDup_app. split; [|split; [|by apply IH]].
  - apply NoDup_fmap_2_strong; [|done].
    by intros p1 p2 _ _ ?%append_inj_r%append_inj_r.
  - intros q Hq Hq'. apply list_elem_of_fmap in Hq as (p & -> & _).
    apply elem_of_flattened in Hq' as (i & s' & ps' & p' & Hs' & _ & _ & Heq).
    apply list_elem_of_lookup_2 in Hs'.
    apply (f_equal split_dunder) in Heq.
    rewrite !split_qualified in Heq.
    + by simplify_eq.
    + eapply Forall_forall in Hc; eauto.
    + done.
Qed.

(** *** Routing parameters to the steps *)

Lemma dict_set_fresh {V} (k : string) (v : V) (d : dict V) :
  k ∉ d.*1 → dict_set k v d = d ++ [(k, v)].
Proof.
  induction d as [|[k' v'] d IH]; simpl; [done|].
  intros [Hne Hk]%not_elem_of_cons. rewrite decide_False by done.
  by rewrite IH.
Qed.

Lemma foldl_dict_set_fresh {V} (d0 kvs : list (string * V)) :
  NoDup (d0.*1 ++ kvs.*1) →
  foldl (λ d kv, dict_set kv.1 kv.2 d) d0 kvs = d0 ++ kvs.
Proof.
  revert d0. induction kvs as [|[k v] kvs IH]; intros d0 Hnd; simpl.
  { by rewrite app_nil_r. }
  simpl in Hnd. rewrite dict_set_fresh.
  - rewrite IH; [by rewrite <- app_assoc|].
    rewrite fmap_app. simpl. rewrite <- app_assoc. done.
  - apply NoDup_app in Hnd as (_ & Hd & _). intros Hk. apply (Hd k Hk). by left.
Qed.

Lemma dict_of_NoDup {V} (kvs : list (string * V)) :
  NoDup kvs.*1 → dict_of kvs = kvs.
Proof. intros H. unfold dict_of. by rewrite foldl_dict_set_fresh. Qed.

(** The first loop of [set_params] sorts the items by step. *)
Lemma partition_spec self params (pfe0 : list (dict value)) :
  length (_step_names self) ≤ length pfe0 →
  Forall (resolves self) params →
  ∃ pfe, fold_result (set_params_step self) params pfe0 = Ok pfe
    ∧ length pfe = length pfe0
    ∧ ∀ i d0, pfe0 !! i = Some d0 →
        pfe !! i = Some (foldl (λ d kv, dict_set kv.1 kv.2 d) d0
                           (addressed_to self i params)).
Proof.
  intros Hlen. revert pfe0 Hlen.
  induction params as [|[name v] params IH]; intros pfe0 Hlen Hres; simpl.
  { exists pfe0. by repeat split. }
  apply Forall_cons in Hres as [(j & p & Hj) Hres]. simpl in Hj.
  pose proof (get_step_param_name_inv _ _ _ Hj) as Hlt. simpl in Hlt.
  destruct (lookup_lt_is_Some_2 pfe0 j) as [dj Hdj]; [lia|].
  rewrite Hj, Hdj.
  destruct (IH (<[j:=dict_set p v dj]> pfe0)) as (pfe & Hrun & Hl & Hpfe);
    [by rewrite length_insert|done|].
  exists pfe. split; [done|]. split; [by rewrite Hl, length_insert|].
  intros i d0 Hi. case_decide as Hij.
  - subst i. simplify_eq. apply Hpfe. apply list_lookup_insert_eq.
    by eapply lookup_lt_Some.
  - apply Hpfe. by rewrite list_lookup_insert_ne.
Qed.

Lemma partition_unresolved self params (pfe0 : list (dict value)) :
  length (_step_names self) ≤ length pfe0 →
  ¬ Forall (resolves self) params →
  fold_result (set_params_step self) params pfe0 = Raise (ValueError NotInTuple).
Proof.
  intros Hlen. revert pfe0 Hlen.
  induction params as [|[name v] params IH]; intros pfe0 Hlen Hres; simpl.
  { by destruct Hres. }
  destruct (_get_step_param_name self name) as [[j p]|e] eqn:Hj.
  - pose proof (get_step_param_name_inv _ _ _ Hj) as Hlt. simpl in Hlt.
    destruct (lookup_lt_is_Some_2 pfe0 j) as [dj Hdj]; [lia|]. rewrite Hdj.
    apply IH; [by rewrite length_insert|].
    intros Hall. apply Hres. apply Forall_cons. split; [|done]. by exists j, p.
  - by rewrite (get_step_param_name_inv _ _ _ Hj).
Qed.

(** The second loop of [set_params] calls every sub-estimator in turn. *)
Lemma set_params_loop_trace (pfe : list (dict value)) (ests : list nat) (w : world)
    res w' :
  for_ (zip pfe ests)
    (λ '(estimator_params, estimator),
       call_set_params estimator estimator_params) w = (res, w') →
  ∃ evs, calls w' = calls w ++ evs
    ∧ length (set_params_calls evs) = length evs
    ∧ set_params_calls evs `prefix_of` ((λ z, (z.2, z.1)) <$> zip pfe ests)
    ∧ (res = Ok tt → set_params_calls evs = (λ z, (z.2, z.1)) <$> zip pfe ests)
    ∧ (∀ e, res = Raise e → ∃ msg, e = Foreign msg).
Proof.
  revert ests w. induction pfe as [|kw pfe IH]; intros [|l ests] w;
    try (cbn [zip_with for_]; intros [= <- <-]; exists []; rewrite app_nil_r;
         by repeat split).
  cbn [zip_with for_]. intros H.
  unfold bind at 1, call_set_params at 1, bind at 1, deref at 1, bind at 1,
    log at 1, modify at 1 in H.
  set (ev := Call_set_params l kw (est_set_params kw (objs w l))) in *.
  destruct (est_set_params kw (objs w l)) as [msg|e'] eqn:He.
  - unfold raise in H. injection H as <- <-. exists [ev]. simpl.
    split; [done|]. split; [done|]. split; [|split; [done|]].
    + by exists ((λ z, (z.2, z.1)) <$> zip pfe ests).
    + intros e [= <-]. by exists msg.
  - unfold assign, modify in H. cbn [fst snd objs calls] in H.
    apply IH in H as (evs & Hcalls & Hlen & Hpre & Hok & Herr). simpl in Hcalls.
    exists (ev :: evs). split; [by rewrite Hcalls, <- app_assoc|].
    replace (set_params_calls (ev :: evs)) with ((l, kw) :: set_params_calls evs)
      by done.
    simpl. split; [by rewrite Hlen|]. split; [by apply prefix_cons|].
    split; [|done]. intros Hr. by rewrite Hok.
Qed.

Lemma set_params_unfold self params (w : world) :
  params ≠ [] →
  set_params self params w
  = match fold_result (set_params_step self) params
            (replicate (length (_estimators self)) []) with
    | Raise e => (Raise e, w)
    | Ok pfe =>
        match for_ (zip pfe (_estimators self))
                (λ '(estimator_params, estimator),
                   call_set_params estimator estimator_params) w with
        | (Ok _, w') => (Ok self, w')
        | (Raise e, w') => (Raise e, w')
        end
    end.
Proof.
  intros Hne. unfold set_params. destruct params as [|item params]; [done|].
  unfold bind at 1. rewrite for_acc_pure.
  destruct (fold_result _ _ _) as [pfe|e]; [|done].
  unfold bind at 1. by destruct (for_ _ _ w) as [[[]|e] w'].
Qed.

(** C8 (as amended). With no parameters [set_params] does nothing and
    returns the composite.  Otherwise it sorts the items by step with the
    first-["__"] splitting rule and then calls the own [set_params] of every
    sub-estimator, in step order, each with exactly the items addressed to
    it under their native names: a sub-estimator to which nothing is
    addressed is called too, with an empty mapping.  The calls stop at the
    first one that raises; when all return, the composite is returned.
    When some name resolves to no step, the lookup error is raised before
    any call. *)
Theorem C8_set_params_routes_by_step self (w : world) :
  length (_step_names self) = length (_estimators self) →
  set_params self [] w = (Ok self, w)
  ∧ ∀ params res w', params ≠ [] → set_params self params w = (res, w') →
      let expected :=
        imap (λ i l, (l, dict_of (addressed_to self i params))) (_estimators self) in
      (Forall (resolves self) params →
         ∃ evs, calls w' = calls w ++ evs
           ∧ length (set_params_calls evs) = length evs
           ∧ set_params_calls evs `prefix_of` expected
           ∧ (∀ r, res = Ok r → r = self ∧ set_params_calls evs = expected)
           ∧ (∀ e, res = Raise e → ∃ msg, e = Foreign msg))
      ∧ (¬ Forall (resolves self) params →
         res = Raise (ValueError NotInTuple) ∧ w' = w).
Proof.
  intros Hlen. split; [done|]. intros params res w' Hne Hrun expected.
  rewrite set_params_unfold in Hrun by done. split.
  - intros Hres.
    destruct (partition_spec self params (replicate (length (_estimators self)) []))
      as (pfe & Hpart & Hl & Hpfe); [by rewrite length_replicate, Hlen|done|].
    rewrite Hpart in Hrun. rewrite length_replicate in Hl.
    assert ((λ z : dict value * nat, (z.2, z.1)) <$> zip pfe (_estimators self)
            = expected) as Hexp.
    { subst expected. apply list_eq. intros i.
      rewrite list_lookup_fmap, list_lookup_imap.
      destruct (_estimators self !! i) as [l|] eqn:Hi; simpl.
      - assert (pfe !! i = Some (dict_of (addressed_to self i params))) as Hp.
        { apply Hpfe. apply lookup_replicate_2. by eapply lookup_lt_Some. }
        assert (zip pfe (_estimators self) !! i
                = Some (dict_of (addressed_to self i params), l)) as ->
          by (by apply lookup_zip_Some).
        done.
      - destruct (zip pfe (_estimators self) !! i) as [[kw l]|] eqn:Hz; [|done].
        apply lookup_zip_Some in Hz as [_ ?]. congruence. }
    destruct (for_ _ _ w) as [lres w1] eqn:Hloop.
    apply set_params_loop_trace in Hloop as (evs & Hcalls & Hlenev & Hpre & Hok & Herr).
    rewrite Hexp in Hpre, Hok.
    exists evs. destruct lres as [[]|e]; injection Hrun as <- <-.
    + split; [done|]. split; [done|]. split; [done|]. split; [|done].
      intros r [= <-]. split; [done|]. by apply Hok.
    + split; [done|]. split; [done|]. split; [done|]. split; [done|].
      intros e' [= <-]. by apply Herr.
  - intros Hres. rewrite partition_unresolved in Hrun; [by injection Hrun as <- <-|..].
    + by rewrite length_replicate, Hlen.
    + done.
Qed.

(** *** Reading the parameters and writing them back *)

Section RoundTrip.
Variable self : StepwiseEstimator.
Variable w : world.
Hypothesis names_NoDup : NoDup (_step_names self).
Hypothesis names_clean : Forall clean (_step_names self).
Hypothesis native_NoDup :
  ∀ l, l ∈ _estimators self → NoDup (est_get_param_names (objs w l)).
Hypothesis same_length : length (_step_names self) = length (_estimators self).

Lemma step_lookup (s : string) (l : nat) :
  (s, l) ∈ zip (_step_names self) (_estimators self) →
  ∃ i, _step_names self !! i = Some s ∧ _estimators self !! i = Some l ∧ clean s.
Proof.
  intros (i & [Hs Hl]%lookup_zip_Some)%list_elem_of_lookup_1. exists i.
  split; [done|]. split; [done|]. eapply Forall_lookup_1; eauto.
Qed.

Lemma get_params_fold (est_params : list (dict value)) (val : string → value)
    (qs : list string) (out0 : dict value) :
  (∀ q out, q ∈ qs →
     get_params_step self est_params out q = Ok (dict_set q (val q) out)) →
  NoDup (out0.*1 ++ qs) →
  fold_result (get_params_step self est_params) qs out0
  = Ok (out0 ++ ((λ q, (q, val q)) <$> qs)).
Proof.
  revert out0. induction qs as [|q qs IH]; intros out0 Hstep Hnd; simpl.
  { by rewrite app_nil_r. }
  rewrite Hstep by (by left). rewrite dict_set_fresh.
  - rewrite IH.
    + by rewrite <- app_assoc.
    + intros q' out Hq'. apply Hstep. by right.
    + rewrite fmap_app. simpl. by rewrite <- app_assoc.
  - apply NoDup_app in Hnd as (_ & Hd & _). intros Hq. apply (Hd q Hq). by left.
Qed.

Lemma qualified_blocks (deep : bool) (val : string → value)
    (ns : list string) (ls : list nat) :
  (∀ s l p, (s, l) ∈ zip ns ls →
     val (s +:+ dunder +:+ p) = dict_get pyNone p (est_get_params deep (objs w l))) →
  (λ q, (q, val q))
    <$> concat ((λ step : string * list string,
                   (λ name, step.1 +:+ dunder +:+ name) <$> step.2)
                <$> zip ns ((λ l, est_get_param_names (objs w l)) <$> ls))
  = concat ((λ step : string * nat,
               (λ kv : string * value, (step.1 +:+ dunder +:+ kv.1, kv.2))
                 <$> current_params deep (objs w step.2))
            <$> zip ns ls).
Proof.
  revert ls. induction ns as [|s ns IH]; intros [|l ls] Hval; simpl; try done.
  rewrite fmap_app. f_equal.
  - unfold current_params. rewrite <- !list_fmap_compose.
    apply list_fmap_ext. intros _ p _. simpl. f_equal. apply Hval. by left.
  - apply IH. intros s' l' p Hin. apply Hval. by right.
Qed.

(** [get_params] returns every native parameter of every step under its
    qualified name. *)
Lemma get_params_spec (deep : bool) :
  get_params self deep w = (Ok (qualified_params self deep w), w).
Proof.
  unfold get_params, bind, get. rewrite for_acc_pure. f_equal.
  set (est_params := (λ estimator, est_get_params deep (objs w estimator))
                       <$> _estimators self).
  set (val := λ q, match _get_step_param_name self q with
                   | Ok (i, p) => dict_get pyNone p (default [] (est_params !! i))
                   | Raise _ => pyNone
                   end).
  assert (∀ s l p, (s, l) ∈ zip (_step_names self) (_estimators self) →
            ∃ i, _get_step_param_name self (s +:+ dunder +:+ p) = Ok (i, p)
              ∧ est_params !! i = Some (est_get_params deep (objs w l))) as Hdec.
  { intros s l p (i & Hs & Hl & Hc)%step_lookup. exists i. split.
    - by apply get_step_param_name_qualified.
    - subst est_params. by rewrite list_lookup_fmap, Hl. }
  clearbody est_params.
  rewrite (get_params_fold est_params val).
  - simpl. f_equal. unfold _get_param_names, qualified_params.
    apply qualified_blocks. intros s l p Hin.
    destruct (Hdec s l p Hin) as (i & Hi & Hd). subst val. simpl.
    rewrite Hi. simpl. unfold dict in *. by rewrite Hd.
  - intros q out Hq. unfold _get_param_names in Hq.
    apply elem_of_flattened in Hq as (i & s & ps & p & Hs & Hps & _ & ->).
    apply list_lookup_fmap_Some in Hps as (l & _ & Hl).
    destruct (Hdec s l p) as (i' & Hi & Hd).
    { apply list_elem_of_lookup_2 with i. by apply lookup_zip_Some. }
    unfold get_params_step. subst val. simpl. unfold dict in *.
    rewrite Hi. simpl. by rewrite Hd.
  - simpl. unfold _get_param_names. apply flattened_NoDup; [done|done|].
    apply Forall_fmap, Forall_forall. intros l Hl. by apply native_NoDup.
Qed.

Lemma qualified_params_keys (deep : bool) :
  (qualified_params self deep w).*1 = _get_param_names self w.
Proof.
  unfold qualified_params, _get_param_names.
  generalize (_step_names self) (_estimators self).
  intros ns. induction ns as [|s ns IH]; intros [|l ls]; simpl; try done.
  rewrite fmap_app, IH. f_equal. unfold current_params.
  rewrite <- !list_fmap_compose. by apply list_fmap_ext.
Qed.

Lemma qualified_params_resolve (deep : bool) :
  Forall (resolves self) (qualified_params self deep w).
Proof.
  apply Forall_forall. intros [q v] Hq.
  assert (q ∈ _get_param_names self w) as Hq'.
  { rewrite <- (qualified_params_keys deep). apply list_elem_of_fmap.
    by exists (q, v). }
  unfold _get_param_names in Hq'.
  apply elem_of_flattened in Hq' as (i & s & ps & p & Hs & _ & _ & ->).
  exists i, p. simpl. apply get_step_param_name_qualified; [done|done|].
  eapply Forall_lookup_1; eauto.
Qed.

Lemma omap_cons {A B} (f : A → option B) (x : A) (l : list A) :
  omap f (x :: l) = match f x with
                    | Some y => y :: omap f l
                    | None => omap f l
                    end.
Proof. done. Qed.

Lemma omap_concat {A B} (f : A → option B) (ls : list (list A)) :
  omap f (concat ls) = concat ((λ l : list A, omap f l) <$> ls).
Proof.
  induction ls as [|l ls IH]; simpl; [done|]. by rewrite omap_app, IH.
Qed.

Lemma concat_select {A} (F : nat → list A) (s : string)
    (ns : list string) (ls : list nat) (i l : nat) :
  NoDup ns → ns !! i = Some s → ls !! i = Some l →
  concat ((λ step : string * nat,
             if decide (step.1 = s) then F step.2 else []) <$> zip ns ls)
  = F l.
Proof.
  assert (∀ ns' ls', s ∉ ns' →
            concat ((λ step : string * nat,
                       if decide (step.1 = s) then F step.2 else [])
                    <$> zip ns' ls') = []) as Hnone.
  { intros ns'. induction ns' as [|s' ns' IH]; intros [|l' ls'] Hs; simpl; try done.
    apply not_elem_of_cons in Hs as [Hne Hs]. rewrite decide_False by done.
    by apply IH. }
  revert ls i. induction ns as [|s' ns IH]; intros [|l' ls] [|i] Hnd Hs Hl;
    simplify_eq/=; apply NoDup_cons in Hnd as [Hs' Hnd].
  - rewrite decide_True by done. rewrite Hnone by done. by rewrite app_nil_r.
  - rewrite decide_False.
    + by apply IH with i.
    + intros ->. apply Hs'. by eapply list_elem_of_lookup_2.
Qed.

(** Of what [get_params] returned, the items addressed to a step are its
    sub-estimator's native parameters with their current values. *)
Lemma addressed_to_qualified (deep : bool) (i l : nat) :
  _estimators self !! i = Some l →
  addressed_to self i (qualified_params self deep w)
  = current_params deep (objs w l).
Proof.
  intros Hl.
  destruct (lookup_lt_is_Some_2 (_step_names self) i) as [s Hs].
  { rewrite same_length. by eapply lookup_lt_Some. }
  unfold addressed_to, qualified_params. rewrite omap_concat.
  rewrite <- list_fmap_compose.
  rewrite <- (concat_select (λ l, current_params deep (objs w l)) s
                (_step_names self) (_estimators self) i l) by done.
  f_equal. apply list_fmap_ext. intros _ [s' l'] Hin%list_elem_of_lookup_2.
  apply step_lookup in Hin as (j & Hs' & Hl' & Hc). simpl.
  assert (∀ kvs : list (string * value),
            omap (λ kv : string * value,
                    match _get_step_param_name self kv.1 with
                    | Ok (step_ind, real_name) =>
                        if decide (step_ind = i) then Some (real_name, kv.2) else None
                    | Raise _ => None
                    end)
              ((λ kv : string * value, (s' +:+ dunder +:+ kv.1, kv.2)) <$> kvs)
            = if decide (j = i) then kvs else []) as Hblock.
  { intros kvs. induction kvs as [|[p v] kvs IH]; [by case_decide|].
    rewrite fmap_cons, omap_cons. cbn [fst snd].
    rewrite (get_step_param_name_qualified self j) by done.
    rewrite IH. by case_decide. }
  rewrite Hblock. destruct (decide (j = i)) as [->|Hne].
  - simplify_eq. by rewrite decide_True.
  - rewrite decide_False; [done|]. intros ->. apply Hne.
    by eapply NoDup_lookup.
Qed.

Lemma current_params_keys (deep : bool) (e : estimator) :
  (current_params deep e).*1 = est_get_param_names e.
Proof.
  unfold current_params. rewrite <- list_fmap_compose.
  rewrite <- (list_fmap_id (est_get_param_names e)) at 2. by apply list_fmap_ext.
Qed.

(** The first loop of [set_params], run on what [get_params] returned. *)
Lemma partition_qualified (deep : bool) :
  fold_result (set_params_step self) (qualified_params self deep w)
    (replicate (length (_estimators self)) [])
  = Ok ((λ l, current_params deep (objs w l)) <$> _estimators self).
Proof.
  destruct (partition_spec self (qualified_params self deep w)
              (replicate (length (_estimators self)) []))
    as (pfe & -> & Hlen & Hpfe).
  { by rewrite length_replicate, same_length. }
  { apply qualified_params_resolve. }
  f_equal. rewrite length_replicate in Hlen. apply list_eq. intros i.
  rewrite list_lookup_fmap.
  destruct (_estimators self !! i) as [l|] eqn:Hl; simpl.
  - rewrite (Hpfe i []) by (apply lookup_replicate_2; by eapply lookup_lt_Some).
    rewrite (addressed_to_qualified deep i l) by done. f_equal.
    apply dict_of_NoDup. rewrite current_params_keys. apply native_NoDup.
    by eapply list_elem_of_lookup_2.
  - apply lookup_ge_None. rewrite Hlen. by apply lookup_ge_None.
Qed.

End RoundTrip.

Lemma current_params_same (deep : bool) (e1 e2 : estimator) :
  same_params e1 e2 → current_params deep e1 = current_params deep e2.
Proof. intros [Hp Hn]. unfold current_params. by rewrite Hp, Hn. Qed.

(** The second loop of [set_params], when every sub-estimator is given back
    the parameters it shows. *)
Lemma set_params_loop_round_trip (deep : bool) (ls : list nat) (w0 w : world) :
  (∀ deep' e, ∃ e', est_set_params (current_params deep' e) e = inr e'
                ∧ same_params e' e) →
  (∀ l, same_params (objs w l) (objs w0 l)) →
  ∃ w', for_ (zip ((λ l, current_params deep (objs w0 l)) <$> ls) ls)
          (λ '(estimator_params, estimator),
             call_set_params estimator estimator_params) w = (Ok tt, w')
      ∧ ∀ l, same_params (objs w' l) (objs w0 l).
Proof.
  intros Hrt. revert w. induction ls as [|l ls IH]; intros w Hsame.
  { by exists w. }
  cbn [fmap list_fmap zip_with for_].
  unfold bind at 1, call_set_params at 1, bind at 1, deref at 1, bind at 1,
    log at 1, modify at 1.
  rewrite <- (current_params_same deep _ _ (Hsame l)).
  destruct (Hrt deep (objs w l)) as (e' & -> & He').
  unfold assign, modify. cbn [fst snd objs calls].
  apply IH. intros l'. simpl. destruct (decide (l' = l)) as [->|Hne].
  - rewrite fn_lookup_insert. destruct He' as [Hp Hn], (Hsame l) as [Hp0 Hn0].
    split; [intros d; by rewrite Hp, Hp0|by rewrite Hn, Hn0].
  - by rewrite fn_lookup_insert_ne.
Qed.

Lemma get_params_same self (deep : bool) (w w' : world) :
  (∀ l, same_params (objs w' l) (objs w l)) →
  (get_params self deep w').1 = (get_params self deep w).1.
Proof.
  intros Hsame. unfold get_params, bind, get. rewrite !for_acc_pure. simpl.
  assert (_get_param_names self w' = _get_param_names self w) as ->.
  { unfold _get_param_names. do 3 f_equal. apply list_fmap_ext.
    intros _ l _. apply Hsame. }
  do 2 f_equal. apply list_fmap_ext. intros _ l _. apply Hsame.
Qed.

(** C9 (as amended). Take a composite whose step names are unique, contain
    no ["__"] and do not end in ["_"], and sub-estimators whose native
    parameter names are duplicate-free.  Then the flattened qualified names
    contain no duplicates.  If moreover every sub-estimator keeps its
    parameters when it is set to the values it reports for its native
    parameters, then [get_params] followed by [set_params] with exactly the
    pairs it returned succeeds and leaves the result of [get_params]
    as it was. *)
Theorem C9_qualified_names_unique_and_round_trip self (w : world) :
  NoDup (_step_names self) →
  Forall clean (_step_names self) →
  (∀ l, l ∈ _estimators self → NoDup (est_get_param_names (objs w l))) →
  NoDup (_get_param_names self w)
  ∧ (length (_step_names self) = length (_estimators self) →
     (∀ deep e, ∃ e', est_set_params (current_params deep e) e = inr e'
                  ∧ same_params e' e) →
     ∀ deep, ∃ d w',
       get_params self deep w = (Ok d, w)
       ∧ d.*1 = _get_param_names self w
       ∧ set_params self d w = (Ok self, w')
       ∧ get_params self deep w' = (Ok d, w')
       ∧ ∀ deep', (get_params self deep' w').1 = (get_params self deep' w).1).
Proof.
  intros Hnd Hclean Hnat. split.
  { unfold _get_param_names. apply flattened_NoDup; [done|done|].
    apply Forall_fmap, Forall_forall. intros l Hl. by apply Hnat. }
  intros Hlen Hrt deep.
  pose proof (get_params_spec self w Hnd Hclean Hnat deep) as Hget.
  pose proof (qualified_params_keys self w deep) as Hkeys.
  remember (qualified_params self deep w) as d eqn:Hd.
  destruct (decide (d = [])) as [->|Hne].
  { by exists [], w. }
  destruct (set_params_loop_round_trip deep (_estimators self) w w Hrt)
    as (w' & Hloop & Hsame); [done|].
  assert (set_params self d w = (Ok self, w')) as Hset.
  { rewrite set_params_unfold by done.
    subst d. rewrite partition_qualified by done. by rewrite Hloop. }
  exists d, w'. split; [done|]. split; [done|].
  split; [done|]. split.
  - pose proof (get_params_same self deep w w' Hsame) as Heq.
    rewrite Hget in Heq. simpl in Heq.
    destruct (get_params self deep w') as [r w2] eqn:Hg'.
    unfold get_params, bind, get in Hg'. rewrite for_acc_pure in Hg'.
    simpl in Heq. by simplify_eq.
  - intros deep'. by apply get_params_same.
Qed.

End Namespace.


(** * Further properties of the code *)

(** ** The constructor *)

Section MoreConstruction.
Context `{Ext : Externals}.

Lemma length_sorted (l : list Z) : length (sorted l) = length l.
Proof. apply Permutation_length, sorted_Permutation. Qed.

(** X1. The constructor returns exactly when the two lists have the same
    length, the scopes together are a rearrangement of a range [0, n), no
    step is itself a composite and there is at least one step.  Whenever it
    does not return it raises a [ValueError] and has changed nothing: no
    sub-estimator has had its [fit_intercept] touched. *)
Theorem X1_constructor_returns_or_raises_unchanged steps scopes (w : world) :
  ((∃ self w', __init__ steps scopes w = (Ok self, w')) ↔
     length steps = length scopes
     ∧ (∃ n : nat, sorted (chain scopes) = range n)
     ∧ ¬ Exists (nested w) steps
     ∧ steps ≠ [])
  ∧ (∀ e w', __init__ steps scopes w = (Raise e, w') →
       w' = w ∧ ∃ why, e = ValueError why).
Proof.
  split; [split|].
  - intros (self & w' & H). apply init_inv in H as (? & Hov & ? & ? & _).
    by apply scope_check_spec in Hov.
  - intros (Hlen & Hn & Hnest & Hne). apply scope_check_spec in Hn.
    destruct (init_Ok steps scopes w) as [w' H]; eauto.
  - intros e w' H. apply init_inv in H as [-> H]. split; [done|].
    destruct H as [[-> _]|[(-> & _)|[(-> & _)|(-> & _)]]]; eauto.
Qed.

(** X2. A constructed composite holds the step names and the sub-estimators
    in the order given and the scopes as given; its full scope is
    [0, N) for N the total number of scope indices; [coef_] and
    [intercept_] are unset.  The constructor calls no method of a
    sub-estimator, and of no object does it change anything but
    [fit_intercept]; with a single step it changes nothing at all. *)
Theorem X2_constructed_composite steps scopes (w : world) self w' :
  __init__ steps scopes w = (Ok self, w') →
  _step_names self = steps.*1
  ∧ _estimators self = steps.*2
  ∧ _estimator_feature_indices self = scopes
  ∧ _full_scope self = range (length (chain scopes))
  ∧ coef_ self = None ∧ intercept_ self = None
  ∧ calls w' = calls w
  ∧ (∀ l, is_StepwiseEstimator (objs w' l) = is_StepwiseEstimator (objs w l)
        ∧ est_coef_ (objs w' l) = est_coef_ (objs w l)
        ∧ est_intercept_ (objs w' l) = est_intercept_ (objs w l)
        ∧ est_hyper (objs w' l) = est_hyper (objs w l))
  ∧ (length steps = 1 → ∀ l, objs w' l = objs w l).
Proof.
  intros H. apply init_inv in H as (_ & Hov & _ & _ & -> & Hcalls & Hin & Hout).
  simpl. do 3 (split; [done|]). split; [|do 3 (split; [done|]); split].
  - unfold overlap_or_not_continuous in Hov.
    apply orb_false_iff in Hov as [H1 H2].
    apply bool_decide_eq_false, dec_stable in H1.
    apply bool_decide_eq_false, dec_stable in H2.
    rewrite H2. f_equal. by rewrite H1, length_sorted.
  - intros l. destruct (decide (l ∈ drop 1 steps.*2)) as [Hl|Hl].
    + by rewrite (Hin l Hl).
    + by rewrite (Hout l Hl).
  - intros Hlen l. apply Hout. destruct steps as [|? [|? ?]]; try done.
    simpl. by intros ?%elem_of_nil.
Qed.

(** X3. The scope check looks at the indices only: two lists of scopes
    whose indices are the same up to order (split over the steps in any
    way, empty scopes included) are both accepted or both refused. *)
Theorem X3_scope_check_ignores_order (scopes1 scopes2 : list (list Z)) :
  chain scopes1 ≡ₚ chain scopes2 →
  overlap_or_not_continuous scopes1 = overlap_or_not_continuous scopes2.
Proof.
  intros Hp. unfold overlap_or_not_continuous, sorted_set.
  assert ((list_to_set (chain scopes1) : gset Z) = list_to_set (chain scopes2)) as ->.
  { apply set_eq. intros x. rewrite !elem_of_list_to_set. by rewrite Hp. }
  by rewrite (sorted_unique _ _ Hp).
Qed.

End MoreConstruction.

(** ** Qualified names *)

Lemma split_dunder_hd_shape (c : ascii) (s : string) :
  hd EmptyString (split_dunder (String c s)) = EmptyString
  ∨ ∃ x, hd EmptyString (split_dunder (String c s)) = String c x.
Proof.
  destruct s as [|c' s]; [right; by eexists|].
  rewrite split_dunder_cons. case_decide; [by left|]. right.
  pose proof (split_dunder_nonempty (String c' s)) as Hne.
  destruct (split_dunder (String c' s)) as [|x xs]; [done|]. by eexists.
Qed.

(** The first component of a split contains no ["__"]. *)
Lemma split_dunder_hd (s : string) :
  split_dunder (hd EmptyString (split_dunder s))
  = [hd EmptyString (split_dunder s)].
Proof.
  cut (split_dunder (hd EmptyString (split_dunder s))
         = [hd EmptyString (split_dunder s)]
       ∧ ∀ c, split_dunder (hd EmptyString (split_dunder (String c s)))
              = [hd EmptyString (split_dunder (String c s))]).
  { by intros [? _]. }
  induction s as [|c' s [IH1 IH2]]; [done|]. split; [apply IH2|].
  intros c. rewrite split_dunder_cons. case_decide as Hcc; [done|].
  specialize (IH2 c').
  destruct (split_dunder_hd_shape c' s) as [H0|[x Hx]];
    pose proof (split_dunder_nonempty (String c' s)) as Hne;
    destruct (split_dunder (String c' s)) as [|y ys]; try done;
    simpl in *; subst y; [done|].
  rewrite decide_False by done. by rewrite IH2.
Qed.

Lemma split_dunder_rejoin (name : string) :
  let splitted := split_dunder name in
  name = hd EmptyString splitted ∧ tail splitted = []
  ∨ name = hd EmptyString splitted +:+ dunder +:+ join_dunder (tail splitted).
Proof.
  pose proof (join_split_dunder name) as Hj.
  pose proof (split_dunder_nonempty name) as Hne. simpl.
  destruct (split_dunder name) as [|s [|r rest]]; [done|left|right]; by simpl in *.
Qed.

Lemma elem_of_concat {A} (x : A) (ls : list (list A)) :
  x ∈ concat ls ↔ ∃ l, l ∈ ls ∧ x ∈ l.
Proof.
  induction ls as [|l ls IH]; simpl.
  { split; [by intros ?%elem_of_nil|]. by intros (? & ?%elem_of_nil & _). }
  rewrite elem_of_app, IH. split.
  - intros [?|(l' & ? & ?)]; [exists l|exists l']; split; auto; by constructor.
  - intros (l' & [->|?]%elem_of_cons & ?); eauto.
Qed.

(** ** Dicts *)

Lemma dict_lookup_set {V} (k p : string) (v : V) (d : dict V) :
  dict_lookup p (dict_set k v d)
  = if decide (k = p) then Some v else dict_lookup p d.
Proof.
  induction d as [|[k' v'] d IH]; simpl.
  { repeat case_decide; congruence. }
  repeat (case_decide; simpl); try congruence.
Qed.

Lemma dict_lookup_app {V} (p : string) (d1 d2 : dict V) :
  dict_lookup p (d1 ++ d2)
  = match dict_lookup p d1 with
    | Some v => Some v
    | None => dict_lookup p d2
    end.
Proof.
  induction d1 as [|[k v] d1 IH]; simpl; [done|]. by case_decide.
Qed.

(** In a dict filled item by item, the last item of a key decides. *)
Lemma dict_lookup_foldl_set {V} (p : string) (d0 : dict V) (kvs : list (string * V)) :
  dict_lookup p (foldl (λ d kv, dict_set kv.1 kv.2 d) d0 kvs)
  = match dict_lookup p (reverse kvs) with
    | Some v => Some v
    | None => dict_lookup p d0
    end.
Proof.
  revert d0. induction kvs as [|[k v] kvs IH]; intros d0; simpl; [done|].
  rewrite IH, reverse_cons, dict_lookup_app, dict_lookup_set. simpl.
  destruct (dict_lookup p (reverse kvs)); [done|]. by case_decide.
Qed.

Lemma dict_set_keys {V} (k : string) (v : V) (d : dict V) :
  (dict_set k v d).*1 = if decide (k ∈ d.*1) then d.*1 else d.*1 ++ [k].
Proof.
  case_decide as Hk; [|by rewrite dict_set_fresh, fmap_app].
  induction d as [|[k' v'] d IH]; simpl in *; [by apply elem_of_nil in Hk|].
  case_decide; [done|]. simpl. f_equal. apply IH.
  apply elem_of_cons in Hk as [?|?]; [congruence|done].
Qed.

Lemma dict_set_NoDup {V} (k : string) (v : V) (d : dict V) :
  NoDup d.*1 → NoDup (dict_set k v d).*1.
Proof.
  intros Hd. rewrite dict_set_keys. case_decide; [done|].
  apply NoDup_app. split; [done|]. split; [|apply NoDup_singleton].
  intros x Hx ?%list_elem_of_singleton. by subst.
Qed.

Lemma foldl_dict_set_NoDup {V} (d0 : dict V) (kvs : list (string * V)) :
  NoDup d0.*1 → NoDup (foldl (λ d kv, dict_set kv.1 kv.2 d) d0 kvs).*1.
Proof.
  revert d0. induction kvs as [|kv kvs IH]; intros d0 H; simpl; [done|].
  by apply IH, dict_set_NoDup.
Qed.

Lemma dict_lookup_NoDup {V} (k : string) (v : V) (d : dict V) :
  NoDup d.*1 → (k, v) ∈ d → dict_lookup k d = Some v.
Proof.
  induction d as [|[k' v'] d IH]; simpl; [by intros _ ?%elem_of_nil|].
  intros [Hk Hd]%NoDup_cons [[= -> ->]|Hin]%elem_of_cons.
  - by rewrite decide_True.
  - rewrite decide_False; [by apply IH|]. intros ->. apply Hk.
    apply list_elem_of_fmap. by exists (k, v).
Qed.

(** ** Resolving names, reading and setting parameters *)

Section MoreNamespace.
Context `{Ext : Externals} {Sub : SubEstimator}.

Lemma index_of_first (step_names : list string) (step_name : string) (i : nat) :
  index_of step_name step_names = Ok i ↔
  step_names !! i = Some step_name
  ∧ ∀ j, j < i → step_names !! j ≠ Some step_name.
Proof.
  unfold index_of. destruct (list_find _ step_names) as [[j x]|] eqn:Hfind.
  - apply list_find_Some in Hfind as (Hj & -> & Hfirst). split.
    + intros [= <-]. split; [done|]. intros k Hk Hkj. by apply (Hfirst k step_name).
    + intros [Hi Hfirst']. f_equal.
      destruct (Nat.lt_trichotomy i j) as [Hlt|[->|Hlt]]; [|done|].
      * by destruct (Hfirst i step_name).
      * by destruct (Hfirst' j).
  - split; [done|]. intros [Hi _]. apply list_find_None in Hfind.
    eapply Forall_lookup_1 in Hfind; [|done]. done.
Qed.

(** X4. A qualified name made of a step name, ["__"] and any native name
    resolves to that step and gives the native name back whole, also when
    the native name itself contains ["__"]; the step is the first one that
    bears the name, and the name must contain no ["__"] and not end in
    ["_"]. *)
Theorem X4_qualified_name_resolves self (i : nat) (step_name name : string) :
  _step_names self !! i = Some step_name →
  (∀ j, j < i → _step_names self !! j ≠ Some step_name) →
  clean step_name →
  _get_step_param_name self (step_name +:+ dunder +:+ name) = Ok (i, name).
Proof.
  intros Hi Hfirst Hc. unfold _get_step_param_name.
  rewrite split_qualified by done. cbn [hd tail].
  rewrite (proj2 (index_of_first _ _ i)) by done. by rewrite join_split_dunder.
Qed.

(** The first component of a split that has more than one does not end in
    ["_"]: the first ["__"] of the name comes right after it. *)
Lemma split_dunder_hd_clean (s : string) :
  tail (split_dunder s) ≠ [] → clean (hd EmptyString (split_dunder s)).
Proof.
  cut ((tail (split_dunder s) ≠ [] → clean (hd EmptyString (split_dunder s)))
       ∧ ∀ c, tail (split_dunder (String c s)) ≠ [] →
              clean (hd EmptyString (split_dunder (String c s)))).
  { by intros [? _]. }
  induction s as [|c' s [IH1 IH2]]; [by split|]. split; [apply IH2|].
  intros c. rewrite split_dunder_cons. case_decide as Hcc; [done|].
  specialize (IH2 c').
  pose proof (split_dunder_nonempty (String c' s)) as Hne.
  pose proof (split_dunder_hd_shape c' s) as Hshape.
  destruct (split_dunder (String c' s)) as [|p ps] eqn:Hsp; [done|].
  cbn [hd tail cons_head] in *. intros Hps. specialize (IH2 Hps). unfold clean in *.
  destruct Hshape as [->|[x ->]].
  - assert (c' = "_"%char) as ->.
    { destruct s as [|c'' s]; [by simplify_eq/=|].
      rewrite split_dunder_cons in Hsp. case_decide as Hc'; [by destruct Hc'|].
      pose proof (split_dunder_nonempty (String c'' s)).
      by destruct (split_dunder (String c'' s)). }
    change (String c "" +:+ "_") with (String c (String "_" "")).
    rewrite split_dunder_cons, decide_False; [done|]. intros [-> _]. by apply Hcc.
  - change (String c (String c' x) +:+ "_")
      with (String c (String c' (x +:+ "_"))).
    change (String c' x +:+ "_") with (String c' (x +:+ "_")) in IH2.
    by rewrite split_dunder_cons, decide_False, IH2.
Qed.

(** X5. What [_get_step_param_name] does with any name.  The name is cut
    at its first ["__"]: the part before it is the whole name when the name
    contains no ["__"], and otherwise the name is that part, ["__"] and a
    rest, where the part followed by ["_"] contains no ["__"].  When a step
    bears that part as its name, the index of the first such step is
    returned, with the rest as the native name (empty when there is no
    ["__"]); a step whose name contains ["__"] is therefore never found.
    When no step bears that part as its name, the [ValueError] of the
    lookup is raised. *)
Theorem X5_resolved_name_decomposes self (name : string) :
  let step_name := hd EmptyString (split_dunder name) in
  (name = step_name ∧ split_dunder name = [name]
   ∨ ∃ rest, name = step_name +:+ dunder +:+ rest ∧ clean step_name)
  ∧ match _get_step_param_name self name with
    | Ok (i, param_name) =>
        _step_names self !! i = Some step_name
        ∧ (∀ j, j < i → _step_names self !! j ≠ Some step_name)
        ∧ (name = step_name ∧ param_name = EmptyString
           ∨ name = step_name +:+ dunder +:+ param_name)
    | Raise e =>
        e = ValueError NotInTuple ∧ step_name ∉ _step_names self
    end.
Proof.
  intros step_name. subst step_name. split.
  - pose proof (join_split_dunder name) as Hj.
    pose proof (split_dunder_nonempty name) as Hne.
    pose proof (split_dunder_hd_clean name) as Hclean.
    destruct (split_dunder name) as [|s [|r rest]]; [done|left|right].
    + simpl in *. by subst s.
    + exists (join_dunder (r :: rest)). split; [by simpl in *|].
      by apply Hclean.
  - unfold _get_step_param_name.
    destruct (index_of _ _) as [i|e] eqn:Hidx.
    + apply index_of_first in Hidx as [Hi Hfirst].
      split; [done|]. split; [done|].
      destruct (split_dunder_rejoin name) as [[H1 H2]|H]; [left|by right].
      simpl in H2. by rewrite H2.
    + unfold index_of in Hidx.
      destruct (list_find _ _) as [[j x]|] eqn:Hfind; [done|].
      injection Hidx as <-. split; [done|].
      apply list_find_None in Hfind. intros Hin.
      eapply Forall_forall in Hfind; [|done]. done.
Qed.

Lemma get_params_fold_keys self (est_params : list (dict value))
    (qs : list string) (out0 : dict value) :
  length (_step_names self) ≤ length est_params →
  Forall (name_resolves self) qs →
  NoDup out0.*1 →
  ∃ out, fold_result (get_params_step self est_params) qs out0 = Ok out
    ∧ NoDup out.*1
    ∧ ∀ q, q ∈ out.*1 ↔ q ∈ out0.*1 ∨ q ∈ qs.
Proof.
  intros Hlen. revert out0. induction qs as [|q qs IH]; intros out0 Hres Hnd; simpl.
  { exists out0. split; [done|]. split; [done|]. intros q. split; [auto|].
    by intros [?|?%elem_of_nil]. }
  apply Forall_cons in Hres as [(i & p & Hq) Hres].
  pose proof (get_step_param_name_inv _ _ _ Hq) as Hlt. simpl in Hlt.
  destruct (lookup_lt_is_Some_2 est_params i) as [d Hd]; [lia|].
  unfold get_params_step at 1. rewrite Hq, Hd.
  destruct (IH (dict_set q (dict_get pyNone p d) out0) Hres) as (out & Hrun & Hout & Hkeys).
  { by apply dict_set_NoDup. }
  exists out. split; [done|]. split; [done|]. intros q'.
  rewrite Hkeys, dict_set_keys, elem_of_cons. case_decide as Hin.
  - split; [intros [?|?]; auto|]. intros [?|[->|?]]; auto.
  - rewrite elem_of_app, list_elem_of_singleton. tauto.
Qed.

Lemma get_params_fold_unresolved self (est_params : list (dict value))
    (qs : list string) (out0 : dict value) :
  length (_step_names self) ≤ length est_params →
  ¬ Forall (name_resolves self) qs →
  fold_result (get_params_step self est_params) qs out0
  = Raise (ValueError NotInTuple).
Proof.
  intros Hlen. revert out0. induction qs as [|q qs IH]; intros out0 Hres; simpl.
  { by destruct Hres. }
  unfold get_params_step at 1.
  destruct (_get_step_param_name self q) as [[i p]|e] eqn:Hq.
  - pose proof (get_step_param_name_inv _ _ _ Hq) as Hlt. simpl in Hlt.
    destruct (lookup_lt_is_Some_2 est_params i) as [d Hd]; [lia|]. rewrite Hd.
    apply IH. intros Hall. apply Hres. apply Forall_cons. split; [|done].
    by exists i, p.
  - by rewrite (get_step_param_name_inv _ _ _ Hq).
Qed.

(** X6. [get_params] changes nothing.  It returns exactly when every
    flattened name resolves to a step, and then the keys of what it returns
    are the flattened names, each once; when some flattened name does not
    resolve (a step name that contains ["__"], say, whose first part is no
    step name) it raises the [ValueError] of the lookup. *)
Theorem X6_get_params_returns_iff_names_resolve self (deep : bool) (w : world) :
  length (_step_names self) = length (_estimators self) →
  (get_params self deep w).2 = w
  ∧ (Forall (name_resolves self) (_get_param_names self w) →
       ∃ d, (get_params self deep w).1 = Ok d
         ∧ NoDup d.*1
         ∧ ∀ q, q ∈ d.*1 ↔ q ∈ _get_param_names self w)
  ∧ (¬ Forall (name_resolves self) (_get_param_names self w) →
       (get_params self deep w).1 = Raise (ValueError NotInTuple)).
Proof.
  intros Hlen. unfold get_params, bind, get. rewrite for_acc_pure. simpl.
  split; [done|]. split.
  - intros Hres.
    destruct (get_params_fold_keys self
                ((λ estimator, est_get_params deep (objs w estimator))
                   <$> _estimators self) (_get_param_names self w) [])
      as (d & Hrun & Hnd & Hkeys); [by rewrite length_fmap, Hlen|done|constructor|].
    exists d. split; [done|]. split; [done|]. intros q. rewrite Hkeys.
    split; [by intros [?%elem_of_nil|?]|auto].
  - intros Hres. apply get_params_fold_unresolved; [|done].
    by rewrite length_fmap, Hlen.
Qed.

(** X7. With unique step names that contain no ["__"] and do not end in
    ["_"], and duplicate-free native names, [get_params] returns, step
    after step and native name after native name, every native parameter
    under its qualified name: what is found under [step__name] is what the
    step's own [get_params(deep)] has under [name], and [None] when it has
    nothing there. *)
Theorem X7_get_params_reads_sub_estimators self (deep : bool) (w : world) :
  NoDup (_step_names self) →
  Forall clean (_step_names self) →
  (∀ l, l ∈ _estimators self → NoDup (est_get_param_names (objs w l))) →
  get_params self deep w = (Ok (qualified_params self deep w), w)
  ∧ ∀ i step_name l name,
      _step_names self !! i = Some step_name →
      _estimators self !! i = Some l →
      name ∈ est_get_param_names (objs w l) →
      dict_lookup (step_name +:+ dunder +:+ name) (qualified_params self deep w)
      = Some (dict_get pyNone name (est_get_params deep (objs w l))).
Proof.
  intros Hnd Hclean Hnat. split; [by apply get_params_spec|].
  intros i step_name l name Hs Hl Hname. apply dict_lookup_NoDup.
  - rewrite qualified_params_keys. unfold _get_param_names.
    apply flattened_NoDup; [done|done|].
    apply Forall_fmap, Forall_forall. intros l' Hl'. by apply Hnat.
  - unfold qualified_params. apply elem_of_concat.
    eexists. split.
    + apply list_elem_of_fmap. exists (step_name, l). split; [done|].
      apply list_elem_of_lookup_2 with i. by apply lookup_zip_Some.
    + simpl. apply list_elem_of_fmap.
      exists (name, dict_get pyNone name (est_get_params deep (objs w l))).
      split; [done|]. unfold current_params. apply list_elem_of_fmap. eauto.
Qed.

Lemma partition_Ok_resolves self params (pfe0 pfe : list (dict value)) :
  fold_result (set_params_step self) params pfe0 = Ok pfe →
  Forall (resolves self) params.
Proof.
  revert pfe0. induction params as [|[name v] params IH]; intros pfe0; simpl;
    [done|].
  destruct (_get_step_param_name self name) as [[j p]|e] eqn:Hj; [|done].
  destruct (pfe0 !! j); [|done]. intros H. apply Forall_cons. split; [|eauto].
  by exists j, p.
Qed.

(** What the second loop of [set_params] leaves in the store, when no
    object serves two steps. *)
Lemma set_params_loop_effect (pfe : list (dict value)) (ests : list nat) (w : world)
    res w' :
  for_ (zip pfe ests)
    (λ '(estimator_params, estimator),
       call_set_params estimator estimator_params) w = (res, w') →
  (∀ l, l ∉ ests → objs w' l = objs w l)
  ∧ (res = Ok tt → NoDup ests → ∀ i l kw, ests !! i = Some l → pfe !! i = Some kw →
       est_set_params kw (objs w l) = inr (objs w' l)).
Proof.
  revert ests w. induction pfe as [|kw0 pfe IH]; intros [|l0 ests] w;
    try (cbn [zip_with for_]; intros [= <- <-]; split; [done|];
         by intros _ _ [|?] ???).
  cbn [zip_with for_]. intros H.
  unfold bind at 1, call_set_params at 1, bind at 1, deref at 1, bind at 1,
    log at 1, modify at 1 in H.
  destruct (est_set_params kw0 (objs w l0)) as [msg|e'] eqn:He.
  - unfold raise in H. injection H as <- <-. split; [done|]. done.
  - unfold assign, modify in H. cbn [fst snd objs calls] in H.
    apply IH in H as [Hframe Heff]. simpl in Hframe. split.
    + intros l [Hne Hl]%not_elem_of_cons. rewrite Hframe by done.
      by rewrite fn_lookup_insert_ne.
    + intros Hres [Hl0 Hnd]%NoDup_cons [|i] l kw Hl Hkw; simplify_eq/=.
      * rewrite Hframe by done. by rewrite fn_lookup_insert.
      * rewrite <- (Heff eq_refl Hnd i l kw) by done. simpl.
        rewrite fn_lookup_insert_ne; [done|]. intros ->. apply Hl0.
        by eapply list_elem_of_lookup_2.
Qed.

(** X8. When two items of the mapping given to [set_params] are addressed
    to the same native name of the same step (as [a] and [a__] are), the
    sub-estimator is given the value of the later one: in a [set_params]
    that returns, every sub-estimator is called once, in step order, with a
    mapping without duplicate keys in which each native name has the value
    of the last item addressed to it. *)
Theorem X8_set_params_last_item_wins self params (w : world) r w' :
  length (_step_names self) = length (_estimators self) →
  params ≠ [] →
  set_params self params w = (Ok r, w') →
  ∃ evs, calls w' = calls w ++ evs
    ∧ (set_params_calls evs).*1 = _estimators self
    ∧ ∀ i l kw, set_params_calls evs !! i = Some (l, kw) →
        NoDup kw.*1
        ∧ ∀ name, dict_lookup name kw
                  = dict_lookup name (reverse (addressed_to self i params)).
Proof.
  intros Hlen Hne Hrun. rewrite set_params_unfold in Hrun by done.
  destruct (fold_result _ _ _) as [pfe|e] eqn:Hpart; [|done].
  pose proof (partition_Ok_resolves _ _ _ _ Hpart) as Hres.
  destruct (partition_spec self params (replicate (length (_estimators self)) []))
    as (pfe' & Hpart' & Hl & Hpfe); [by rewrite length_replicate, Hlen|done|].
  rewrite Hpart in Hpart'. injection Hpart' as <-. rewrite length_replicate in Hl.
  destruct (for_ _ _ w) as [[[]|e] w1] eqn:Hloop; [|done]. injection Hrun as <- <-.
  apply set_params_loop_trace in Hloop as (evs & Hcalls & _ & _ & Hok & _).
  specialize (Hok eq_refl). exists evs. split; [done|]. rewrite Hok. split.
  - rewrite <- list_fmap_compose. simpl. apply snd_zip. by rewrite Hl.
  - intros i l kw Hi. apply list_lookup_fmap_Some in Hi as ([kw' l'] & [= -> ->] & Hz).
    apply lookup_zip_Some in Hz as [Hkw _]. simpl in *.
    assert (is_Some (replicate (length (_estimators self)) ([] : dict value) !! i))
      as [d0 Hd0].
    { apply lookup_lt_is_Some. rewrite length_replicate, <- Hl.
      by eapply lookup_lt_Some. }
    pose proof Hd0 as Hd0'. apply lookup_replicate in Hd0' as [-> _].
    rewrite (Hpfe i [] Hd0) in Hkw. injection Hkw as <-. split.
    + apply foldl_dict_set_NoDup. constructor.
    + intros name. rewrite dict_lookup_foldl_set.
      by destruct (dict_lookup name (reverse _)).
Qed.

(** X9. [set_params] touches no object that is not a sub-estimator of the
    composite, whatever comes of it.  When it returns and no object serves
    two steps, each sub-estimator is left as its own [set_params], called
    with the items addressed to its step, made it. *)
Theorem X9_set_params_effect self params (w : world) res w' :
  length (_step_names self) = length (_estimators self) →
  set_params self params w = (res, w') →
  (∀ l, l ∉ _estimators self → objs w' l = objs w l)
  ∧ (∀ r, res = Ok r → params ≠ [] → NoDup (_estimators self) →
       ∀ i l, _estimators self !! i = Some l →
         est_set_params (dict_of (addressed_to self i params)) (objs w l)
         = inr (objs w' l)).
Proof.
  intros Hlen Hrun. destruct (decide (params = [])) as [->|Hne].
  { injection Hrun as <- <-. by split. }
  rewrite set_params_unfold in Hrun by done.
  destruct (fold_result _ _ _) as [pfe|e] eqn:Hpart.
  2:{ injection Hrun as <- <-. by split. }
  destruct (for_ _ _ w) as [lres w1] eqn:Hloop.
  apply set_params_loop_effect in Hloop as [Hframe Heff].
  assert (w' = w1) as -> by (destruct lres; by simplify_eq).
  split; [done|]. intros r -> _ Hnd i l Hi.
  destruct lres as [[]|e]; [|done].
  pose proof (partition_Ok_resolves _ _ _ _ Hpart) as Hres.
  destruct (partition_spec self params (replicate (length (_estimators self)) []))
    as (pfe' & Hpart' & Hl & Hpfe); [by rewrite length_replicate, Hlen|done|].
  rewrite Hpart in Hpart'. injection Hpart' as <-.
  apply (Heff eq_refl Hnd i). { done. }
  apply Hpfe. apply lookup_replicate_2. by eapply lookup_lt_Some.
Qed.

End MoreNamespace.

(** ** More on fitting *)

Section MoreFitting.
Context `{Ext : Externals} {Sub : SubEstimator}.

Lemma setitem_length (a : list num) (index : list Z) (values a' : list num) :
  setitem a index values = Ok a' → length a' = length a.
Proof.
  unfold setitem. destruct (mapM _ index) as [positions|]; [|done].
  destruct (broadcast_to _ values) as [values'|]; [|done].
  intros [= <-]. apply length_foldl_write.
Qed.

(** An indexed assignment leaves the positions it does not name. *)
Lemma setitem_other (a : list num) (index : list Z) (values a' : list num) (k : nat) :
  setitem a index values = Ok a' →
  (∀ z, z ∈ index → normalize_index (length a) z ≠ Some k) →
  a' !! k = a !! k.
Proof.
  unfold setitem. destruct (mapM _ index) as [positions|] eqn:Hm; [|done].
  destruct (broadcast_to _ values) as [values'|]; [|done].
  intros [= <-] Hk. apply lookup_foldl_write_notin.
  intros Hin. apply list_elem_of_fmap in Hin as ([k' v] & -> & Hin).
  apply elem_of_zip_l in Hin. simpl in Hin.
  apply list_elem_of_lookup_1 in Hin as [j Hj].
  apply mapM_Some in Hm.
  destruct (Forall2_lookup_r _ _ _ _ _ Hm Hj) as (z & Hz & Hzk).
  eapply Hk; [|done]. by eapply list_elem_of_lookup_2.
Qed.

(** One round of the loop, as an equation. *)
Lemma fit_step_eq X sw ex r l scope self (w : world) :
  fit_step X sw ex r (l, scope) (self, w)
  = let Xs := take_cols X scope in
    let out := est_fit Xs r sw ex (objs w l) in
    let evf := Call_fit l Xs r sw ex out in
    match out with
    | inl msg => (Raise (Foreign msg), (self, World (objs w) (calls w ++ [evf])))
    | inr e1 =>
        let o1 := <[l:=e1]> (objs w) in
        match est_coef_ e1, coef_ self with
        | Some c, Some a =>
            match setitem a scope c with
            | Ok a' =>
                let pout := est_predict Xs e1 in
                (match pout with
                 | inl msg => Raise (Foreign msg)
                 | inr p =>
                     match arr_sub r p with
                     | Some r' => Ok r'
                     | None => Raise (ValueError OperandsCouldNotBeBroadcast)
                     end
                 end,
                 (with_coef_ a' self,
                  World o1 (calls w ++ [evf; Call_predict l Xs pout])))
            | Raise e => (Raise e, (self, World o1 (calls w ++ [evf])))
            end
        | _, _ => (Raise (AttributeError "coef_"),
                   (self, World o1 (calls w ++ [evf])))
        end
    end.
Proof.
  unfold fit_step, call_fit, call_predict, in_world, bind, deref, log, assign,
    modify, get_self, set_coef_, getattr, lift_result, subtract, ret, raise.
  simpl.
  destruct (est_fit _ _ _ _ _) as [msg|e1]; simpl; [done|].
  rewrite fn_lookup_insert.
  destruct (est_coef_ e1) as [c|]; simpl; [|done].
  destruct (coef_ self) as [a|]; simpl; [|done].
  destruct (setitem a scope c) as [a'|e]; simpl; [|done].
  rewrite fn_lookup_insert, <- app_assoc. simpl.
  destruct (est_predict _ e1) as [msg|p]; [done|]. simpl.
  by destruct (arr_sub r p).
Qed.

(** The part of [fit] after the coverage check, as an equation. *)
Lemma fit_body_eq X y sw ex self (w : world) :
  fit_body X y sw ex (self, w)
  = match for_acc (zip (_estimators self) (_estimator_feature_indices self)) y
            (fit_step X sw ex)
            (with_coef_ (replicate (n_features X) nan) self, w) with
    | (Raise e, st) => (Raise e, st)
    | (Ok _, (self1, w')) =>
        match _estimators self !! 0 with
        | None => (Raise IndexError, (self1, w'))
        | Some first =>
            if fit_intercept (objs w' first)
            then match est_intercept_ (objs w' first) with
                 | Some b => (Ok (with_intercept_ b self1),
                              (with_intercept_ b self1, w'))
                 | None => (Raise (AttributeError "intercept_"), (self1, w'))
                 end
            else (Ok (with_intercept_ zero self1), (with_intercept_ zero self1, w'))
        end
    end.
Proof.
  unfold fit_body. unfold bind at 1, get_self at 1. cbn [fst snd].
  unfold bind at 1, set_coef_ at 1, modify at 1. cbn [fst snd].
  unfold bind at 1.
  destruct (for_acc _ _ _ _) as [[r1|e] [self1 w1]]; [|done].
  unfold getitem. destruct (_estimators self !! 0) as [first|]; [|done].
  unfold bind at 1, ret at 1. unfold bind at 1, in_world, deref. cbn [fst snd].
  destruct (fit_intercept (objs w1 first)).
  - unfold getattr. by destruct (est_intercept_ (objs w1 first)).
  - done.
Qed.

(** What holds of a round of the loop whatever comes of it. *)
Lemma fit_step_any X sw ex r l scope self (w : world) res self' w' :
  fit_step X sw ex r (l, scope) (self, w) = (res, (self', w')) →
  ∃ evs, calls w' = calls w ++ evs
    ∧ set_params_calls evs = []
    ∧ (∀ l', l' ≠ l → objs w' l' = objs w l')
    ∧ length (predict_calls evs) ≤ 1
    ∧ (∀ r', res = Ok r' → length (predict_calls evs) = 1)
    ∧ (∀ a0, coef_ self = Some a0 →
         ∃ a', coef_ self' = Some a' ∧ length a' = length a0
           ∧ ∀ k, (predict_calls evs = []
                   ∨ ∀ z, z ∈ scope → normalize_index (length a0) z ≠ Some k) →
                  a' !! k = a0 !! k)
    ∧ (∀ k c msg, evs !! k = Some c → raised c = Some msg →
         res = Raise (Foreign msg) ∧ S k = length evs)
    ∧ (∀ msg, res = Raise (Foreign msg) →
         ∃ pre c, evs = pre ++ [c] ∧ raised c = Some msg).
Proof.
  rewrite fit_step_eq. cbv zeta.
  destruct (est_fit _ _ _ _ _) as [msg|e1].
  { intros [= <- <- <-]. eexists [_]. split; [done|]. simpl.
     split; [done|]. split; [done|]. split; [lia|].
    split; [done|]. split; [intros a0 Ha0; by exists a0|]. split.
    - intros [|k] c msg' Hk; [|done]. injection Hk as <-. by intros [= <-].
    - intros msg' [= <-]. by eexists [], _. }
  assert (∀ l', l' ≠ l → (<[l:=e1]> (objs w)) l' = objs w l') as Hframe.
  { intros l' Hne. by rewrite fn_lookup_insert_ne. }
  assert (∀ (res0 : result arr) k c msg,
            [Call_fit l (take_cols X scope) r sw ex (inr e1)] !! k = Some c →
            raised c = Some msg →
            res0 = Raise (Foreign msg) ∧ S k = 1) as Hquiet.
  { intros res0 [|k] c msg Hk; [|done]. by injection Hk as <-. }
  destruct (est_coef_ e1) as [c|].
  2:{ intros [= <- <- <-]. eexists [_]. split; [done|]. simpl.
       split; [done|]. split; [done|]. split; [lia|].
      split; [done|]. split; [intros a0 Ha0; by exists a0|].
      split; [apply (Hquiet _)|done]. }
  destruct (coef_ self) as [a|] eqn:Ha.
  2:{ intros [= <- <- <-]. eexists [_]. split; [done|]. simpl.
       split; [done|]. split; [done|]. split; [lia|].
      split; [done|]. split; [done|]. split; [apply (Hquiet _)|done]. }
  destruct (setitem a scope c) as [a'|e] eqn:Hset.
  - intros [= <- <- <-]. eexists [_; _]. split; [done|]. simpl.
     split; [done|]. split; [done|]. split; [lia|].
    split; [done|]. split; [|split].
    + intros a0 [= <-]. exists a'. split; [done|].
      split; [by eapply setitem_length|].
      intros k [?|Hk]; [done|]. by eapply setitem_other.
    + intros [|[|k]] c' msg Hk; [| |done]; injection Hk as <-; [done|].
      simpl. destruct (est_predict _ e1) as [msg'|p]; [|done].
      by intros [= <-].
    + intros msg Hmsg. destruct (est_predict _ e1) as [msg'|p].
      * injection Hmsg as ->. by eexists [_], _.
      * by destruct (arr_sub r p).
  - intros [= <- <- <-]. eexists [_]. split; [done|]. simpl.
     split; [done|]. split; [done|]. split; [lia|].
    split; [done|]. split; [|split].
    + intros a0 [= <-]. by exists a.
    + apply (Hquiet _).
    + intros msg [= ->]. unfold setitem in Hset. repeat case_match; done.
Qed.

Lemma fit_loop_any X sw ex steps r self (w : world) res self' w' :
  for_acc steps r (fit_step X sw ex) (self, w) = (res, (self', w')) →
  ∃ evs, calls w' = calls w ++ evs
    ∧ set_params_calls evs = []
    ∧ (∀ l, l ∉ steps.*1 → objs w' l = objs w l)
    ∧ (∀ a0, coef_ self = Some a0 →
         ∃ a', coef_ self' = Some a' ∧ length a' = length a0
           ∧ ∀ k, (∀ z, z ∈ chain (take (length (predict_calls evs)) steps).*2 →
                     normalize_index (length a0) z ≠ Some k) →
                  a' !! k = a0 !! k)
    ∧ (∀ k c msg, evs !! k = Some c → raised c = Some msg →
         res = Raise (Foreign msg) ∧ S k = length evs)
    ∧ (∀ msg, res = Raise (Foreign msg) →
         ∃ pre c, evs = pre ++ [c] ∧ raised c = Some msg).
Proof.
  revert r self w. induction steps as [|[l scope] steps IH]; intros r self w;
    cbn [for_acc].
  { intros [= <- <- <-]. exists []. rewrite app_nil_r.
    split; [done|]. split; [done|]. split; [done|]. split; [by eauto|].
    split; [by intros [|?] ???|done]. }
  intros H. apply bind_inv in H as [(e & H & ->)|(r1 & [self1 w1] & H & Hrest)].
  - apply fit_step_any in H
      as (evs & Hcalls & Hsp & Hframe & Hle & _ & Hcoef & Hraised & Hmsg).
    exists evs. split; [done|]. split; [done|]. split; [|split; [|done]].
    + intros l' [Hne _]%not_elem_of_cons. by apply Hframe.
    + intros a0 Ha0. destruct (Hcoef a0 Ha0) as (a' & Ha' & Hlen & Hkeep).
      exists a'. split; [done|]. split; [done|]. intros k Hk. apply Hkeep.
      destruct (predict_calls evs) as [|pc [|? ?]] eqn:Hpc; [by left| |simpl in Hle; lia].
      right. intros z Hz. apply Hk. simpl. unfold chain. simpl.
      by rewrite app_nil_r.
  - apply fit_step_any in H
      as (evs1 & Hcalls1 & Hsp1 & Hframe1 & _ & Hone & Hcoef1 & Hraised1 & _).
    specialize (Hone r1 eq_refl).
    apply IH in Hrest as (evs2 & Hcalls2 & Hsp2 & Hframe2 & Hcoef2 & Hraised2 & Hmsg2).
    exists (evs1 ++ evs2). split; [by rewrite Hcalls2, Hcalls1, app_assoc|].
    split; [unfold set_params_calls in *; by rewrite omap_app, Hsp1, Hsp2|].
    split; [|split; [|split]].
    + intros l' [Hne Hl']%not_elem_of_cons. rewrite Hframe2 by done.
      by apply Hframe1.
    + intros a0 Ha0. destruct (Hcoef1 a0 Ha0) as (a1 & Ha1 & Hlen1 & Hkeep1).
      destruct (Hcoef2 a1 Ha1) as (a2 & Ha2 & Hlen2 & Hkeep2). exists a2.
      split; [done|]. split; [congruence|]. intros k Hk.
      assert (length (predict_calls (evs1 ++ evs2))
              = S (length (predict_calls evs2))) as Hlen.
      { unfold predict_calls in *. by rewrite omap_app, length_app, Hone. }
      rewrite Hlen in Hk. simpl in Hk. unfold chain in Hk. simpl in Hk.
      rewrite Hkeep2, Hkeep1; [done| |].
      * right. intros z Hz. apply Hk. apply elem_of_app. by left.
      * intros z Hz. rewrite Hlen1. apply Hk. apply elem_of_app. by right.
    + intros k c msg Hk Hc. apply lookup_app_Some in Hk as [Hk|[Hge Hk]].
      * by destruct (Hraised1 k c msg Hk Hc) as [? _].
      * destruct (Hraised2 _ c msg Hk Hc) as [-> Hlast]. split; [done|].
        rewrite length_app. lia.
    + intros msg Hmsg. destruct (Hmsg2 msg Hmsg) as (pre & c & -> & Hc).
      exists (evs1 ++ pre), c. by rewrite app_assoc.
Qed.

(** X10. Whatever comes of [fit], it leaves the step names, the
    sub-estimators, the scopes and the full scope of the composite as they
    were, touches no object that is not one of its sub-estimators, and calls
    no [set_params]. *)
Theorem X10_fit_frame X y sw ex self (w : world) res self' w' :
  fit X y sw ex (self, w) = (res, (self', w')) →
  config self' = config self
  ∧ (∀ l, l ∉ _estimators self → objs w' l = objs w l)
  ∧ ∃ evs, calls w' = calls w ++ evs ∧ set_params_calls evs = [].
Proof.
  rewrite fit_unfold. case_decide as Hc.
  { intros [= <- <- <-]. split; [done|]. split; [done|]. exists [].
    by rewrite app_nil_r. }
  intros H. apply fit_body_inv in H as (lres & self1 & Hloop & H).
  pose proof (fit_loop_frame _ _ _ _ _ _ _ _ _ _ Hloop)
    as (Hn & He & Hs & Hf & _).
  apply fit_loop_any in Hloop as (evs & Hcalls & Hsp & Hframe & _).
  assert (config self1 = config self) as Hcfg.
  { unfold config. by rewrite Hn, He, Hs, Hf. }
  split; [|split; [|by exists evs]].
  - rewrite <- Hcfg. repeat case_match; destruct_and?; by simplify_eq.
  - intros l Hl. apply Hframe. intros Hin. apply Hl.
    apply list_elem_of_fmap in Hin as ([l' sc] & -> & Hin).
    by apply elem_of_zip_l in Hin.
Qed.


(** X12. What a sub-estimator raises comes out of [fit] as it is and at
    once: when a call of [fit] or [predict] on a sub-estimator raises,
    that call is the last one of the composite's [fit], which raises the
    same error, so no later step is fit and nothing is caught or retried;
    and when the composite's [fit] raises an error of a sub-estimator, it
    is the one its last call raised. *)
Theorem X12_sub_estimator_error_ends_fit X y sw ex self (w : world) res self' w' :
  fit X y sw ex (self, w) = (res, (self', w')) →
  ∃ evs, calls w' = calls w ++ evs
    ∧ (∀ k c msg, evs !! k = Some c → raised c = Some msg →
         res = Raise (Foreign msg) ∧ S k = length evs)
    ∧ (∀ msg, res = Raise (Foreign msg) →
         ∃ pre c, evs = pre ++ [c] ∧ raised c = Some msg).
Proof.
  rewrite fit_unfold. case_decide as Hc.
  { intros [= <- <- <-]. exists []. rewrite app_nil_r.
    split; [done|]. split; [by intros [|?] ???|done]. }
  intros H. apply fit_body_inv in H as (lres & self1 & Hloop & H).
  apply fit_loop_any in Hloop as (evs & Hcalls & _ & _ & _ & Hraised & Hmsg).
  exists evs. split; [done|]. destruct lres as [r1|e].
  - split.
    + intros k c msg Hk Hc'. by destruct (Hraised k c msg Hk Hc') as [? _].
    + intros msg ->. repeat case_match; destruct_and?; by simplify_eq.
  - destruct H as [-> _]. split.
    + intros k c msg Hk Hc'. by destruct (Hraised k c msg Hk Hc') as [[= ->] ?].
    + intros msg [= ->]. by apply Hmsg.
Qed.

(** The loop over the steps when every fitted sub-estimator has a [coef_]
    of the length of its scope and an [intercept_], the scopes lie within
    the composite's [coef_], and a prediction can be subtracted from a
    residual that is [good]: it ends normally, or with what a sub-estimator
    raised. *)
Lemma fit_loop_outcome X sw ex (good : arr → Prop) steps r self (w : world) a0
    res self' w' :
  (∀ Xs t sw' ex' e e', est_fit Xs t sw' ex' e = inr e' →
     (∃ c, est_coef_ e' = Some c ∧ length c = n_features Xs)
     ∧ is_Some (est_intercept_ e')) →
  (∀ scope, n_features (take_cols X scope) = length scope) →
  (∀ r scope e p, scope ∈ steps.*2 → good r →
     est_predict (take_cols X scope) e = inr p →
     ∃ r', arr_sub r p = Some r' ∧ good r') →
  good r →
  coef_ self = Some a0 →
  Forall (λ i, 0 ≤ i < Z.of_nat (length a0))%Z (chain steps.*2) →
  for_acc steps r (fit_step X sw ex) (self, w) = (res, (self', w')) →
  match res with
  | Ok _ => ∀ l, l ∈ steps.*1 → is_Some (est_intercept_ (objs w' l))
  | Raise e =>
      ∃ msg, e = Foreign msg
        ∧ ((∃ Xs t sw' ex' e0, est_fit Xs t sw' ex' e0 = inl msg)
           ∨ (∃ Xs e0, is_Some (est_coef_ e0) ∧ est_predict Xs e0 = inl msg))
  end.
Proof.
  intros Hshape Hcols. revert r self w a0.
  induction steps as [|[l scope] steps IH]; intros r self w a0 Hgood Hr Ha0 Hin;
    cbn [for_acc].
  { intros [= <- <- <-]. by intros l ?%elem_of_nil. }
  unfold chain in Hin. simpl in Hin. apply Forall_app in Hin as [Hscope Hin].
  intros H. pose proof (fit_step_eq X sw ex r l scope self w) as Heq.
  cbv zeta in Heq.
  destruct (est_fit (take_cols X scope) r sw ex (objs w l)) as [msg|e1] eqn:Hfit.
  { apply bind_inv in H as [(e & H & ->)|(r1 & [self1 w1] & H & _)];
      rewrite Heq in H; [|done].
    injection H as <- <- <-. exists msg. split; [done|]. left. eauto 10. }
  destruct (Hshape _ _ _ _ _ _ Hfit) as [(c & Hc & Hlen) Hint].
  rewrite Hc, Ha0, setitem_in_range in Heq by (by rewrite ?Hlen, ?Hcols).
  destruct (est_predict (take_cols X scope) e1) as [msg|p] eqn:Hpred.
  { apply bind_inv in H as [(e & H & ->)|(r1 & [self1 w1] & H & _)];
      rewrite Heq in H; [|done].
    injection H as <- <- <-. exists msg. split; [done|]. right.
    exists (take_cols X scope), e1. by rewrite Hc. }
  destruct (Hgood r scope e1 p) as (r' & Hsub & Hr'); [by left|done|done|].
  rewrite Hsub in Heq.
  apply bind_inv in H as [(e & H & ->)|(r1 & [self1 w1] & H & Hrest)];
    rewrite Heq in H; [done|].
  injection H as <- <- <-.
  pose proof (fit_loop_any _ _ _ _ _ _ _ _ _ _ Hrest)
    as (_ & _ & _ & Hframe & _).
  eapply IH in Hrest; [| | done | done | by rewrite length_foldl_write].
  2:{ intros r0 scope0 e0 p0 Hs0. apply Hgood. by right. }
  destruct res as [r''|e]; [|done].
  intros l' Hl'. destruct (decide (l' ∈ steps.*1)) as [|Hnot]; [by apply Hrest|].
  simpl in Hl'. apply elem_of_cons in Hl' as [->|]; [|done].
  rewrite (Hframe _ Hnot). simpl. by rewrite fn_lookup_insert.
Qed.

Lemma fit_outcome (good : arr → Prop) steps scopes (w0 : world) self w1
    X y sw ex self0 w res self' w' :
  (∀ Xs t sw' ex' e e', est_fit Xs t sw' ex' e = inr e' →
     (∃ c, est_coef_ e' = Some c ∧ length c = n_features Xs)
     ∧ is_Some (est_intercept_ e')) →
  (∀ scope, n_features (take_cols X scope) = length scope) →
  (∀ r scope e p, scope ∈ scopes → good r →
     est_predict (take_cols X scope) e = inr p →
     ∃ r', arr_sub r p = Some r' ∧ good r') →
  good y →
  __init__ steps scopes w0 = (Ok self, w1) →
  config self0 = config self →
  _full_scope self = range (n_features X) →
  fit X y sw ex (self0, w) = (res, (self', w')) →
  match res with
  | Ok r => r = self'
  | Raise e =>
      ∃ msg, e = Foreign msg
        ∧ ((∃ Xs t sw' ex' e0, est_fit Xs t sw' ex' e0 = inl msg)
           ∨ (∃ Xs e0, is_Some (est_coef_ e0) ∧ est_predict Xs e0 = inl msg))
  end.
Proof.
  intros Hshape Hcols Hgood Hy Hinit Hcfg Hfull.
  injection Hcfg as Hnames Hests Hscopes Hfs.
  pose proof (constructed_partition _ _ _ _ _ _ Hinit Hfull) as Hperm.
  pose proof Hinit as Hinv.
  apply init_inv in Hinv as (Hlen & _ & _ & Hne & -> & _). simpl in *.
  rewrite fit_unfold, decide_False by (by rewrite Hfs; intros ?).
  rewrite fit_body_eq, Hests, Hscopes.
  destruct (for_acc _ _ _ _) as [lres [self1 w1']] eqn:Hloop.
  assert ((zip steps.*2 scopes).*2 = scopes) as Hsnd.
  { apply snd_zip. rewrite length_fmap. lia. }
  assert ((zip steps.*2 scopes).*1 = steps.*2) as Hfst.
  { apply fst_zip. rewrite length_fmap. lia. }
  eapply (fit_loop_outcome _ _ _ good) in Hloop; [|done|done| |done|done|].
  2:{ rewrite Hsnd. apply Hgood. }
  2:{ rewrite Hsnd, Hperm, length_replicate. apply Forall_forall.
      intros i Hi. by apply elem_of_range in Hi. }
  destruct lres as [r1|e].
  2:{ by intros [= <- <- <-]. }
  rewrite Hfst in Hloop.
  destruct steps as [|[name first] steps]; [done|]. simpl.
  destruct (Hloop first) as [b Hb]; [simpl; by left|].
  rewrite Hb. destruct (fit_intercept (objs w1' first)); by intros [= <- <- <-].
Qed.

(** X13. Take a composite built by the constructor, a matrix with as
    many columns as the composite has indices, sub-estimators that, when
    their [fit] returns, hold a [coef_] with one entry per column they were
    fit on and an [intercept_], and a target from which the predictions on
    the scopes can be subtracted (a property [good] of arrays, such as
    their shape, holds of [y] and makes [r - p] possible and [good] again
    for a [good] residual [r] and a prediction [p]).  Then [fit] raises
    nothing of its own: it returns the composite, or it raises what a [fit]
    or a [predict] of a sub-estimator raised.  In particular the assignment
    [coef_[scope] = ...] and the subtraction of a prediction cannot fail,
    and [coef_] and [intercept_] of the sub-estimators are there when they
    are read. *)
Theorem X13_fit_raises_only_sub_estimator_errors (good : arr → Prop)
    steps scopes (w0 : world) self w1 X y sw ex self0 w res self' w' :
  (∀ Xs t sw' ex' e e', est_fit Xs t sw' ex' e = inr e' →
     (∃ c, est_coef_ e' = Some c ∧ length c = n_features Xs)
     ∧ is_Some (est_intercept_ e')) →
  (∀ scope, n_features (take_cols X scope) = length scope) →
  (∀ r scope e p, scope ∈ scopes → good r →
     est_predict (take_cols X scope) e = inr p →
     ∃ r', arr_sub r p = Some r' ∧ good r') →
  good y →
  __init__ steps scopes w0 = (Ok self, w1) →
  config self0 = config self →
  _full_scope self = range (n_features X) →
  fit X y sw ex (self0, w) = (res, (self', w')) →
  match res with
  | Ok r => r = self'
  | Raise e =>
      ∃ msg, e = Foreign msg
        ∧ ((∃ Xs t sw' ex' e0, est_fit Xs t sw' ex' e0 = inl msg)
           ∨ (∃ Xs e0, is_Some (est_coef_ e0) ∧ est_predict Xs e0 = inl msg))
  end.
Proof. apply fit_outcome. Qed.

(** X14. With sub-estimators and a target as in X13, when moreover the
    [fit] of a sub-estimator always returns and its [predict] returns once
    it is fitted, [fit] of a constructed composite on a matrix with the
    right number of columns returns the composite, with [coef_] and
    [intercept_] set. *)
Theorem X14_fit_returns (good : arr → Prop) steps scopes (w0 : world) self w1
    X y sw ex self0 w :
  (∀ Xs t sw' ex' e, ∃ e', est_fit Xs t sw' ex' e = inr e'
     ∧ (∃ c, est_coef_ e' = Some c ∧ length c = n_features Xs)
     ∧ is_Some (est_intercept_ e')) →
  (∀ Xs e, is_Some (est_coef_ e) → ∃ p, est_predict Xs e = inr p) →
  (∀ scope, n_features (take_cols X scope) = length scope) →
  (∀ r scope e p, scope ∈ scopes → good r →
     est_predict (take_cols X scope) e = inr p →
     ∃ r', arr_sub r p = Some r' ∧ good r') →
  good y →
  __init__ steps scopes w0 = (Ok self, w1) →
  config self0 = config self →
  _full_scope self = range (n_features X) →
  ∃ self' w', fit X y sw ex (self0, w) = (Ok self', (self', w'))
    ∧ (∃ a, coef_ self' = Some a ∧ length a = n_features X)
    ∧ is_Some (intercept_ self').
Proof.
  intros Hfit Hpred Hcols Hgood Hy Hinit Hcfg Hfull.
  destruct (fit X y sw ex (self0, w)) as [res [self' w']] eqn:H.
  pose proof H as Hout.
  eapply (fit_outcome good) in Hout; [| |done..].
  2:{ intros Xs t sw' ex' e e' He.
      destruct (Hfit Xs t sw' ex' e) as (e'' & He'' & Hc).
      by assert (e'' = e') as <- by congruence. }
  destruct res as [r|e].
  - subst r. exists self', w'. split; [done|].
    injection Hcfg as _ _ _ Hfs.
    rewrite fit_unfold, decide_False in H by (by rewrite Hfs; intros ?).
    apply fit_body_inv in H as (lres & self1 & Hloop & H).
    apply fit_loop_any in Hloop as (evs & _ & _ & _ & Hcoef & _).
    destruct (Hcoef (replicate (n_features X) nan) eq_refl) as (a & Ha & Hlen & _).
    rewrite length_replicate in Hlen.
    repeat case_match; destruct_and?; simplify_eq; simpl; eauto.
  - destruct Hout as (msg & -> & [(Xs & t & sw' & ex' & e0 & He)|(Xs & e0 & Hc & He)]).
    + destruct (Hfit Xs t sw' ex' e0) as (e' & He' & _). congruence.
    + destruct (Hpred Xs e0 Hc) as (p & Hp). congruence.
Qed.

(** A round of the loop reads nothing of the composite but its [coef_]. *)
Lemma fit_loop_sim X sw ex steps r self1 self2 (w : world) res self1' w' :
  config self1 = config self2 →
  coef_ self1 = coef_ self2 →
  for_acc steps r (fit_step X sw ex) (self1, w) = (res, (self1', w')) →
  ∃ self2', for_acc steps r (fit_step X sw ex) (self2, w) = (res, (self2', w'))
    ∧ config self2' = config self2
    ∧ coef_ self2' = coef_ self1'
    ∧ intercept_ self2' = intercept_ self2.
Proof.
  revert r self1 self2 w. induction steps as [|[l scope] steps IH];
    intros r self1 self2 w Hcfg Hcoef; cbn [for_acc].
  { intros [= <- <- <-]. by exists self2. }
  unfold bind at 1 2. rewrite !fit_step_eq. cbv zeta. rewrite <- Hcoef.
  destruct (est_fit _ _ _ _ _) as [msg|e1]; simpl.
  { intros [= <- <- <-]. by exists self2. }
  destruct (est_coef_ e1) as [c|]; simpl.
  2:{ intros [= <- <- <-]. by exists self2. }
  destruct (coef_ self1) as [a|] eqn:Ha; simpl.
  2:{ intros [= <- <- <-]. exists self2. repeat split; congruence. }
  destruct (setitem a scope c) as [a'|e]; simpl.
  2:{ intros [= <- <- <-]. exists self2. repeat split; congruence. }
  destruct (est_predict _ e1) as [msg|p]; simpl.
  { intros [= <- <- <-]. by exists (with_coef_ a' self2). }
  destruct (arr_sub r p) as [r1|]; simpl.
  2:{ intros [= <- <- <-]. by exists (with_coef_ a' self2). }
  intros H. eapply (IH _ _ (with_coef_ a' self2)) in H as (self2' & ? & ? & ? & ?);
    [by exists self2'|done|done].
Qed.

(** X15. [fit] starts afresh: what it does and what it returns depend
    on the composite only through its step names, sub-estimators and
    scopes, not on a [coef_] or [intercept_] left by an earlier [fit].  A
    fitted composite that is fit again ends as a new one would, given the
    same sub-estimator objects in the same state. *)
Theorem X15_fit_ignores_earlier_fit X y sw ex self1 self2 (w : world) r self' w' :
  config self1 = config self2 →
  fit X y sw ex (self1, w) = (Ok r, (self', w')) →
  fit X y sw ex (self2, w) = (Ok r, (self', w')).
Proof.
  intros Hcfg. pose proof Hcfg as Hcfg'.
  injection Hcfg' as Hnames Hests Hscopes Hfs.
  rewrite !fit_unfold, <- Hfs. case_decide; [done|].
  rewrite !fit_body_eq, <- Hests, <- Hscopes.
  destruct (for_acc (zip (_estimators self1) (_estimator_feature_indices self1))
              y (fit_step X sw ex)
              (with_coef_ (replicate (n_features X) nan) self1, w))
    as [lres [s1 w1]] eqn:Hloop.
  pose proof (fit_loop_frame _ _ _ _ _ _ _ _ _ _ Hloop) as Hfr.
  eapply (fit_loop_sim _ _ _ _ _ _ (with_coef_ (replicate (n_features X) nan) self2))
    in Hloop as (s2 & -> & Hc2 & Hcoef2 & Hi2); [|done..].
  destruct lres as [r1|e]; [|done].
  assert (∀ b, with_intercept_ b s2 = with_intercept_ b s1) as Hsame.
  { intros b. destruct Hfr as (Hn & He & Hs & Hf & _).
    injection Hc2 as Hn2 He2 Hs2 Hf2. simpl in *.
    unfold with_intercept_. f_equal; congruence. }
  destruct (_estimators self1 !! 0) as [first|]; [|done].
  destruct (fit_intercept (objs w1 first)).
  - destruct (est_intercept_ (objs w1 first)) as [b|]; [|done].
    rewrite Hsame. done.
  - rewrite Hsame. done.
Qed.

(** X16. For a composite built by the constructor, the coverage error
    of [fit] is about the number of columns alone: it is raised exactly
    when [X] has not as many columns as the scopes have indices, however
    the indices are split over the steps. *)
Theorem X16_coverage_error_iff_wrong_width steps scopes (w0 : world) self w1
    X y sw ex self0 (w : world) :
  __init__ steps scopes w0 = (Ok self, w1) →
  config self0 = config self →
  (fit X y sw ex (self0, w)).1 = Raise (ValueError DoesNotCoverAllFeatures)
  ↔ n_features X ≠ length (chain scopes).
Proof.
  intros Hinit Hcfg. injection Hcfg as _ _ _ Hfs.
  apply init_inv in Hinit as (_ & Hov & _ & _ & -> & _). simpl in Hfs.
  unfold overlap_or_not_continuous in Hov. apply orb_false_iff in Hov as [H1 H2].
  apply bool_decide_eq_false, dec_stable in H1.
  apply bool_decide_eq_false, dec_stable in H2.
  assert (_full_scope self0 = range (length (chain scopes))) as Hfull.
  { rewrite Hfs, H2. f_equal. rewrite H1.
    apply Permutation_length, sorted_Permutation. }
  rewrite fit_unfold, Hfull. case_decide as Hc.
  - split; [|done]. intros _ Heq. apply Hc. by rewrite Heq.
  - split.
    + intros H. by apply fit_body_not_coverage_error in H.
    + intros Hne. destruct Hne. apply (f_equal length) in Hc.
      by rewrite !length_range in Hc.
Qed.

(** X17. When the object of the first step is also the object of a
    later step, the constructor has switched its [fit_intercept] off, and
    a [fit] that returns (with sub-estimators whose [fit] keeps their
    [fit_intercept]) sets the composite's [intercept_] to 0.0: such a
    composite fits no intercept at all. *)
Theorem X17_shared_first_object_fits_no_intercept steps scopes (w0 : world) self w1
    X y sw ex first r self' w' :
  (∀ Xs t sw' ex' e e',
     est_fit Xs t sw' ex' e = inr e' → fit_intercept e' = fit_intercept e) →
  __init__ steps scopes w0 = (Ok self, w1) →
  _estimators self !! 0 = Some first →
  first ∈ drop 1 (_estimators self) →
  fit X y sw ex (self, w1) = (Ok r, (self', w')) →
  intercept_ self' = Some zero.
Proof.
  intros Hkeep Hinit Hfirst Hlater Hfit.
  apply init_inv in Hinit as (_ & _ & _ & _ & -> & _ & Hin & _). simpl in *.
  pose proof (fit_fit_intercept _ _ _ _ _ _ _ _ _ Hkeep Hfit first) as Hfi.
  rewrite (Hin first Hlater) in Hfi. simpl in Hfi.
  rewrite fit_unfold in Hfit. case_decide; [done|].
  rewrite fit_body_eq in Hfit. simpl in Hfit.
  destruct (for_acc _ _ _ _) as [[r1|e] [s1 w1']]; [|done].
  rewrite Hfirst in Hfit. destruct (fit_intercept (objs w1' first)) eqn:Hf.
  - destruct (est_intercept_ (objs w1' first)); [|done].
    injection Hfit as <- <- <-. congruence.
  - by injection Hfit as <- <- <-.
Qed.

End MoreFitting.

(** * Runs on the concrete instance *)

Import Toy.

Lemma C1_witness :
  fit X4 y2 None tt (self_ab, w_ab) = (Ok fitted_ab, (fitted_ab, w_fitted_ab))
  ∧ ∃ evs, calls w_fitted_ab = calls w_ab ++ evs
    ∧ evs `prefix_of`
        running_residual_calls X4 None tt (zip [0; 1] scopes_ab) y2 (objs w_ab)
    ∧ ((∃ r, Ok fitted_ab = Ok r) ∨ (∃ msg, Ok fitted_ab = Raise (Foreign msg)) →
       evs = running_residual_calls X4 None tt (zip [0; 1] scopes_ab) y2 (objs w_ab))
    ∧ (∀ i c, fit_calls evs !! i = Some c →
         ∃ l scope t, zip [0; 1] scopes_ab !! i = Some (l, scope)
           ∧ residual_after y2 (take i (predictions evs)) = Some t
           ∧ c = (l, take_cols X4 scope, t, None, tt))
    ∧ (∀ i c, predict_calls evs !! i = Some c →
         ∃ l scope, zip [0; 1] scopes_ab !! i = Some (l, scope)
           ∧ c = (l, take_cols X4 scope))
    ∧ (∀ c, fit_calls evs !! 0 = Some c → c.1.1.2 = y2)
    ∧ (∀ (arr_add : arr → arr → arr) (arr_zero : arr),
         (∀ a, arr_sub a arr_zero = Some a) →
         (∀ a b c ab, arr_sub a b = Some ab →
            arr_sub ab c = arr_sub a (arr_add b c)) →
         ∀ i c, fit_calls evs !! i = Some c →
           arr_sub y2 (foldr arr_add arr_zero (take i (predictions evs)))
           = Some c.1.1.2)
    ∧ (∀ r, Ok fitted_ab = Ok r →
         length (fit_calls evs) = 2 ∧ length (predictions evs) = 2).
Proof.
  assert (fit X4 y2 None tt (self_ab, w_ab)
          = (Ok fitted_ab, (fitted_ab, w_fitted_ab))) as H
    by (vm_compute; reflexivity).
  split; [exact H|].
  exact (C1_steps_fit_in_order_against_running_residual _ _ _ _ _ _ _ _ _ H).
Defined.

(** In floating point the target of a step is not [y] minus the sum of
    the earlier predictions.  With [y = [1.0]] and the predictions
    [[1e16]] and [[-1e16]] of the first two steps, the third step is fit
    against [(1.0 - 1e16) - (-1e16) = 0.0], while
    [1.0 - (1e16 + (-1e16)) = 1.0]. *)
Lemma C1_counterexample :
  __init__ FloatRun.steps FloatRun.scopes FloatRun.w0
  = (Ok FloatRun.self0, FloatRun.w1)
  ∧ ∃ r self' w',
      fit (Sub := FloatRun.sub) FloatRun.X FloatRun.y None tt
        (FloatRun.self0, FloatRun.w1) = (Ok r, (self', w'))
      ∧ predictions (calls w')
        = [[1e16%float]; [(-1e16)%float]; [0%float]]
      ∧ fit_calls (calls w') !! 2
        = Some (2, [[1%float]], [0%float], None, tt)
      ∧ FloatRun.fsub FloatRun.y (FloatRun.fadd [1e16%float] [(-1e16)%float])
        = Some [1%float]
      ∧ [0%float] ≠ [1%float].
Proof.
  split; [vm_compute; reflexivity|].
  destruct (fit (Sub := FloatRun.sub) FloatRun.X FloatRun.y None tt
              (FloatRun.self0, FloatRun.w1)) as [res [self' w']] eqn:H.
  vm_compute in H. injection H as <- <- <-.
  eexists _, _, _. split; [reflexivity|].
  split; [vm_compute; reflexivity|]. split; [vm_compute; reflexivity|].
  split; [vm_compute; reflexivity|].
  intros H.
  apply (f_equal (λ l, match l with
                       | [x] => PrimFloat.eqb x 0%float
                       | _ => false
                       end)) in H.
  vm_compute in H. discriminate.
Qed.

Lemma toy_fit_shape :
  ∀ Xs t sw' ex' (e e' : estimator),
    est_fit Xs t sw' ex' e = inr e' →
    ∃ c, est_coef_ e' = Some c ∧ length c = n_features Xs.
Proof.
  intros Xs t sw' ex' e e' [= <-]. eexists. split; [reflexivity|].
  apply length_fmap.
Qed.

Lemma toy_take_cols (X : mat) :
  ∀ scope, n_features (take_cols X scope) = length scope.
Proof. intros scope. apply length_fmap. Qed.

Lemma C2_witness :
  __init__ steps_ab scopes_ab w0 = (Ok self_ab, w_ab)
  ∧ fit X4 y2 None tt (self_ab, w_ab) = (Ok fitted_ab, (fitted_ab, w_fitted_ab))
  ∧ ∃ evs a, calls w_fitted_ab = calls w_ab ++ evs
    ∧ coef_ fitted_ab = Some a ∧ length a = n_features X4
    ∧ chain scopes_ab ≡ₚ range (n_features X4)
    ∧ (∀ i l scope, _estimators self_ab !! i = Some l → scopes_ab !! i = Some scope →
         ∃ e c, fitted evs !! i = Some (inr e) ∧ est_coef_ e = Some c
           ∧ getitems a scope = Some c
           ∧ (l ∉ drop (S i) (_estimators self_ab) →
              objs w_fitted_ab l = e
              ∧ est_coef_ (objs w_fitted_ab l) = getitems a scope))
    ∧ (∀ v, v ∈ a →
         ∃ i e c, fitted evs !! i = Some (inr e) ∧ est_coef_ e = Some c ∧ v ∈ c).
Proof.
  assert (__init__ steps_ab scopes_ab w0 = (Ok self_ab, w_ab)) as Hinit
    by (vm_compute; reflexivity).
  assert (fit X4 y2 None tt (self_ab, w_ab)
          = (Ok fitted_ab, (fitted_ab, w_fitted_ab))) as Hfit
    by (vm_compute; reflexivity).
  split; [exact Hinit|]. split; [exact Hfit|].
  exact (C2_coef_assembled_from_fitted_steps steps_ab scopes_ab w0 self_ab w_ab
           X4 y2 None tt self_ab w_ab fitted_ab fitted_ab w_fitted_ab
           toy_fit_shape (toy_take_cols X4) Hinit eq_refl Hfit).
Defined.

(** With one object as the sub-estimator of both steps, the composite's
    [coef_] at the first step's scope is what the first fit produced, while
    the sub-estimator's own [coef_] is what the second fit left. *)
Lemma C2_counterexample :
  __init__ steps_aa scopes_aa w0 = (Ok self_aa, w_aa)
  ∧ fit X2 y2 None tt (self_aa, w_aa) = (Ok fitted_aa, (fitted_aa, w_fitted_aa))
  ∧ _estimators self_aa !! 0 = Some 0
  ∧ _estimator_feature_indices self_aa !! 0 = Some [0%Z]
  ∧ coef_ fitted_aa = Some [3; 5]%Z
  ∧ getitems [3; 5]%Z [0%Z] = Some [3%Z]
  ∧ est_coef_ (objs w_fitted_aa 0) = Some [5%Z]
  ∧ getitems [3; 5]%Z [0%Z] ≠ est_coef_ (objs w_fitted_aa 0).
Proof. repeat split; try (vm_compute; reflexivity). vm_compute. discriminate. Qed.

Lemma C3_witness :
  overlap_or_not_continuous scopes_ab = false
  ∧ ∃ n : nat, sorted (chain scopes_ab) = range n.
Proof.
  assert (overlap_or_not_continuous scopes_ab = false) as H
    by (vm_compute; reflexivity).
  split; [exact H|].
  exact (proj1 (proj1 (C3_scope_check_accepts_exactly_partitions
                         steps_ab scopes_ab w0)) H).
Defined.

Lemma C4_witness :
  __init__ steps_ab scopes_ab w0 = (Ok self_ab, w_ab)
  ∧ (∀ i l, 1 ≤ i → _estimators self_ab !! i = Some l →
       fit_intercept (objs w_ab l) = false)
  ∧ (∀ first, _estimators self_ab !! 0 = Some first →
       first ∉ drop 1 (_estimators self_ab) →
       objs w_ab first = objs w0 first
       ∧ fit_intercept (objs w_ab first) = fit_intercept (objs w0 first))
  ∧ (∀ l, l ∉ _estimators self_ab → objs w_ab l = objs w0 l)
  ∧ ((∀ Xs t sw ex (e e' : estimator), est_fit Xs t sw ex e = inr e' →
        fit_intercept e' = fit_intercept e) →
     ∀ X y sw ex self0 w res self' w',
       fit X y sw ex (self0, w) = (res, (self', w')) →
       ∀ l, fit_intercept (objs w' l) = fit_intercept (objs w l)).
Proof.
  assert (__init__ steps_ab scopes_ab w0 = (Ok self_ab, w_ab)) as Hinit
    by (vm_compute; reflexivity).
  split; [exact Hinit|].
  exact (C4_later_steps_lose_fit_intercept steps_ab scopes_ab w0 self_ab w_ab Hinit).
Defined.

(** With one object as the sub-estimator of both steps, the first step's
    [fit_intercept] is switched off too. *)
Lemma C4_counterexample :
  __init__ steps_aa scopes_aa w0 = (Ok self_aa, w_aa)
  ∧ _estimators self_aa !! 0 = Some 0
  ∧ fit_intercept (objs w0 0) = true
  ∧ fit_intercept (objs w_aa 0) = false.
Proof. repeat split; vm_compute; reflexivity. Qed.

Lemma C5_witness :
  fit X4 y2 None tt (self_ab, w_ab) = (Ok fitted_ab, (fitted_ab, w_fitted_ab))
  ∧ fitted_ab = fitted_ab
  ∧ ∃ first, _estimators fitted_ab !! 0 = Some first
    ∧ is_Some (intercept_ fitted_ab)
    ∧ intercept_ fitted_ab = if fit_intercept (objs w_fitted_ab first)
                             then est_intercept_ (objs w_fitted_ab first)
                             else Some zero.
Proof.
  assert (fit X4 y2 None tt (self_ab, w_ab)
          = (Ok fitted_ab, (fitted_ab, w_fitted_ab))) as H
    by (vm_compute; reflexivity).
  split; [exact H|].
  exact (C5_intercept_is_first_steps _ _ _ _ _ _ _ _ _ H).
Defined.

Lemma C6_witness :
  _full_scope self_ab ≠ range (n_features X3)
  ∧ fit X3 y2 None tt (self_ab, w_ab)
    = (Raise (ValueError DoesNotCoverAllFeatures), (self_ab, w_ab)).
Proof.
  assert (_full_scope self_ab ≠ range (n_features X3)) as H
    by (vm_compute; discriminate).
  split; [exact H|].
  exact (proj1 (C6_fit_revalidates_coverage X3 y2 None tt self_ab w_ab) H).
Defined.

Lemma C7_witness :
  length steps_nested = length scopes_gap
  ∧ overlap_or_not_continuous scopes_gap = true
  ∧ __init__ steps_nested scopes_gap w0
    = (Raise (ValueError CanNotOverlapAndMustBeContinuous), w0).
Proof.
  assert (overlap_or_not_continuous scopes_gap = true) as H
    by (vm_compute; reflexivity).
  split; [reflexivity|]. split; [exact H|].
  exact (proj1 (proj2 (C7_scope_check_precedes_nested_check
                         steps_nested scopes_gap w0)) eq_refl H).
Defined.

(** A step is a composite and the scopes have a gap, the lengths match:
    the error is the one about the scopes. *)
Lemma C7_counterexample :
  length steps_nested = length scopes_gap
  ∧ Exists (nested w0) steps_nested
  ∧ overlap_or_not_continuous scopes_gap = true
  ∧ __init__ steps_nested scopes_gap w0
    = (Raise (ValueError CanNotOverlapAndMustBeContinuous), w0)
  ∧ (__init__ steps_nested scopes_gap w0).1
    ≠ Raise (ValueError CannotAddStepwiseEstimator).
Proof.
  split; [reflexivity|]. split; [right; left; reflexivity|].
  split; [vm_compute; reflexivity|]. split; [vm_compute; reflexivity|].
  vm_compute. discriminate.
Qed.

Lemma C10_witness :
  fit X3 y2 None tt (fitted_ab, w_fitted_ab)
  = (Raise (ValueError DoesNotCoverAllFeatures), (fitted_ab, w_fitted_ab))
  ∧ coef_ fitted_ab = coef_ fitted_ab ∧ intercept_ fitted_ab = intercept_ fitted_ab
  ∧ fitted_ab = fitted_ab ∧ calls w_fitted_ab = calls w_fitted_ab
  ∧ w_fitted_ab = w_fitted_ab.
Proof.
  assert (fit X3 y2 None tt (fitted_ab, w_fitted_ab)
          = (Raise (ValueError DoesNotCoverAllFeatures), (fitted_ab, w_fitted_ab)))
    as H by (vm_compute; reflexivity).
  split; [exact H|].
  exact (C10_coverage_error_leaves_state_untouched _ _ _ _ _ _ _ _ H).
Defined.

Lemma C8_witness :
  length (_step_names self_ab) = length (_estimators self_ab)
  ∧ set_params self_ab [] w_ab = (Ok self_ab, w_ab)
  ∧ ∀ params res w', params ≠ [] → set_params self_ab params w_ab = (res, w') →
      let expected :=
        imap (λ i l, (l, dict_of (addressed_to self_ab i params)))
          (_estimators self_ab) in
      (Forall (resolves self_ab) params →
         ∃ evs, calls w' = calls w_ab ++ evs
           ∧ length (set_params_calls evs) = length evs
           ∧ set_params_calls evs `prefix_of` expected
           ∧ (∀ r, res = Ok r → r = self_ab ∧ set_params_calls evs = expected)
           ∧ (∀ e, res = Raise e → ∃ msg, e = Foreign msg))
      ∧ (¬ Forall (resolves self_ab) params →
         res = Raise (ValueError NotInTuple) ∧ w' = w_ab).
Proof.
  split; [reflexivity|].
  exact (C8_set_params_routes_by_step self_ab w_ab eq_refl).
Defined.

(** One parameter, addressed to step "a": the sub-estimator of step "b",
    to which nothing is addressed, is called all the same, with an empty
    mapping. *)
Lemma C8_counterexample :
  addressed_to self_ab 1 [("a__alpha", 5%Z)] = []
  ∧ (set_params self_ab [("a__alpha", 5%Z)] w_ab).1 = Ok self_ab
  ∧ set_params_calls (calls (set_params self_ab [("a__alpha", 5%Z)] w_ab).2)
    = [(0, [("alpha", 5%Z)]); (1, [])].
Proof. repeat split; vm_compute; reflexivity. Qed.

Lemma toy_dict_set_same (k : string) (v : Z) (d : dict Z) :
  dict_lookup k d = Some v → dict_set k v d = d.
Proof.
  induction d as [|[k' v'] d IH]; simpl; [done|].
  case_decide; [by intros [= ->]|]. intros Hk. by rewrite IH.
Qed.

Lemma toy_set_params_same (e : estimator) (kvs : list (string * Z)) :
  (∀ k v, (k, v) ∈ kvs → dict_lookup k (est_hyper e) = Some v) →
  foldl set_param (inr e) kvs = inr e.
Proof.
  induction kvs as [|[k v] kvs IH]; simpl; [done|]. intros H.
  rewrite (H k v) by (by left). rewrite toy_dict_set_same by (apply H; by left).
  destruct e. simpl in *. apply IH. intros k' v' Hin. apply H. by right.
Qed.

Lemma toy_round_trip :
  ∀ (deep : bool) (e : estimator),
    ∃ e', est_set_params (current_params deep e) e = inr e' ∧ same_params e' e.
Proof.
  intros deep e. exists e. split; [|done]. simpl. apply toy_set_params_same.
  intros k v (k' & [= -> ->] & Hk)%list_elem_of_fmap. simpl in *.
  unfold dict_get, keys in *. clear deep.
  induction (est_hyper e) as [|[k1 v1] d IH]; simpl in *.
  { by apply elem_of_nil in Hk. }
  case_decide; [done|]. apply IH.
  apply elem_of_cons in Hk as [?|?]; [congruence|done].
Qed.

Lemma C9_witness :
  NoDup (_step_names self_ab)
  ∧ Forall clean (_step_names self_ab)
  ∧ NoDup (_get_param_names self_ab w_ab)
  ∧ ∀ deep, ∃ d w',
      get_params self_ab deep w_ab = (Ok d, w_ab)
      ∧ d.*1 = _get_param_names self_ab w_ab
      ∧ set_params self_ab d w_ab = (Ok self_ab, w')
      ∧ get_params self_ab deep w' = (Ok d, w')
      ∧ ∀ deep', (get_params self_ab deep' w').1 = (get_params self_ab deep' w_ab).1.
Proof.
  assert (NoDup (_step_names self_ab)) as Hnd
    by (apply (bool_decide_unpack _); vm_compute; exact I).
  assert (Forall clean (_step_names self_ab)) as Hclean
    by (repeat constructor).
  assert (∀ l, l ∈ _estimators self_ab →
            NoDup (est_get_param_names (objs w_ab l))) as Hnat.
  { intros l [->|[->|Hl%elem_of_nil]%elem_of_cons]%elem_of_cons; [| |done];
      apply (bool_decide_unpack _); vm_compute; exact I. }
  split; [exact Hnd|]. split; [exact Hclean|].
  destruct (C9_qualified_names_unique_and_round_trip self_ab w_ab Hnd Hclean Hnat)
    as [H1 H2].
  split; [exact H1|]. exact (H2 eq_refl toy_round_trip).
Defined.

(** Step names "a" and "a_" are unique, and so are the native parameter
    names "_b" of the one and "b" of the other; both qualified names are
    "a___b". *)
Lemma C9_counterexample :
  __init__ steps_collide scopes_aa w0 = (Ok self_collide, w_collide)
  ∧ NoDup (_step_names self_collide)
  ∧ est_get_param_names (objs w_collide 3) = ["_b"]
  ∧ est_get_param_names (objs w_collide 4) = ["b"]
  ∧ _get_param_names self_collide w_collide = ["a___b"; "a___b"]
  ∧ ¬ NoDup (_get_param_names self_collide w_collide).
Proof.
  split; [vm_compute; reflexivity|].
  split; [apply (bool_decide_unpack _); vm_compute; exact I|].
  split; [vm_compute; reflexivity|]. split; [vm_compute; reflexivity|].
  split; [vm_compute; reflexivity|].
  intros H. apply (bool_decide_pack _) in H. vm_compute in H. exact H.
Qed.

(** ** Runs for the further properties *)

Lemma X1_witness :
  length steps_ab = length scopes_ab
  ∧ (∃ n : nat, sorted (chain scopes_ab) = range n)
  ∧ ¬ Exists (nested w0) steps_ab
  ∧ steps_ab ≠ [].
Proof.
  apply (proj1 (proj1 (X1_constructor_returns_or_raises_unchanged
                         steps_ab scopes_ab w0))).
  exists self_ab, w_ab. vm_compute; reflexivity.
Defined.

Lemma X2_witness :
  __init__ steps_ab scopes_ab w0 = (Ok self_ab, w_ab)
  ∧ _step_names self_ab = steps_ab.*1
  ∧ _estimators self_ab = steps_ab.*2
  ∧ _estimator_feature_indices self_ab = scopes_ab
  ∧ _full_scope self_ab = range (length (chain scopes_ab))
  ∧ coef_ self_ab = None ∧ intercept_ self_ab = None
  ∧ calls w_ab = calls w0
  ∧ (∀ l, is_StepwiseEstimator (objs w_ab l) = is_StepwiseEstimator (objs w0 l)
        ∧ est_coef_ (objs w_ab l) = est_coef_ (objs w0 l)
        ∧ est_intercept_ (objs w_ab l) = est_intercept_ (objs w0 l)
        ∧ est_hyper (objs w_ab l) = est_hyper (objs w0 l))
  ∧ (length steps_ab = 1 → ∀ l, objs w_ab l = objs w0 l).
Proof.
  assert (__init__ steps_ab scopes_ab w0 = (Ok self_ab, w_ab)) as H
    by (vm_compute; reflexivity).
  split; [exact H|].
  exact (X2_constructed_composite steps_ab scopes_ab w0 self_ab w_ab H).
Defined.

Lemma X3_witness :
  chain scopes_ab ≡ₚ chain [[3; 0]; []; [2; 1]]%Z
  ∧ overlap_or_not_continuous scopes_ab
    = overlap_or_not_continuous [[3; 0]; []; [2; 1]]%Z.
Proof.
  assert (chain scopes_ab ≡ₚ chain [[3; 0]; []; [2; 1]]%Z) as H
    by (apply (bool_decide_unpack _); vm_compute; exact I).
  split; [exact H|].
  exact (X3_scope_check_ignores_order scopes_ab [[3; 0]; []; [2; 1]]%Z H).
Defined.

Lemma X4_witness :
  _step_names self_ab !! 1 = Some "b"
  ∧ (∀ j, j < 1 → _step_names self_ab !! j ≠ Some "b")
  ∧ clean "b"
  ∧ _get_step_param_name self_ab ("b" +:+ dunder +:+ "x__y") = Ok (1, "x__y").
Proof.
  assert (_step_names self_ab !! 1 = Some "b") as H1 by reflexivity.
  assert (∀ j, j < 1 → _step_names self_ab !! j ≠ Some "b") as H2.
  { intros [|j] Hj; [discriminate|lia]. }
  assert (clean "b") as H3 by reflexivity.
  split; [exact H1|]. split; [exact H2|]. split; [exact H3|].
  exact (X4_qualified_name_resolves self_ab 1 "b" "x__y" H1 H2 H3).
Defined.

(** The name ["a___b"] on the steps ["a"] and ["a_"]: it is cut after
    ["a"], so it goes to the first step with the native name ["_b"]. *)
Lemma X5_witness :
  let step_name := hd EmptyString (split_dunder "a___b") in
  ("a___b" = step_name ∧ split_dunder "a___b" = ["a___b"]
   ∨ ∃ rest, "a___b" = step_name +:+ dunder +:+ rest ∧ clean step_name)
  ∧ match _get_step_param_name self_collide "a___b" with
    | Ok (i, param_name) =>
        _step_names self_collide !! i = Some step_name
        ∧ (∀ j, j < i → _step_names self_collide !! j ≠ Some step_name)
        ∧ ("a___b" = step_name ∧ param_name = EmptyString
           ∨ "a___b" = step_name +:+ dunder +:+ param_name)
    | Raise e =>
        e = ValueError NotInTuple ∧ step_name ∉ _step_names self_collide
    end.
Proof. exact (X5_resolved_name_decomposes self_collide "a___b"). Defined.

Lemma X6_witness :
  length (_step_names self_ab) = length (_estimators self_ab)
  ∧ (get_params self_ab true w_ab).2 = w_ab
  ∧ (Forall (name_resolves self_ab) (_get_param_names self_ab w_ab) →
       ∃ d, (get_params self_ab true w_ab).1 = Ok d
         ∧ NoDup d.*1
         ∧ ∀ q, q ∈ d.*1 ↔ q ∈ _get_param_names self_ab w_ab)
  ∧ (¬ Forall (name_resolves self_ab) (_get_param_names self_ab w_ab) →
       (get_params self_ab true w_ab).1 = Raise (ValueError NotInTuple)).
Proof.
  assert (length (_step_names self_ab) = length (_estimators self_ab)) as H
    by reflexivity.
  split; [exact H|].
  exact (X6_get_params_returns_iff_names_resolve self_ab true w_ab H).
Defined.

Lemma X7_witness :
  NoDup (_step_names self_ab)
  ∧ Forall clean (_step_names self_ab)
  ∧ (∀ l, l ∈ _estimators self_ab → NoDup (est_get_param_names (objs w_ab l)))
  ∧ get_params self_ab true w_ab = (Ok (qualified_params self_ab true w_ab), w_ab)
  ∧ ∀ i step_name l name,
      _step_names self_ab !! i = Some step_name →
      _estimators self_ab !! i = Some l →
      name ∈ est_get_param_names (objs w_ab l) →
      dict_lookup (step_name +:+ dunder +:+ name) (qualified_params self_ab true w_ab)
      = Some (dict_get pyNone name (est_get_params true (objs w_ab l))).
Proof.
  assert (NoDup (_step_names self_ab)) as Hnd
    by (apply (bool_decide_unpack _); vm_compute; exact I).
  assert (Forall clean (_step_names self_ab)) as Hclean
    by (repeat constructor).
  assert (∀ l, l ∈ _estimators self_ab →
            NoDup (est_get_param_names (objs w_ab l))) as Hnat.
  { intros l [->|[->|Hl%elem_of_nil]%elem_of_cons]%elem_of_cons; [| |done];
      apply (bool_decide_unpack _); vm_compute; exact I. }
  split; [exact Hnd|]. split; [exact Hclean|]. split; [exact Hnat|].
  exact (X7_get_params_reads_sub_estimators self_ab true w_ab Hnd Hclean Hnat).
Defined.

Lemma X8_witness :
  length (_step_names self_ab) = length (_estimators self_ab)
  ∧ [("a__alpha", 5%Z); ("b__beta", 7%Z)] ≠ []
  ∧ set_params self_ab [("a__alpha", 5%Z); ("b__beta", 7%Z)] w_ab
    = (Ok self_ab,
       (set_params self_ab
          [("a__alpha", 5%Z); ("b__beta", 7%Z)] w_ab).2)
  ∧ ∃ evs,
      calls (set_params self_ab
               [("a__alpha", 5%Z); ("b__beta", 7%Z)] w_ab).2
      = calls w_ab ++ evs
      ∧ (set_params_calls evs).*1 = _estimators self_ab
      ∧ ∀ i l kw, set_params_calls evs !! i = Some (l, kw) →
          NoDup kw.*1
          ∧ ∀ name,
              dict_lookup name kw
              = dict_lookup name
                  (reverse (addressed_to self_ab i
                     [("a__alpha", 5%Z); ("b__beta", 7%Z)])).
Proof.
  assert (length (_step_names self_ab) = length (_estimators self_ab)) as H1
    by reflexivity.
  assert ([("a__alpha", 5%Z); ("b__beta", 7%Z)] ≠ []) as H2
    by discriminate.
  assert (set_params self_ab
            [("a__alpha", 5%Z); ("b__beta", 7%Z)] w_ab
          = (Ok self_ab,
             (set_params self_ab
                [("a__alpha", 5%Z); ("b__beta", 7%Z)] w_ab).2))
    as H3 by (vm_compute; reflexivity).
  split; [exact H1|]. split; [exact H2|]. split; [exact H3|].
  exact (X8_set_params_last_item_wins self_ab _ w_ab self_ab _ H1 H2 H3).
Defined.

Lemma X9_witness :
  length (_step_names self_ab) = length (_estimators self_ab)
  ∧ set_params self_ab [("a__alpha", 5%Z); ("b__beta", 7%Z)] w_ab
    = (Ok self_ab,
       (set_params self_ab [("a__alpha", 5%Z); ("b__beta", 7%Z)] w_ab).2)
  ∧ (∀ l, l ∉ _estimators self_ab →
       objs (set_params self_ab [("a__alpha", 5%Z); ("b__beta", 7%Z)] w_ab).2 l
       = objs w_ab l)
  ∧ (∀ r, Ok self_ab = Ok r →
       [("a__alpha", 5%Z); ("b__beta", 7%Z)] ≠ [] →
       NoDup (_estimators self_ab) →
       ∀ i l, _estimators self_ab !! i = Some l →
         est_set_params
           (dict_of (addressed_to self_ab i [("a__alpha", 5%Z); ("b__beta", 7%Z)]))
           (objs w_ab l)
         = inr (objs (set_params self_ab
                        [("a__alpha", 5%Z); ("b__beta", 7%Z)] w_ab).2 l)).
Proof.
  assert (length (_step_names self_ab) = length (_estimators self_ab)) as H1
    by reflexivity.
  assert (set_params self_ab [("a__alpha", 5%Z); ("b__beta", 7%Z)] w_ab
          = (Ok self_ab,
             (set_params self_ab [("a__alpha", 5%Z); ("b__beta", 7%Z)] w_ab).2))
    as H2 by (vm_compute; reflexivity).
  split; [exact H1|]. split; [exact H2|].
  exact (X9_set_params_effect self_ab _ w_ab _ _ H1 H2).
Defined.

Lemma X10_witness :
  fit X4 y2 None tt (self_ab, w_ab) = (Ok fitted_ab, (fitted_ab, w_fitted_ab))
  ∧ config fitted_ab = config self_ab
  ∧ (∀ l, l ∉ _estimators self_ab → objs w_fitted_ab l = objs w_ab l)
  ∧ ∃ evs, calls w_fitted_ab = calls w_ab ++ evs ∧ set_params_calls evs = [].
Proof.
  assert (fit X4 y2 None tt (self_ab, w_ab)
          = (Ok fitted_ab, (fitted_ab, w_fitted_ab))) as H
    by (vm_compute; reflexivity).
  split; [exact H|].
  exact (X10_fit_frame X4 y2 None tt self_ab w_ab _ _ _ H).
Defined.


Lemma X12_witness :
  fit (Sub := Flaky.sub) X4 y2 None tt (self_ab, w_ab)
  = (Raise (Foreign "nothing left to fit"),
     (fit (Sub := Flaky.sub) X4 y2 None tt (self_ab, w_ab)).2)
  ∧ ∃ evs,
      calls (fit (Sub := Flaky.sub) X4 y2 None tt (self_ab, w_ab)).2.2
      = calls w_ab ++ evs
      ∧ (∀ k c msg, evs !! k = Some c → raised c = Some msg →
           Raise (Foreign "nothing left to fit")
           = Raise (A := StepwiseEstimator) (Foreign msg)
           ∧ S k = length evs)
      ∧ (∀ msg, Raise (A := StepwiseEstimator) (Foreign "nothing left to fit")
                = Raise (Foreign msg) →
           ∃ pre c, evs = pre ++ [c] ∧ raised c = Some msg).
Proof.
  assert (fit (Sub := Flaky.sub) X4 y2 None tt (self_ab, w_ab)
          = (Raise (Foreign "nothing left to fit"),
             ((fit (Sub := Flaky.sub) X4 y2 None tt (self_ab, w_ab)).2.1,
              (fit (Sub := Flaky.sub) X4 y2 None tt (self_ab, w_ab)).2.2)))
    as H by (vm_compute; reflexivity).
  split; [vm_compute; reflexivity|].
  exact (X12_sub_estimator_error_ends_fit (Sub := Flaky.sub)
           X4 y2 None tt self_ab w_ab _ _ _ H).
Defined.

Lemma flaky_fit_contract :
  ∀ Xs t sw' ex' (e e' : estimator),
    est_fit (SubEstimator := Flaky.sub) Xs t sw' ex' e = inr e' →
    (∃ c, est_coef_ e' = Some c ∧ length c = n_features Xs)
    ∧ is_Some (est_intercept_ e').
Proof.
  intros Xs t sw' ex' e e'. simpl. unfold Flaky.flaky_fit.
  destruct (forallb _ t); [done|]. intros [= <-]. split.
  - eexists. split; [reflexivity|]. apply length_fmap.
  - by eexists.
Qed.

(** On the columns of a scope of the two-step composite a prediction has
    two entries, and can be subtracted from a residual of two. *)
Lemma toy_subtract_prediction :
  ∀ (r : arr) (scope : list Z) (e : estimator) (p : arr),
    scope ∈ scopes_ab → length r = 2 →
    est_predict (take_cols X4 scope) e = inr p →
    ∃ r', arr_sub r p = Some r' ∧ length r' = 2.
Proof.
  intros r scope e p Hscope Hr Hp.
  assert (length p = 2) as Hlen.
  { simpl in Hp. unfold toy_predict in Hp.
    destruct (est_coef_ e) as [c|]; [|done]. injection Hp as <-.
    apply elem_of_cons in Hscope as [->|Hscope];
      [|apply elem_of_cons in Hscope as [->|Hscope%elem_of_nil]; [|done]];
      by destruct c as [|c1 [|c2 [|c3 c]]]. }
  simpl. unfold vsub. rewrite decide_True by congruence. eexists.
  split; [done|]. rewrite length_zip_with. lia.
Qed.

(** The second step finds nothing left to fit and raises. *)
Lemma X13_witness :
  __init__ steps_ab scopes_ab w0 = (Ok self_ab, w_ab)
  ∧ _full_scope self_ab = range (n_features X4)
  ∧ length y2 = 2
  ∧ fit (Sub := Flaky.sub) X4 y2 None tt (self_ab, w_ab)
    = (Raise (Foreign "nothing left to fit"),
       (fit (Sub := Flaky.sub) X4 y2 None tt (self_ab, w_ab)).2)
  ∧ ∃ msg, Foreign "nothing left to fit" = Foreign msg
      ∧ ((∃ Xs t sw' ex' e0,
            est_fit (SubEstimator := Flaky.sub) Xs t sw' ex' e0 = inl msg)
         ∨ (∃ Xs e0, is_Some (est_coef_ e0)
              ∧ est_predict (SubEstimator := Flaky.sub) Xs e0 = inl msg)).
Proof.
  assert (__init__ steps_ab scopes_ab w0 = (Ok self_ab, w_ab)) as Hinit
    by (vm_compute; reflexivity).
  assert (_full_scope self_ab = range (n_features X4)) as Hfull
    by (vm_compute; reflexivity).
  assert (length y2 = 2) as Hy by reflexivity.
  assert (fit (Sub := Flaky.sub) X4 y2 None tt (self_ab, w_ab)
          = (Raise (Foreign "nothing left to fit"),
             ((fit (Sub := Flaky.sub) X4 y2 None tt (self_ab, w_ab)).2.1,
              (fit (Sub := Flaky.sub) X4 y2 None tt (self_ab, w_ab)).2.2)))
    as H by (vm_compute; reflexivity).
  split; [exact Hinit|]. split; [exact Hfull|]. split; [exact Hy|].
  split; [vm_compute; reflexivity|].
  exact (X13_fit_raises_only_sub_estimator_errors (Sub := Flaky.sub)
           (λ r : arr, length r = 2)
           steps_ab scopes_ab w0 self_ab w_ab X4 y2 None tt self_ab w_ab _ _ _
           flaky_fit_contract (toy_take_cols X4) toy_subtract_prediction Hy
           Hinit eq_refl Hfull H).
Defined.

Lemma toy_fit_returns :
  ∀ Xs t sw' ex' (e : estimator),
    ∃ e', est_fit Xs t sw' ex' e = inr e'
      ∧ (∃ c, est_coef_ e' = Some c ∧ length c = n_features Xs)
      ∧ is_Some (est_intercept_ e').
Proof.
  intros Xs t sw' ex' e. eexists. split; [reflexivity|]. split.
  - eexists. split; [reflexivity|]. apply length_fmap.
  - by eexists.
Qed.

Lemma toy_predict_returns :
  ∀ Xs (e : estimator), is_Some (est_coef_ e) → ∃ p, est_predict Xs e = inr p.
Proof.
  intros Xs e [c Hc]. simpl. unfold toy_predict. rewrite Hc. by eexists.
Qed.

Lemma X14_witness :
  __init__ steps_ab scopes_ab w0 = (Ok self_ab, w_ab)
  ∧ _full_scope self_ab = range (n_features X4)
  ∧ length y2 = 2
  ∧ ∃ self' w', fit X4 y2 None tt (self_ab, w_ab) = (Ok self', (self', w'))
      ∧ (∃ a, coef_ self' = Some a ∧ length a = n_features X4)
      ∧ is_Some (intercept_ self').
Proof.
  assert (__init__ steps_ab scopes_ab w0 = (Ok self_ab, w_ab)) as Hinit
    by (vm_compute; reflexivity).
  assert (_full_scope self_ab = range (n_features X4)) as Hfull
    by (vm_compute; reflexivity).
  assert (length y2 = 2) as Hy by reflexivity.
  split; [exact Hinit|]. split; [exact Hfull|]. split; [exact Hy|].
  exact (X14_fit_returns (λ r : arr, length r = 2)
           steps_ab scopes_ab w0 self_ab w_ab X4 y2 None tt
           self_ab w_ab toy_fit_returns toy_predict_returns (toy_take_cols X4)
           toy_subtract_prediction Hy Hinit eq_refl Hfull).
Defined.

(** The composite as the constructor made it and the composite after a
    fit, on the same store: both end the same. *)
Lemma X15_witness :
  config self_ab = config fitted_ab
  ∧ fit X4 y2 None tt (self_ab, w_ab) = (Ok fitted_ab, (fitted_ab, w_fitted_ab))
  ∧ fit X4 y2 None tt (fitted_ab, w_ab) = (Ok fitted_ab, (fitted_ab, w_fitted_ab)).
Proof.
  assert (config self_ab = config fitted_ab) as H1 by reflexivity.
  assert (fit X4 y2 None tt (self_ab, w_ab)
          = (Ok fitted_ab, (fitted_ab, w_fitted_ab))) as H2
    by (vm_compute; reflexivity).
  split; [exact H1|]. split; [exact H2|].
  exact (X15_fit_ignores_earlier_fit X4 y2 None tt self_ab fitted_ab w_ab _ _ _
           H1 H2).
Defined.

Lemma X16_witness :
  __init__ steps_ab scopes_ab w0 = (Ok self_ab, w_ab)
  ∧ config fitted_ab = config self_ab
  ∧ ((fit X3 y2 None tt (fitted_ab, w_fitted_ab)).1
     = Raise (ValueError DoesNotCoverAllFeatures)
     ↔ n_features X3 ≠ length (chain scopes_ab)).
Proof.
  assert (__init__ steps_ab scopes_ab w0 = (Ok self_ab, w_ab)) as Hinit
    by (vm_compute; reflexivity).
  assert (config fitted_ab = config self_ab) as Hcfg by reflexivity.
  split; [exact Hinit|]. split; [exact Hcfg|].
  exact (X16_coverage_error_iff_wrong_width steps_ab scopes_ab w0 self_ab w_ab
           X3 y2 None tt fitted_ab w_fitted_ab Hinit Hcfg).
Defined.

Lemma toy_fit_keeps_fit_intercept :
  ∀ Xs t sw' ex' (e e' : estimator),
    est_fit Xs t sw' ex' e = inr e' → fit_intercept e' = fit_intercept e.
Proof. by intros Xs t sw' ex' e e' [= <-]. Qed.

Lemma X17_witness :
  __init__ steps_aa scopes_aa w0 = (Ok self_aa, w_aa)
  ∧ _estimators self_aa !! 0 = Some 0
  ∧ 0 ∈ drop 1 (_estimators self_aa)
  ∧ fit_intercept (objs w0 0) = true
  ∧ fit X2 y2 None tt (self_aa, w_aa) = (Ok fitted_aa, (fitted_aa, w_fitted_aa))
  ∧ intercept_ fitted_aa = Some zero.
Proof.
  assert (__init__ steps_aa scopes_aa w0 = (Ok self_aa, w_aa)) as Hinit
    by (vm_compute; reflexivity).
  assert (_estimators self_aa !! 0 = Some 0) as Hfirst by reflexivity.
  assert (0 ∈ drop 1 (_estimators self_aa)) as Hlater
    by (apply (bool_decide_unpack _); vm_compute; exact I).
  assert (fit X2 y2 None tt (self_aa, w_aa)
          = (Ok fitted_aa, (fitted_aa, w_fitted_aa))) as Hfit
    by (vm_compute; reflexivity).
  split; [exact Hinit|]. split; [exact Hfirst|]. split; [exact Hlater|].
  split; [reflexivity|]. split; [exact Hfit|].
  exact (X17_shared_first_object_fits_no_intercept steps_aa scopes_aa w0 self_aa
           w_aa X2 y2 None tt 0 fitted_aa fitted_aa w_fitted_aa
           toy_fit_keeps_fit_intercept Hinit Hfirst Hlater Hfit).
Defined.
